(** * VaultRocket: confidential fundraising ledger and client amount parsing

    A shallow embedding of [contracts/VaultRocket.sol] (the campaign ledger)
    and of [parseAmount], [formatAmount] and the campaign status display of
    the web client, with the properties of the campaign lifecycle, of the
    encrypted accounting, of the event log and of the conversion of amounts.

    Numbers are [Z] with the Solidity ranges written out ([uint64],
    [uint256]); addresses and ciphertext handles are [N]; Solidity mappings
    are [gmap]s read with the Solidity default for absent keys. *)

From Stdlib Require Import ZArith Lia.
From stdpp Require Import gmap list strings relations.

Local Open Scope Z_scope.

(** ** Value types *)

Abbreviation address := N (only parsing).

(** [euint64]: a [bytes32] ciphertext handle; the zero handle is the
    uninitialised one. *)
Abbreviation euint64 := N (only parsing).

Definition uint64_max : Z := 2 ^ 64 - 1.
Definition uint256_max : Z := 2 ^ 256 - 1.

Definition is_uint64 (v : Z) : Prop := 0 <= v <= uint64_max.

(** ** Failures

    The four custom errors of the contract, the [onlyOwner] failure of
    [Ownable], the arithmetic panic of checked Solidity arithmetic, and the
    failures raised by the collaborators (input proof check, token). *)

Inductive Error :=
| CampaignNotConfigured
| CampaignAlreadyFinalized
| CampaignEnded
| InvalidEndTimestamp
| OwnableUnauthorizedAccount
| PanicOverflow
| InvalidInputProof
| TokenUnauthorizedSpender
| TokenZeroBalance.

Inductive Result (A : Type) :=
| Ok (a : A)
| Revert (e : Error).
Arguments Ok {A} a.
Arguments Revert {A} e.

#[global] Instance result_ret : MRet Result := fun A a => Ok a.
#[global] Instance result_bind : MBind Result := fun A B k r =>
  match r with
  | Ok a => k a
  | Revert e => Revert e
  end.

Definition succeeds {A} (r : Result A) : bool :=
  match r with Ok _ => true | Revert _ => false end.

Definition require (c : bool) (e : Error) : Result unit :=
  if c then Ok tt else Revert e.

(** ** The FHE runtime

    The contract only sees handles. The runtime is modelled as a ciphertext
    store (handle to the 64-bit plaintext it encrypts), an allocation counter
    that gives every new ciphertext a handle never used before, and the
    access-control list of the persistent [FHE.allow] grants issued by the
    ledger contract. The runtime's code is not among the sources: the counter
    is the model's way of naming ciphertexts. *)

Record FHE := mkFHE {
  cts : gmap N Z;
  next : N;
  acl : gset (euint64 * address)
}.

Definition isInitialized (h : euint64) : bool := negb (h =? 0)%N.

(** The plaintext behind a handle; an uninitialised handle reads as zero,
    which is how [FHE.add] treats it. *)
Definition decrypt (f : FHE) (h : euint64) : Z := default 0 (cts f !! h).

Definition fresh (v : Z) (f : FHE) : euint64 * FHE :=
  (next f, mkFHE (<[next f := v]> (cts f)) (N.succ (next f)) (acl f)).

(** [FHE.asEuint64(v)]: trivial encryption of a constant. *)
Definition asEuint64 (v : Z) (f : FHE) : euint64 * FHE := fresh v f.

(** [FHE.add] on [euint64]: addition modulo 2^64. *)
Definition fhe_add (a b : euint64) (f : FHE) : euint64 * FHE :=
  fresh ((decrypt f a + decrypt f b) mod 2 ^ 64) f.

(** [FHE.allow(h, a)]; [FHE.allowThis(h)] is [allow h this]. *)
Definition allow (h : euint64) (a : address) (f : FHE) : FHE :=
  mkFHE (cts f) (next f) ({[ (h, a) ]} ∪ acl f).

Definition isAllowed (f : FHE) (h : euint64) (a : address) : Prop :=
  (h, a) ∈ acl f.

(** The pair [(externalEuint64 encryptedAmount, bytes inputProof)] handed to
    [contribute]: the 64-bit plaintext the caller encrypted, and whether the
    proof verifies for this contract and caller. *)
Record EncryptedInput := mkInput {
  plaintext : Z;
  proofValid : bool
}.

(** [FHE.fromExternal]: checks the proof and yields an internal handle. *)
Definition fromExternal (e : EncryptedInput) (f : FHE) : Result (euint64 * FHE) :=
  if proofValid e then Ok (fresh (plaintext e) f) else Revert InvalidInputProof.

(** ** The payment token *)

Record Token := mkToken {
  balances : gmap address euint64;
  operators : gmap (address * address) Z
}.

(** Modelled from the spec: the payment token ([contracts/ConfidentialUSDT.sol],
    an ERC7984 confidential token) is not among the sources. It is "an
    encrypted-balance payment token exposing [...] encrypted transfer,
    encrypted transfer-from-with-operator, and encrypted balance-of". The
    balance of an account that never held tokens is the uninitialised handle. *)
Definition confidentialBalanceOf (t : Token) (a : address) : euint64 :=
  default 0%N (balances t !! a).

(** Modelled from the spec: the operator check of the missing token
    contract. "Operator approval: a time-boxed permission letting one party
    move encrypted-balance funds on behalf of another"; a holder is always an
    operator for itself. *)
Definition isOperator (t : Token) (holder spender : address) (now : Z) : bool :=
  (holder =? spender)%N || (now <=? default 0 (operators t !! (holder, spender))).

(** Modelled from the spec: the balance update behind the two transfer
    functions of the missing token contract, "an encrypted-balance transfer".
    The sender must hold an initialised balance; the amount moved is the
    requested one when the balance covers it and zero otherwise (a ciphertext
    comparison cannot make the call fail); it is returned as a new ciphertext,
    taken from the sender's balance and added to the receiver's. *)
Definition token_update (from to : address) (amount : euint64)
    (f : FHE) (t : Token) : Result (euint64 * FHE * Token) :=
  let fromBalance := confidentialBalanceOf t from in
  if negb (isInitialized fromBalance) then Revert TokenZeroBalance else
  let success := decrypt f amount <=? decrypt f fromBalance in
  let '(ptr, f1) :=
    fresh (if success then decrypt f fromBalance - decrypt f amount
           else decrypt f fromBalance) f in
  let t1 := mkToken (<[from := ptr]> (balances t)) (operators t) in
  let '(transferred, f2) := fresh (if success then decrypt f amount else 0) f1 in
  let '(ptr', f3) := fhe_add (confidentialBalanceOf t1 to) transferred f2 in
  Ok (transferred, f3, mkToken (<[to := ptr']> (balances t1)) (operators t1)).

(** Modelled from the spec: [confidentialTransferFrom] of the missing token
    contract, the "encrypted transfer-from-with-operator", called by [spender]
    at time [now]. *)
Definition confidentialTransferFrom (spender : address) (now : Z)
    (from to : address) (amount : euint64)
    (f : FHE) (t : Token) : Result (euint64 * FHE * Token) :=
  if negb (isOperator t from spender now) then Revert TokenUnauthorizedSpender
  else token_update from to amount f t.

(** Modelled from the spec: [confidentialTransfer] of the missing token
    contract, the "encrypted transfer", called by the holder. *)
Definition confidentialTransfer (holder to : address) (amount : euint64)
    (f : FHE) (t : Token) : Result (euint64 * FHE * Token) :=
  token_update holder to amount f t.

(** ** Ledger storage *)

Record Campaign := mkCampaign {
  name : string;
  targetAmount : Z;
  endTimestamp : Z;
  finalized : bool;
  totalRaised : euint64
}.

(** The value of a mapping slot never written. *)
Definition emptyCampaign : Campaign := mkCampaign "" 0 0 false 0%N.

Inductive Event :=
| CampaignConfigured (id : Z) (name : string) (targetAmount endTimestamp : Z)
| ContributionReceived (id : Z) (contributor : address) (encryptedAmount : euint64)
| CampaignClosed (id : Z) (receiver : address) (encryptedPayout : euint64) (closedAt : Z).

(** The contract storage ([owner] is [Ownable]'s), the emitted events, and
    the state of the two collaborators the contract calls into. *)
Record State := mkState {
  owner : address;
  campaignId : Z;
  campaigns : gmap Z Campaign;
  contributions : gmap (Z * address) euint64;
  events : list Event;
  fhe : FHE;
  token : Token
}.

(** [msg.sender] and [block.timestamp] of a transaction. *)
Record Msg := mkMsg {
  sender : address;
  timestamp : Z
}.

(** [campaigns[id]] and [contributions[id][contributor]] as Solidity reads them. *)
Definition campaign (s : State) (id : Z) : Campaign :=
  default emptyCampaign (campaigns s !! id).

Definition contribution (s : State) (id : Z) (contributor : address) : euint64 :=
  default 0%N (contributions s !! (id, contributor)).

Definition set_campaign (id : Z) (c : Campaign) (s : State) : State :=
  mkState (owner s) (campaignId s) (<[id := c]> (campaigns s)) (contributions s)
          (events s) (fhe s) (token s).

Definition set_campaignId (id : Z) (s : State) : State :=
  mkState (owner s) id (campaigns s) (contributions s) (events s) (fhe s) (token s).

Definition set_contribution (id : Z) (a : address) (h : euint64) (s : State) : State :=
  mkState (owner s) (campaignId s) (campaigns s) (<[(id, a) := h]> (contributions s))
          (events s) (fhe s) (token s).

Definition set_fhe (f : FHE) (s : State) : State :=
  mkState (owner s) (campaignId s) (campaigns s) (contributions s) (events s) f (token s).

Definition set_token (t : Token) (s : State) : State :=
  mkState (owner s) (campaignId s) (campaigns s) (contributions s) (events s) (fhe s) t.

Definition emit (e : Event) (s : State) : State :=
  mkState (owner s) (campaignId s) (campaigns s) (contributions s)
          (events s ++ [e]) (fhe s) (token s).

Definition with_totalRaised (h : euint64) (c : Campaign) : Campaign :=
  mkCampaign (name c) (targetAmount c) (endTimestamp c) (finalized c) h.

Definition with_finalized (b : bool) (c : Campaign) : Campaign :=
  mkCampaign (name c) (targetAmount c) (endTimestamp c) b (totalRaised c).

(** ** The contract *)

Section VaultRocket.

(** [address(this)] and [address(paymentToken)]. *)
Variables this paymentToken : address.

(** The constructor: [Ownable(msg.sender)], everything else zero. The FHE
    runtime and the token exist already. *)
Definition deploy (deployer : address) (f : FHE) (t : Token) : State :=
  mkState deployer 0 ∅ ∅ [] f t.

Definition onlyOwner (m : Msg) (s : State) : Result unit :=
  require (sender m =? owner s)%N OwnableUnauthorizedAccount.

Definition configureCampaign (m : Msg) (name : string) (targetAmount endTimestamp : Z)
    (s : State) : Result (unit * State) :=
  _ ← onlyOwner m s;
  _ ← require (negb (endTimestamp <=? timestamp m)) InvalidEndTimestamp;
  s1 ← (if (campaignId s =? 0) || finalized (campaign s (campaignId s)) then
          _ ← require (campaignId s + 1 <=? uint256_max) PanicOverflow;
          let id := campaignId s + 1 in
          let '(zero, f) := asEuint64 0 (fhe s) in
          Ok (set_campaign id (with_totalRaised zero (campaign s id))
                (set_fhe f (set_campaignId id s)))
        else Ok s);
  let id := campaignId s1 in
  let s2 :=
    if negb (isInitialized (totalRaised (campaign s1 id))) then
      let '(zero, f) := asEuint64 0 (fhe s1) in
      set_campaign id (with_totalRaised zero (campaign s1 id)) (set_fhe f s1)
    else s1 in
  let current := campaign s2 id in
  let s3 :=
    set_campaign id
      (mkCampaign name targetAmount endTimestamp false (totalRaised current)) s2 in
  Ok (tt, emit (CampaignConfigured id name targetAmount endTimestamp) s3).

Definition contribute (m : Msg) (input : EncryptedInput) (s : State)
    : Result (euint64 * State) :=
  _ ← require (negb (campaignId s =? 0)) CampaignNotConfigured;
  let id := campaignId s in
  let current := campaign s id in
  _ ← require (negb (finalized current)) CampaignAlreadyFinalized;
  _ ← require (negb (timestamp m >=? endTimestamp current)) CampaignEnded;
  '(contributionAmount, f0) ← fromExternal input (fhe s);
  let f1 := allow contributionAmount paymentToken (allow contributionAmount this f0) in
  '(transferred, f2, t) ←
    confidentialTransferFrom this (timestamp m) (sender m) this contributionAmount
      f1 (token s);
  let '(mine, f3) := fhe_add (contribution s id (sender m)) transferred f2 in
  let '(total, f4) := fhe_add (totalRaised current) transferred f3 in
  let f5 := allow mine (sender m) (allow mine this f4) in
  let f6 := allow total (owner s) (allow total this f5) in
  let s1 :=
    set_campaign id (with_totalRaised total current)
      (set_contribution id (sender m) mine (set_token t (set_fhe f6 s))) in
  Ok (mine, emit (ContributionReceived id (sender m) transferred) s1).

Definition closeCampaign (m : Msg) (s : State) : Result (euint64 * State) :=
  _ ← onlyOwner m s;
  _ ← require (negb (campaignId s =? 0)) CampaignNotConfigured;
  let id := campaignId s in
  let current := campaign s id in
  _ ← require (negb (finalized current)) CampaignAlreadyFinalized;
  let s1 := set_campaign id (with_finalized true current) s in
  let contractBalance := confidentialBalanceOf (token s1) this in
  if negb (isInitialized contractBalance) then
    let '(zeroCipher, f) := asEuint64 0 (fhe s1) in
    let f1 := allow zeroCipher (owner s1) (allow zeroCipher this f) in
    Ok (zeroCipher,
        emit (CampaignClosed id (owner s1) zeroCipher (timestamp m mod 2 ^ 64))
          (set_fhe f1 s1))
  else
    '(payout, f, t) ← confidentialTransfer this (owner s1) contractBalance
                        (fhe s1) (token s1);
    Ok (payout,
        emit (CampaignClosed id (owner s1) payout (timestamp m mod 2 ^ 64))
          (set_token t (set_fhe f s1))).

(** *** Read accessors *)

Definition getCampaign (s : State)
    : Result (string * Z * Z * bool * address * euint64) :=
  _ ← require (negb (campaignId s =? 0)) CampaignNotConfigured;
  let current := campaign s (campaignId s) in
  Ok (name current, targetAmount current, endTimestamp current, finalized current,
      owner s, totalRaised current).

Definition getContribution (s : State) (id : Z) (contributor : address)
    : Result euint64 :=
  Ok (contribution s id contributor).

Definition activeCampaignId (s : State) : Result Z :=
  _ ← require (negb (campaignId s =? 0)) CampaignNotConfigured;
  Ok (campaignId s).

Definition isActive (now : Z) (s : State) : Result bool :=
  if campaignId s =? 0 then Ok false else
  let current := campaign s (campaignId s) in
  if finalized current then Ok false else
  Ok (now <? endTimestamp current).

(** *** Transactions

    A transaction is a call of one of the three state-changing functions. A
    reverted transaction leaves the whole state as it was. *)

Inductive Call :=
| Configure (name : string) (targetAmount endTimestamp : Z)
| Contribute (input : EncryptedInput)
| Close.

Definition execute (m : Msg) (c : Call) (s : State) : Result State :=
  match c with
  | Configure n t e => '(_, s') ← configureCampaign m n t e s; Ok s'
  | Contribute i => '(_, s') ← contribute m i s; Ok s'
  | Close => '(_, s') ← closeCampaign m s; Ok s'
  end.

Definition step (m : Msg) (c : Call) (s : State) : State :=
  match execute m c s with
  | Ok s' => s'
  | Revert _ => s
  end.

Definition run (txs : list (Msg * Call)) (s : State) : State :=
  foldl (fun s tx => step tx.1 tx.2 s) s txs.

(** What the ABI and the platform guarantee about a transaction: the
    arguments are in the range of their Solidity type, the time is a
    [uint256], and the caller is never the contract itself (it has no
    self-calls). *)
Definition wf_call (m : Msg) (c : Call) : Prop :=
  sender m ≠ this ∧ 0 <= timestamp m <= uint256_max ∧
  match c with
  | Configure _ t e => is_uint64 t ∧ is_uint64 e
  | Contribute i => is_uint64 (plaintext i)
  | Close => True
  end.

(** *** The world the contract is deployed into *)

(** Every ciphertext has a handle below the allocation counter and holds a
    64-bit value; the zero handle is never allocated; the recorded grants are
    on allocated handles. *)
Definition wf_fhe (f : FHE) : Prop :=
  (0 < next f)%N ∧
  (∀ h v, cts f !! h = Some v → (0 < h < next f)%N ∧ is_uint64 v) ∧
  (∀ h a, (h, a) ∈ acl f → (0 < h < next f)%N).

(** [f'] has the ciphertexts of [f], unchanged, and possibly newer ones. *)
Definition extends (f f' : FHE) : Prop :=
  (next f <= next f')%N ∧ ∀ h, (h < next f)%N → cts f' !! h = cts f !! h.

Definition sumZ (l : list Z) : Z := foldr Z.add 0 l.

(** The total of all balances, in plaintext. *)
Definition supply (f : FHE) (b : gmap address euint64) : Z :=
  sumZ ((fun kv => decrypt f kv.2) <$> map_to_list b).

(** A token whose balances are allocated ciphertexts and whose supply fits
    in 64 bits, which is what the token standard maintains. *)
Definition wf_token (f : FHE) (t : Token) : Prop :=
  (∀ a h, balances t !! a = Some h → (h < next f)%N) ∧
  supply f (balances t) <= uint64_max.

(** The amount a [ContributionReceived] event carries for campaign [id]
    (and contributor [c], when given), zero for every other event. *)
Definition received (f : FHE) (id : Z) (c : option address) (e : Event) : Z :=
  match e with
  | ContributionReceived id' c' h =>
      if bool_decide (id' = id) &&
         match c with Some c0 => bool_decide (c' = c0) | None => true end
      then decrypt f h else 0
  | _ => 0
  end.

(** The sum of the amounts transferred by the contributions of [c] to
    campaign [id], and by all contributions to campaign [id]. *)
Definition sum_contributor (s : State) (id : Z) (c : address) : Z :=
  sumZ (received (fhe s) id (Some c) <$> events s).

Definition sum_campaign (s : State) (id : Z) : Z :=
  sumZ (received (fhe s) id None <$> events s).

(** The states the contract can be in: deployed into a well-formed world in
    which it holds no tokens and has issued no grant, by a deployer other
    than itself, and then driven by any transactions of the ledger. The token
    is moved by the ledger's own calls only. *)
Inductive reachable : State → Prop :=
| reachable_deploy deployer f t :
    wf_fhe f → wf_token f t → acl f = ∅ →
    balances t !! this = None → deployer ≠ this →
    reachable (deploy deployer f t)
| reachable_step m c s :
    reachable s → wf_call m c → reachable (step m c s).

(** The invariant of the reachable states. *)
Record inv (s : State) : Prop := mkInv {
  inv_fhe : wf_fhe (fhe s);
  inv_token : wf_token (fhe s) (token s);
  inv_owner : owner s ≠ this;
  inv_id : 0 <= campaignId s <= uint256_max;
  inv_campaigns : ∀ id c, campaigns s !! id = Some c →
    1 <= id <= campaignId s ∧ (0 < totalRaised c < next (fhe s))%N;
  inv_current : 1 <= campaignId s → is_Some (campaigns s !! campaignId s);
  inv_past : ∀ id c, campaigns s !! id = Some c → id < campaignId s →
    finalized c = true;
  inv_contributions : ∀ id a h, contributions s !! (id, a) = Some h →
    1 <= id <= campaignId s ∧ (0 < h < next (fhe s))%N;
  inv_events : ∀ id a h, ContributionReceived id a h ∈ events s →
    1 <= id <= campaignId s ∧ (h < next (fhe s))%N;
  inv_vault :
    decrypt (fhe s) (confidentialBalanceOf (token s) this) =
    if (campaignId s =? 0) || finalized (campaign s (campaignId s)) then 0
    else decrypt (fhe s) (totalRaised (campaign s (campaignId s)));
  inv_sum_contributor : ∀ id a,
    decrypt (fhe s) (contribution s id a) = sum_contributor s id a;
  inv_sum_campaign : ∀ id,
    decrypt (fhe s) (totalRaised (campaign s id)) = sum_campaign s id;
  inv_acl_contribution : ∀ id c a,
    isAllowed (fhe s) (contribution s id c) a → a = c ∨ a = this;
  inv_acl_total : ∀ id a,
    isAllowed (fhe s) (totalRaised (campaign s id)) a → a = owner s ∨ a = this;
  inv_acl_own : ∀ id c,
    isInitialized (contribution s id c) = true →
    isAllowed (fhe s) (contribution s id c) c
}.

(** *** The open world

    The token is not the ledger's alone: its mint and its transfers are open
    to every account, so tokens reach the vault without [contribute] too.
    Between two transactions of the ledger the other accounts change the token
    and the runtime as they like; the storage and the log of the ledger are
    not theirs to change. *)
Inductive open_step : State → State → Prop :=
| open_ledger m c s : wf_call m c → open_step s (step m c s)
| open_outside f t s : open_step s (set_token t (set_fhe f s)).

(** A world the ledger can work in, whatever its history: a well-formed
    runtime and token, and an owner other than the contract. *)
Definition wf_world (s : State) : Prop :=
  wf_fhe (fhe s) ∧ wf_token (fhe s) (token s) ∧ owner s ≠ this.

End VaultRocket.

(** ** Reading the log and the storage

    What a reader of the events (an indexer) or of the storage reconstructs
    from them. *)

(** The lifecycle [Unconfigured → Active → (Active) → Finalized] followed
    along the log: the state is the id of the latest campaign and whether it
    is open; an event that does not fit the lifecycle is refused. *)
Definition log_step (st : Z * bool) (e : Event) : option (Z * bool) :=
  match e with
  | CampaignConfigured id _ _ _ =>
      if st.2 then (if id =? st.1 then Some (st.1, true) else None)
      else (if id =? st.1 + 1 then Some (id, true) else None)
  | ContributionReceived id _ _ =>
      if st.2 && (id =? st.1) then Some st else None
  | CampaignClosed id _ _ _ =>
      if st.2 && (id =? st.1) then Some (st.1, false) else None
  end.

Definition replay (evs : list Event) : option (Z * bool) :=
  foldl (fun st e => st ≫= fun st => log_step st e) (Some (0, false)) evs.

(** The name, target and end time of the latest [CampaignConfigured] event
    of campaign [id]. *)
Definition configuredAs (evs : list Event) (id : Z) : option (string * Z * Z) :=
  foldl (fun acc e =>
           match e with
           | CampaignConfigured id' n t e' =>
               if bool_decide (id' = id) then Some (n, t, e') else acc
           | _ => acc
           end) None evs.

(** The running totals of all contributors of campaign [id], added up in
    plaintext. *)
Definition entries_sum (f : FHE) (m : gmap (Z * address) euint64) (id : Z) : Z :=
  sumZ ((fun kv => if kv.1.1 =? id then decrypt f kv.2 else 0) <$> map_to_list m).

(** ** The client's amount parser

    [parseAmount] of the web client. A JavaScript string is its sequence of
    UTF-16 code units; [bigint | null] is [option Z]. *)

Module Client.

Abbreviation jsstring := (list N) (only parsing).

(** The code units of an ASCII literal. *)
Definition js (s : string) : jsstring :=
  Ascii.N_of_ascii <$> String.list_ascii_of_string s.

(** White space and line terminators, as [String.prototype.trim] strips them. *)
Definition isWhiteSpace (c : N) : bool :=
  bool_decide (c ∈ [9; 10; 11; 12; 13; 32; 160; 5760; 8192; 8193; 8194; 8195;
                    8196; 8197; 8198; 8199; 8200; 8201; 8202; 8232; 8233;
                    8239; 8287; 12288; 65279]%N).

Fixpoint trimStart (s : jsstring) : jsstring :=
  match s with
  | c :: s' => if isWhiteSpace c then trimStart s' else s
  | [] => []
  end.

Definition trim (s : jsstring) : jsstring :=
  reverse (trimStart (reverse (trimStart s))).

(** [s.split(sep)] for a one-character separator: never the empty array. *)
Fixpoint split (sep : N) (s : jsstring) : list jsstring :=
  match s with
  | [] => [[]]
  | c :: s' =>
      if (c =? sep)%N then [] :: split sep s'
      else match split sep s' with
           | p :: ps => (c :: p) :: ps
           | [] => [[c]]
           end
  end.

Definition dot : N := 46.

Definition isDigit (c : N) : bool := (48 <=? c)%N && (c <=? 57)%N.

(** [/^[0-9]+$/.test] and [/^[0-9]*$/.test]. *)
Definition allDigits1 (s : jsstring) : bool :=
  forallb isDigit s && negb (bool_decide (s = [])).
Definition allDigits0 (s : jsstring) : bool := forallb isDigit s.

(** [BigInt] of a string of decimal digits. *)
Definition digitsValue (s : jsstring) : Z :=
  foldl (fun acc c => 10 * acc + (Z.of_N c - 48)) 0 s.

Definition zeros6 : jsstring := replicate 6 48%N.

Definition parseAmount (input : jsstring) : option Z :=
  let trimmed := trim input in
  if bool_decide (trimmed = []) then None else
  let parts := split dot trimmed in
  let whole := default [] (parts !! 0%nat) in
  let fraction := default [] (parts !! 1%nat) in
  if negb (allDigits1 whole) || negb (allDigits0 fraction) then None else
  let paddedFraction := take 6 (fraction ++ zeros6) in
  Some (digitsValue (whole ++ paddedFraction)).

(** *** The amount formatter *)

Definition DECIMALS : Z := 1000000.

(** The decimal digits of a non-negative integer, most significant first,
    prepended to [acc]; [fuel] bounds the number of digits. *)
Fixpoint digitsOf (fuel : nat) (n : Z) (acc : jsstring) : jsstring :=
  match fuel with
  | O => acc
  | S k =>
      let acc' := (48 + Z.to_N (n mod 10))%N :: acc in
      if n <? 10 then acc' else digitsOf k (n / 10) acc'
  end.

(** [n.toString()] of a bigint: no leading zeros, a minus sign before a
    negative number. A number has no more decimal digits than binary ones,
    which is the fuel given. *)
Definition toString (n : Z) : jsstring :=
  if n <? 0 then 45%N :: digitsOf (S (Z.to_nat (Z.log2 (- n)))) (- n) []
  else digitsOf (S (Z.to_nat (Z.log2 n))) n [].

(** [s.padStart(len, c)] and [s.padEnd(len, c)] for a one-character filler. *)
Definition padStart (len : nat) (c : N) (s : jsstring) : jsstring :=
  replicate (len - length s) c ++ s.
Definition padEnd (len : nat) (c : N) (s : jsstring) : jsstring :=
  s ++ replicate (len - length s) c.

Fixpoint dropZeros (s : jsstring) : jsstring :=
  match s with
  | c :: s' => if (c =? 48)%N then dropZeros s' else s
  | [] => []
  end.

(** [s.replace(/0+$/, '')]: the zeros the string ends with are removed. *)
Definition stripTrailingZeros (s : jsstring) : jsstring :=
  reverse (dropZeros (reverse s)).

(** [formatAmount]. [None] is [null] or [undefined], shown as a dash
    (U+2014). Division and remainder of bigints truncate towards zero
    ([Z.quot], [Z.rem]); [slice(0, 4)] is [take 4]. *)
Definition formatAmount (value : option Z) : jsstring :=
  match value with
  | None => [8212%N]
  | Some value =>
      let whole := Z.quot value DECIMALS in
      let fraction := Z.rem value DECIMALS in
      let fractionStr :=
        padEnd 1 48 (stripTrailingZeros (padStart 6 48 (toString fraction))) in
      toString whole ++ [dot] ++ take 4 fractionStr
  end.

(** *** The campaign status shown *)

(** The double nearest to the integer [n], ties to even. A JavaScript number
    that holds an integer is modelled by that integer: [Number(b)] of a
    bigint [b] is [toDouble b], and the product of two numbers holding
    integers is [toDouble] of the exact product (nothing here comes near the
    overflow threshold of doubles). Integers of magnitude below 2^53 are
    exact. *)
Definition toDouble (n : Z) : Z :=
  let a := Z.abs n in
  let e := Z.log2 a - 52 in
  if e <=? 0 then n else
  let q := a / 2 ^ e in
  let r := a mod 2 ^ e in
  let up := (2 ^ (e - 1) <? r) || ((r =? 2 ^ (e - 1)) && Z.odd q) in
  Z.sgn n * ((if up then q + 1 else q) * 2 ^ e).

(** [CampaignDetails]: the client's copy of what [getCampaign] returned. *)
Record CampaignDetails := mkDetails {
  name : string;
  targetAmount : Z;
  endTimestamp : Z;
  finalized : bool;
  ownerAddress : N;
  totalRaisedHandle : N
}.

(** [campaign && !campaign.finalized &&
     Number(campaign.endTimestamp) * 1000 > Date.now()], as a condition;
    [campaign] is [null] while no campaign was loaded, [now] is [Date.now()],
    in milliseconds. *)
Definition isActive (campaign : option CampaignDetails) (now : Z) : bool :=
  match campaign with
  | None => false
  | Some c => negb (finalized c) && (now <? toDouble (toDouble (endTimestamp c) * 1000))
  end.

(** [isActive ? 'Active' : campaign?.finalized ? 'Closed' : 'Pending']. *)
Definition statusLabel (campaign : option CampaignDetails) (now : Z) : string :=
  if isActive campaign now then "Active"
  else if match campaign with Some c => finalized c | None => false end
       then "Closed" else "Pending".

(** The quotient of two numbers holding the integers [x > 0] and [d > 0], as
    the double nearest to it: a 53-bit significand [m] and an exponent [e],
    the value being [m * 2^e]. [l] is the binary exponent of the exact
    quotient; the significand is rounded to nearest, ties to even (quotients
    in the normal range of doubles). *)
Definition nearestQuotient (x d : Z) : Z * Z :=
  let l0 := Z.log2 x - Z.log2 d in
  let l := if x * 2 ^ Z.max 0 (- l0) <? d * 2 ^ Z.max 0 l0 then l0 - 1 else l0 in
  let e := l - 52 in
  let num := x * 2 ^ Z.max 0 (- e) in
  let den := d * 2 ^ Z.max 0 e in
  let q := num / den in
  let r := num mod den in
  (if (den <? 2 * r) || ((2 * r =? den) && Z.odd q) then q + 1 else q, e).

(** [Math.floor(x / d)] for numbers holding the integers [x] and [d > 0]:
    the floor of the rounded quotient. *)
Definition floorDiv (x d : Z) : Z :=
  if x =? 0 then 0 else
  let '(m, e) := nearestQuotient (Z.abs x) d in
  if 0 <=? e then Z.sgn x * (m * 2 ^ e)
  else if 0 <? x then m / 2 ^ (- e)
  else - ((m + 2 ^ (- e) - 1) / 2 ^ (- e)).

(** [countdown]: the time left until the end of the campaign, from its end
    time in seconds and the clock in milliseconds. The remainder of numbers
    is exact and has the sign of the dividend ([Z.rem]); a number holding an
    integer below 10^21 is printed as that integer. *)
Definition countdown (campaign : option CampaignDetails) (now : Z) : jsstring :=
  match campaign with
  | None => []
  | Some c =>
      let remainingSeconds :=
        toDouble (toDouble (endTimestamp c) - floorDiv now 1000) in
      if remainingSeconds <=? 0 then js "Ended" else
      let days := floorDiv remainingSeconds 86400 in
      let hours := floorDiv (Z.rem remainingSeconds 86400) 3600 in
      let minutes := floorDiv (Z.rem remainingSeconds 3600) 60 in
      toString days ++ js "d " ++ toString hours ++ js "h " ++
      toString minutes ++ js "m"
  end.

End Client.

(** ** The scenario of the test suite

    A fundraiser deploys the vault, configures "Demo" with target 2_000_000
    ending one hour later; alice, who holds 5_000_000 and has approved the
    vault as operator, contributes 1_250_000; the fundraiser closes. *)

Module Demo.

Definition vault : address := 100%N.
Definition cusdt : address := 200%N.
Definition fundraiser : address := 1%N.
Definition alice : address := 2%N.
Definition bob : address := 3%N.

Definition fhe0 : FHE := mkFHE {[ 1%N := 5000000 ]} 2 ∅.
Definition token0 : Token :=
  mkToken {[ alice := 1%N ]} {[ (alice, vault) := 10000 ]}.

Definition deployed : State := deploy fundraiser fhe0 token0.

Definition configure_tx : Msg * Call :=
  (mkMsg fundraiser 1000, Configure "Demo" 2000000 4600).
Definition contribute_tx : Msg * Call :=
  (mkMsg alice 1001, Contribute (mkInput 1250000 true)).
Definition close_tx : Msg * Call := (mkMsg fundraiser 1002, Close).

Definition configured : State := run vault cusdt [configure_tx] deployed.
Definition contributed : State :=
  run vault cusdt [configure_tx; contribute_tx] deployed.
Definition closed : State :=
  run vault cusdt [configure_tx; contribute_tx; close_tx] deployed.


(** alice submits more than she holds; bob never approved the vault. *)
Definition underfunded_tx : Msg * Call :=
  (mkMsg alice 1001, Contribute (mkInput 6000000 true)).
Definition unapproved_tx : Msg * Call :=
  (mkMsg bob 1001, Contribute (mkInput 1000 true)).

(** After her contribution alice sends another 500_000 straight to the vault,
    with the token's encrypted transfer and not through [contribute]. *)
Definition donated : State :=
  match fromExternal (mkInput 500000 true) (fhe contributed) with
  | Ok (amount, f) =>
      match confidentialTransfer alice vault amount f (token contributed) with
      | Ok (_, f', t') => set_token t' (set_fhe f' contributed)
      | Revert _ => contributed
      end
  | Revert _ => contributed
  end.

End Demo.

(** * Properties *)

(** ** Sums and the ciphertext store *)

Lemma sumZ_cons x l : sumZ (x :: l) = x + sumZ l.
Proof. reflexivity. Qed.

Lemma sumZ_app l1 l2 : sumZ (l1 ++ l2) = sumZ l1 + sumZ l2.
Proof.
  induction l1 as [|x l1 IH]; [done|].
  rewrite <- app_comm_cons, !sumZ_cons. lia.
Qed.

Lemma sumZ_perm l1 l2 : l1 ≡ₚ l2 → sumZ l1 = sumZ l2.
Proof. induction 1; rewrite ?sumZ_cons; lia. Qed.

Lemma sumZ_nonneg l : Forall (fun x => 0 <= x) l → 0 <= sumZ l.
Proof. induction 1; rewrite ?sumZ_cons; [done|lia]. Qed.

Lemma sumZ_le {A} (g1 g2 : A → Z) l :
  (∀ x, x ∈ l → g1 x <= g2 x) → sumZ (g1 <$> l) <= sumZ (g2 <$> l).
Proof.
  induction l as [|x l IH]; intros H; [done|].
  rewrite !fmap_cons, !sumZ_cons.
  pose proof (H x (list_elem_of_here _ _)).
  assert (sumZ (g1 <$> l) <= sumZ (g2 <$> l)).
  { apply IH. intros y Hy. apply H. by apply list_elem_of_further. }
  lia.
Qed.

Lemma sumZ_ext {A} (g1 g2 : A → Z) l :
  (∀ x, x ∈ l → g1 x = g2 x) → sumZ (g1 <$> l) = sumZ (g2 <$> l).
Proof.
  intros H. f_equal. apply list_fmap_ext. intros i x Hx. apply H.
  by eapply list_elem_of_lookup_2.
Qed.

Lemma uint64_max_val : uint64_max = 18446744073709551615.
Proof. reflexivity. Qed.

Lemma pow64_val : 2 ^ 64 = uint64_max + 1.
Proof. reflexivity. Qed.

Lemma uint256_max_pos : uint64_max < uint256_max.
Proof. reflexivity. Qed.

Lemma decrypt_nonneg f h : wf_fhe f → 0 <= decrypt f h <= uint64_max.
Proof.
  intros (_ & Hc & _). unfold decrypt.
  destruct (cts f !! h) as [v|] eqn:E; simpl.
  - apply Hc in E. apply E.
  - rewrite uint64_max_val. lia.
Qed.

Lemma decrypt_zero f : wf_fhe f → decrypt f 0%N = 0.
Proof.
  intros (_ & Hc & _). unfold decrypt.
  destruct (cts f !! 0%N) as [v|] eqn:E; [|done].
  apply Hc in E. lia.
Qed.

Lemma extends_refl f : extends f f.
Proof. split; [lia|done]. Qed.

Lemma extends_trans f1 f2 f3 : extends f1 f2 → extends f2 f3 → extends f1 f3.
Proof.
  intros [L1 H1] [L2 H2]. split; [lia|].
  intros h Hh. rewrite H2 by lia. by apply H1.
Qed.

Lemma extends_decrypt f f' h :
  extends f f' → (h < next f)%N → decrypt f' h = decrypt f h.
Proof. intros [_ H] Hh. unfold decrypt. by rewrite H. Qed.

Lemma fresh_spec v f :
  wf_fhe f → is_uint64 v →
  wf_fhe (fresh v f).2 ∧ extends f (fresh v f).2 ∧
  (fresh v f).1 = next f ∧ next (fresh v f).2 = N.succ (next f) ∧
  decrypt (fresh v f).2 (next f) = v ∧ acl (fresh v f).2 = acl f.
Proof.
  intros (Hn & Hc & Ha) Hv. unfold fresh, decrypt, extends; simpl.
  split; [|split; [|split; [|split; [|split]]]]; try done.
  - split; [simpl; lia|]. split; simpl.
    + intros h w Hw. destruct (decide (h = next f)) as [->|Hne].
      * rewrite lookup_insert_eq in Hw. injection Hw as <-. split; [lia|done].
      * rewrite lookup_insert_ne in Hw by done. apply Hc in Hw. split; [lia|apply Hw].
    + intros h a Hin. apply Ha in Hin. lia.
  - split; [simpl; lia|]. simpl. intros h Hh. apply lookup_insert_ne. lia.
  - by rewrite lookup_insert_eq.
Qed.

Lemma allow_wf h a f : wf_fhe f → (0 < h < next f)%N → wf_fhe (allow h a f).
Proof.
  intros (Hn & Hc & Ha) Hh. unfold allow. split; [done|]. split; [done|].
  simpl. intros h' a' [Heq%elem_of_singleton|Hin]%elem_of_union.
  - by injection Heq as -> ->.
  - by eapply Ha.
Qed.

Lemma mod_uint64 v : 0 <= v mod 2 ^ 64 <= uint64_max.
Proof.
  rewrite pow64_val. pose proof uint64_max_val.
  pose proof (Z.mod_pos_bound v (uint64_max + 1)). lia.
Qed.

Lemma fhe_add_spec a b f :
  wf_fhe f →
  wf_fhe (fhe_add a b f).2 ∧ extends f (fhe_add a b f).2 ∧
  (fhe_add a b f).1 = next f ∧ next (fhe_add a b f).2 = N.succ (next f) ∧
  decrypt (fhe_add a b f).2 (next f) = (decrypt f a + decrypt f b) mod 2 ^ 64 ∧
  acl (fhe_add a b f).2 = acl f.
Proof. intros Hf. apply fresh_spec; [done|]. apply mod_uint64. Qed.

(** ** The token supply *)

Lemma supply_ext f f' (b : gmap address euint64) :
  (∀ a h, b !! a = Some h → decrypt f' h = decrypt f h) →
  supply f' b = supply f b.
Proof.
  intros H. unfold supply. apply sumZ_ext. intros [a h] Hin; simpl.
  apply elem_of_map_to_list in Hin. eauto.
Qed.

Lemma supply_insert_fresh f (b : gmap address euint64) a h :
  b !! a = None → supply f (<[a := h]> b) = decrypt f h + supply f b.
Proof.
  intros Hn. unfold supply.
  rewrite (sumZ_perm _ _ (fmap_Permutation _ _ _ (map_to_list_insert b a h Hn))).
  done.
Qed.

Lemma supply_delete f (b : gmap address euint64) a h :
  b !! a = Some h → supply f b = decrypt f h + supply f (delete a b).
Proof.
  intros Hs. unfold supply.
  rewrite <- (sumZ_perm _ _ (fmap_Permutation _ _ _ (map_to_list_delete b a h Hs))).
  done.
Qed.

Lemma supply_nonneg f (b : gmap address euint64) : wf_fhe f → 0 <= supply f b.
Proof.
  intros Hf. apply sumZ_nonneg. apply Forall_fmap, Forall_forall.
  intros [a h] _. simpl. apply decrypt_nonneg, Hf.
Qed.

Lemma supply_insert f (b : gmap address euint64) a h :
  wf_fhe f →
  supply f (<[a := h]> b) = supply f b - decrypt f (default 0%N (b !! a)) + decrypt f h.
Proof.
  intros Hf. destruct (b !! a) as [h0|] eqn:E; simpl.
  - rewrite <- insert_delete_eq.
    rewrite supply_insert_fresh by apply lookup_delete_eq.
    rewrite (supply_delete f b a h0 E). lia.
  - rewrite supply_insert_fresh by done. rewrite decrypt_zero by done. lia.
Qed.

Lemma supply_bound2 f (b : gmap address euint64) a1 a2 :
  wf_fhe f → a1 ≠ a2 →
  decrypt f (default 0%N (b !! a1)) + decrypt f (default 0%N (b !! a2)) <= supply f b.
Proof.
  intros Hf Hne.
  assert (∀ (m : gmap address euint64) a,
    decrypt f (default 0%N (m !! a)) <= supply f m) as Hone.
  { intros m a. destruct (m !! a) as [h|] eqn:E; simpl.
    - rewrite (supply_delete f m a h E).
      pose proof (supply_nonneg f (delete a m) Hf). lia.
    - rewrite decrypt_zero by done. by apply supply_nonneg. }
  destruct (b !! a1) as [h1|] eqn:E1; simpl.
  - rewrite (supply_delete f b a1 h1 E1).
    specialize (Hone (delete a1 b) a2).
    rewrite lookup_delete_ne in Hone by done. lia.
  - rewrite decrypt_zero by done. specialize (Hone b a2). lia.
Qed.

(** ** The token transfer *)

Lemma Zmod_uint64_small v : 0 <= v <= uint64_max → v mod 2 ^ 64 = v.
Proof. intros H. rewrite pow64_val. apply Z.mod_small. lia. Qed.

Lemma token_update_spec from to amount f t tr f' t' :
  wf_fhe f → wf_token f t →
  token_update from to amount f t = Ok (tr, f', t') →
  let moved := if decrypt f amount <=? decrypt f (confidentialBalanceOf t from)
               then decrypt f amount else 0 in
  isInitialized (confidentialBalanceOf t from) = true ∧
  wf_fhe f' ∧ extends f f' ∧ acl f' = acl f ∧ wf_token f' t' ∧
  (next f < tr < next f')%N ∧
  decrypt f' tr = moved ∧
  operators t' = operators t ∧
  (∀ a, a ≠ from → a ≠ to → balances t' !! a = balances t !! a) ∧
  (from ≠ to →
     decrypt f' (confidentialBalanceOf t' from) =
       decrypt f (confidentialBalanceOf t from) - moved ∧
     decrypt f' (confidentialBalanceOf t' to) =
       decrypt f (confidentialBalanceOf t to) + moved) ∧
  isInitialized (confidentialBalanceOf t' to) = true.
Proof.
  intros Hf [Hb Hs] Hup moved. unfold token_update in Hup.
  destruct (isInitialized (confidentialBalanceOf t from)) eqn:Hinit;
    simpl in Hup; [|done].
  set (bf := decrypt f (confidentialBalanceOf t from)) in *.
  set (v1 := if decrypt f amount <=? bf then bf - decrypt f amount else bf) in *.
  pose proof (decrypt_nonneg f amount Hf) as Hamt.
  pose proof (decrypt_nonneg f (confidentialBalanceOf t from) Hf) as Hbf.
  fold bf in Hbf.
  assert (0 <= moved <= bf) as Hmoved.
  { subst moved. fold bf. destruct (decrypt f amount <=? bf) eqn:E; lia. }
  assert (v1 = bf - moved) as Hv1.
  { subst v1 moved. fold bf. destruct (decrypt f amount <=? bf); lia. }
  assert (is_uint64 v1) as Hv1r by (unfold is_uint64; lia).
  assert (is_uint64 moved) as Hmr by (unfold is_uint64; lia).
  destruct (fresh_spec v1 f Hf Hv1r) as (Hf1 & He1 & _ & Hn1 & Hd1 & Ha1).
  set (f1 := (fresh v1 f).2) in *.
  destruct (fresh_spec moved f1 Hf1 Hmr) as (Hf2 & He2 & _ & Hn2 & Hd2 & Ha2).
  set (f2 := (fresh moved f1).2) in *.
  set (b1 := <[from := next f]> (balances t)).
  set (bt1 := default 0%N (b1 !! to)).
  destruct (fhe_add_spec bt1 (next f1) f2 Hf2) as (Hf3 & He3 & _ & Hn3 & Hd3 & Ha3).
  set (f3 := (fhe_add bt1 (next f1) f2).2) in *.
  assert (tr = next f1 ∧ f' = f3 ∧
          t' = mkToken (<[to := next f2]> b1) (operators t)) as (-> & -> & ->).
  { unfold fresh, fhe_add, fresh in Hup. simpl in Hup.
    injection Hup as <- <- <-. done. }
  clear Hup.
  assert (extends f f3) as He by eauto using extends_trans.
  assert (extends f1 f3) as He13 by eauto using extends_trans.
  assert (decrypt f3 (next f1) = moved) as Hdm.
  { rewrite (extends_decrypt f2 f3) by (done || lia). done. }
  assert (decrypt f3 (next f) = v1) as Hdp.
  { rewrite (extends_decrypt f1 f3) by (done || lia). done. }
  (* the receiver's balance before the credit *)
  assert (decrypt f2 bt1 =
          if decide (from = to) then v1
          else decrypt f (confidentialBalanceOf t to)) as Hbt1.
  { subst bt1 b1. destruct (decide (from = to)) as [->|Hne].
    - rewrite lookup_insert_eq. simpl.
      rewrite (extends_decrypt f1 f2) by (done || lia). done.
    - rewrite lookup_insert_ne by done. fold (confidentialBalanceOf t to).
      assert (confidentialBalanceOf t to < next f)%N as Hlt.
      { unfold confidentialBalanceOf. destruct (balances t !! to) eqn:E; simpl.
        - by eapply Hb. - apply Hf. }
      rewrite (extends_decrypt f f2); [done| |done].
      eauto using extends_trans. }
  assert (decrypt f2 bt1 + moved <= uint64_max ∧ 0 <= decrypt f2 bt1) as Hnowrap.
  { rewrite Hbt1. destruct (decide (from = to)) as [->|Hne]; [lia|].
    pose proof (supply_bound2 f (balances t) from to Hf Hne) as Hb2.
    fold (confidentialBalanceOf t from) (confidentialBalanceOf t to) in Hb2.
    fold bf in Hb2.
    pose proof (decrypt_nonneg f (confidentialBalanceOf t to) Hf). lia. }
  assert (decrypt f3 (next f2) = decrypt f2 bt1 + moved) as Hcredit.
  { rewrite Hd3, Hd2. apply Zmod_uint64_small. lia. }
  split; [done|]. split; [done|]. split; [done|].
  split; [by rewrite Ha3, Ha2, Ha1|].
  split.
  { split; cbn [balances].
    - intros a h Hl. destruct (decide (a = to)) as [->|Hne].
      + rewrite lookup_insert_eq in Hl. injection Hl as <-. lia.
      + rewrite lookup_insert_ne in Hl by done. subst b1.
        destruct (decide (a = from)) as [->|Hne'].
        * rewrite lookup_insert_eq in Hl. injection Hl as <-. lia.
        * rewrite lookup_insert_ne in Hl by done. apply Hb in Hl. lia.
    - rewrite supply_insert by done. fold bt1.
      subst b1. rewrite supply_insert by done.
      fold (confidentialBalanceOf t from).
      rewrite (supply_ext f f3 (balances t)).
      2:{ intros a h Hl. apply extends_decrypt; [done|]. by eapply Hb. }
      rewrite (extends_decrypt f f3 (confidentialBalanceOf t from)); [|done|].
      2:{ unfold confidentialBalanceOf. destruct (balances t !! from) eqn:E; simpl.
          - by eapply Hb. - apply Hf. }
      fold bf. rewrite Hdp, Hcredit.
      assert (decrypt f3 bt1 = decrypt f2 bt1) as ->.
      { apply extends_decrypt; [done|]. subst bt1.
        destruct (decide (from = to)) as [->|Hne].
        - rewrite lookup_insert_eq. simpl. lia.
        - rewrite lookup_insert_ne by done.
          destruct (balances t !! to) eqn:E; simpl.
          + apply Hb in E. lia. + lia. }
      lia. }
  split; [lia|]. split; [done|]. split; [done|].
  split.
  { intros a Hna Hnb. cbn [balances]. subst b1. by rewrite !lookup_insert_ne. }
  split.
  { intros Hne. unfold confidentialBalanceOf in Hbt1 |- *. cbn [balances]. subst b1.
    rewrite lookup_insert_ne by done. rewrite !lookup_insert_eq.
    cbn [default from_option id].
    rewrite Hdp, Hcredit, Hbt1. rewrite decide_False by done. lia. }
  unfold confidentialBalanceOf. cbn [balances]. rewrite lookup_insert_eq.
  cbn [default from_option id].
  unfold isInitialized. apply negb_true_iff, N.eqb_neq. lia.
Qed.

(** ** The ledger invariant *)

Section Ledger.

Variables this paymentToken : address.

Abbreviation inv := (inv this).
Abbreviation reachable := (reachable this paymentToken).
Abbreviation wf_call := (wf_call this).

Lemma total_lt s id :
  inv s → (totalRaised (campaign s id) < next (fhe s))%N.
Proof.
  intros I. unfold campaign. destruct (campaigns s !! id) as [c|] eqn:E; simpl.
  - apply (inv_campaigns _ _ I) in E. lia.
  - apply (inv_fhe _ _ I).
Qed.

Lemma contribution_lt s id a :
  inv s → (contribution s id a < next (fhe s))%N.
Proof.
  intros I. unfold contribution.
  destruct (contributions s !! (id, a)) as [h|] eqn:E; simpl.
  - apply (inv_contributions _ _ I) in E. lia.
  - apply (inv_fhe _ _ I).
Qed.

Lemma balance_lt f t a :
  wf_fhe f → wf_token f t → (confidentialBalanceOf t a < next f)%N.
Proof.
  intros Hf [Hb _]. unfold confidentialBalanceOf.
  destruct (balances t !! a) as [h|] eqn:E; simpl; [by eapply Hb|apply Hf].
Qed.

Lemma campaign_absent s id :
  inv s → campaignId s < id → campaigns s !! id = None.
Proof.
  intros I Hlt. destruct (campaigns s !! id) as [c|] eqn:E; [|done].
  apply (inv_campaigns _ _ I) in E. lia.
Qed.

Lemma current_initialized s :
  inv s → campaignId s ≠ 0 →
  isInitialized (totalRaised (campaign s (campaignId s))) = true.
Proof.
  intros I Hne. pose proof (inv_id _ _ I).
  destruct (inv_current _ _ I) as [c Hc]; [lia|].
  unfold campaign. rewrite Hc. simpl.
  apply (inv_campaigns _ _ I) in Hc.
  unfold isInitialized. apply negb_true_iff, N.eqb_neq. lia.
Qed.

Lemma wf_token_extends f f' t :
  wf_fhe f → wf_token f t → extends f f' → wf_token f' t.
Proof.
  intros Hf [Hb Hs] He. split.
  - intros a h Hl. apply Hb in Hl. destruct He. lia.
  - rewrite (supply_ext f f'); [done|].
    intros a h Hl. apply extends_decrypt; [done|]. by eapply Hb.
Qed.

Lemma received_extends f f' id c (evs : list Event) :
  extends f f' →
  (∀ id' a h, ContributionReceived id' a h ∈ evs → (h < next f)%N) →
  sumZ (received f' id c <$> evs) = sumZ (received f id c <$> evs).
Proof.
  intros He Hev. apply sumZ_ext. intros [| id' a h |] Hin; simpl; try done.
  destruct (_ && _); [|done]. apply extends_decrypt; [done|]. by eapply Hev.
Qed.

Lemma received_none f id c (evs : list Event) :
  (∀ id' a h, ContributionReceived id' a h ∈ evs → id' ≠ id) →
  sumZ (received f id c <$> evs) = 0.
Proof.
  induction evs as [|e evs IH]; intros H; [done|].
  rewrite fmap_cons, sumZ_cons, IH.
  - destruct e as [| id' a h |]; simpl; try done.
    rewrite bool_decide_eq_false_2; [done|].
    eapply H. apply list_elem_of_here.
  - intros id' a h Hin. eapply H. apply list_elem_of_further, Hin.
Qed.

Lemma received_snoc f id c (evs : list Event) e :
  sumZ (received f id c <$> (evs ++ [e])) =
  sumZ (received f id c <$> evs) + received f id c e.
Proof.
  rewrite fmap_app, sumZ_app.
  change (sumZ (received f id c <$> [e])) with (received f id c e + 0). lia.
Qed.

Lemma sum_contributor_le s id c :
  wf_fhe (fhe s) → 0 <= sum_contributor s id c <= sum_campaign s id.
Proof.
  intros Hf. split.
  - apply sumZ_nonneg, Forall_fmap, Forall_forall.
    intros [| id' a h |] _; simpl; try done.
    destruct (_ && _); [apply decrypt_nonneg, Hf|done].
  - apply sumZ_le. intros [| id' a h |] _; simpl; try done.
    pose proof (decrypt_nonneg (fhe s) h Hf).
    destruct (bool_decide (id' = id)), (bool_decide (a = c)); simpl; lia.
Qed.

Lemma inv_deploy deployer f t :
  wf_fhe f → wf_token f t → acl f = ∅ → balances t !! this = None →
  deployer ≠ this → inv (deploy deployer f t).
Proof.
  intros Hf Ht Ha Hb Hd.
  constructor; simpl.
  - done.
  - done.
  - done.
  - pose proof uint256_max_pos. pose proof uint64_max_val. lia.
  - intros id c. by rewrite lookup_empty.
  - lia.
  - intros id c. by rewrite lookup_empty.
  - intros id a h. by rewrite lookup_empty.
  - intros id a h Hin. by apply elem_of_nil in Hin.
  - unfold confidentialBalanceOf. rewrite Hb. simpl. by apply decrypt_zero.
  - intros id a. unfold contribution; simpl. rewrite lookup_empty. simpl.
    by apply decrypt_zero.
  - intros id. unfold campaign; simpl. rewrite lookup_empty. simpl.
    by apply decrypt_zero.
  - intros id c a. unfold isAllowed. rewrite Ha. set_solver.
  - intros id a. unfold isAllowed. rewrite Ha. set_solver.
  - intros id c. unfold contribution; simpl. by rewrite lookup_empty.
Qed.

(** What [configureCampaign] computes on a state of the invariant. *)
Lemma configure_spec m n t e s :
  inv s →
  configureCampaign m n t e s =
  if negb (sender m =? owner s)%N then Revert OwnableUnauthorizedAccount
  else if e <=? timestamp m then Revert InvalidEndTimestamp
  else if (campaignId s =? 0) || finalized (campaign s (campaignId s)) then
    if campaignId s + 1 <=? uint256_max then
      Ok (tt, mkState (owner s) (campaignId s + 1)
                (<[campaignId s + 1 := mkCampaign n t e false (next (fhe s))]>
                   (campaigns s))
                (contributions s)
                (events s ++ [CampaignConfigured (campaignId s + 1) n t e])
                (fresh 0 (fhe s)).2 (token s))
    else Revert PanicOverflow
  else
    Ok (tt, mkState (owner s) (campaignId s)
              (<[campaignId s :=
                   mkCampaign n t e false (totalRaised (campaign s (campaignId s)))]>
                 (campaigns s))
              (contributions s)
              (events s ++ [CampaignConfigured (campaignId s) n t e])
              (fhe s) (token s)).
Proof.
  intros I. unfold configureCampaign, onlyOwner, require.
  destruct (sender m =? owner s)%N; simpl; [|done].
  destruct (e <=? timestamp m); simpl; [done|].
  destruct ((campaignId s =? 0) || finalized (campaign s (campaignId s))) eqn:Hnew.
  - destruct (campaignId s + 1 <=? uint256_max); simpl; [|done].
    unfold set_campaign, set_fhe, set_campaignId, emit, campaign; simpl.
    rewrite lookup_insert_eq. simpl.
    assert (isInitialized (next (fhe s)) = true) as ->.
    { unfold isInitialized. apply negb_true_iff, N.eqb_neq.
      pose proof (inv_fhe _ _ I) as (? & _). lia. }
    simpl. rewrite lookup_insert_eq. simpl. by rewrite insert_insert_eq.
  - simpl. apply orb_false_iff in Hnew as [Hid Hfin].
    rewrite current_initialized by (done || lia). simpl.
    unfold set_campaign, emit; simpl. done.
Qed.

Ltac proj_state :=
  cbn [owner campaignId campaigns contributions events fhe token].

Lemma inv_configure m n t e s s' :
  inv s → configureCampaign m n t e s = Ok (tt, s') → inv s'.
Proof.
  intros I. rewrite configure_spec by done.
  destruct (negb (sender m =? owner s)%N); [done|].
  destruct (e <=? timestamp m); [done|].
  pose proof (inv_fhe _ _ I) as Hf.
  pose proof (inv_id _ _ I) as Hid.
  destruct ((campaignId s =? 0) || finalized (campaign s (campaignId s))) eqn:Hnew.
  - destruct (campaignId s + 1 <=? uint256_max) eqn:Hov; [|done].
    apply Z.leb_le in Hov.
    assert (is_uint64 0) as H0 by (unfold is_uint64; rewrite uint64_max_val; lia).
    destruct (fresh_spec 0 (fhe s) Hf H0) as (Hf' & He & _ & Hn & Hd & Ha).
    set (f' := (fresh 0 (fhe s)).2) in *. clearbody f'.
    intros [= <-].
    constructor; proj_state.
    + done.
    + apply (wf_token_extends (fhe s)); [done|apply (inv_token _ _ I)|done].
    + apply (inv_owner _ _ I).
    + lia.
    + intros id c Hl. destruct (decide (id = campaignId s + 1)) as [->|Hne].
      * rewrite lookup_insert_eq in Hl. injection Hl as <-. simpl.
        destruct Hf as [? _]. lia.
      * rewrite lookup_insert_ne in Hl by done.
        apply (inv_campaigns _ _ I) in Hl. lia.
    + intros _. rewrite lookup_insert_eq. by eexists.
    + intros id c Hl Hlt. rewrite lookup_insert_ne in Hl by lia.
      destruct (decide (id = campaignId s)) as [->|Hne].
      * apply orb_true_iff in Hnew as [Hz|Hfin].
        -- apply (inv_campaigns _ _ I) in Hl. lia.
        -- unfold campaign in Hfin. by rewrite Hl in Hfin.
      * eapply (inv_past _ _ I); [done|lia].
    + intros id a h Hl. apply (inv_contributions _ _ I) in Hl. lia.
    + intros id a h [Hin|Hin]%elem_of_app.
      * apply (inv_events _ _ I) in Hin. lia.
      * apply list_elem_of_singleton in Hin. done.
    + assert ((campaignId s + 1 =? 0) = false) as -> by lia.
      unfold campaign; proj_state. rewrite lookup_insert_eq. simpl. rewrite Hd.
      rewrite (extends_decrypt (fhe s)); [|done|].
      2:{ apply balance_lt; [done|apply (inv_token _ _ I)]. }
      rewrite (inv_vault _ _ I), Hnew. done.
    + intros id a. change (contribution _ id a) with (contribution s id a).
      unfold sum_contributor; proj_state.
      rewrite received_snoc. simpl.
      rewrite (received_extends (fhe s)); [|done|].
      2:{ intros ???. apply (inv_events _ _ I). }
      rewrite (extends_decrypt (fhe s)); [|done|by apply contribution_lt].
      rewrite (inv_sum_contributor _ _ I). unfold sum_contributor. lia.
    + intros id. unfold sum_campaign; proj_state. rewrite received_snoc. simpl.
      rewrite (received_extends (fhe s)); [|done|].
      2:{ intros ???. apply (inv_events _ _ I). }
      unfold campaign; proj_state.
      destruct (decide (id = campaignId s + 1)) as [->|Hne].
      * rewrite lookup_insert_eq. simpl. rewrite Hd.
        rewrite received_none; [done|].
        intros id' a h Hin. apply (inv_events _ _ I) in Hin. lia.
      * rewrite lookup_insert_ne by done. fold (campaign s id).
        rewrite (extends_decrypt (fhe s)); [|done|by apply total_lt].
        rewrite (inv_sum_campaign _ _ I). unfold sum_campaign. lia.
    + intros id c a. unfold isAllowed, contribution; proj_state. rewrite Ha.
      apply (inv_acl_contribution _ _ I).
    + intros id a. unfold isAllowed, campaign; proj_state. rewrite Ha.
      destruct (decide (id = campaignId s + 1)) as [->|Hne].
      * rewrite lookup_insert_eq. simpl. intros Hin.
        destruct Hf as (_ & _ & Hacl). apply Hacl in Hin. lia.
      * rewrite lookup_insert_ne by done. apply (inv_acl_total _ _ I).
    + intros id c. unfold isAllowed, contribution; proj_state. rewrite Ha.
      apply (inv_acl_own _ _ I).
  - intros [= <-]. apply orb_false_iff in Hnew as [Hz Hfin].
    assert (1 <= campaignId s) as Hcur by lia.
    destruct (inv_current _ _ I Hcur) as [cur Hc].
    assert (campaign s (campaignId s) = cur) as Ecur.
    { unfold campaign. by rewrite Hc. }
    rewrite Ecur in *.
    constructor; proj_state.
    + done.
    + apply (inv_token _ _ I).
    + apply (inv_owner _ _ I).
    + done.
    + intros id c Hl. destruct (decide (id = campaignId s)) as [->|Hne].
      * rewrite lookup_insert_eq in Hl. injection Hl as <-. simpl.
        apply (inv_campaigns _ _ I) in Hc. lia.
      * rewrite lookup_insert_ne in Hl by done. by apply (inv_campaigns _ _ I).
    + intros _. rewrite lookup_insert_eq. by eexists.
    + intros id c Hl Hlt. rewrite lookup_insert_ne in Hl by lia.
      by eapply (inv_past _ _ I).
    + apply (inv_contributions _ _ I).
    + intros id a h [Hin|Hin]%elem_of_app.
      * by eapply (inv_events _ _ I).
      * apply list_elem_of_singleton in Hin. done.
    + rewrite (inv_vault _ _ I), Ecur, Hz, Hfin.
      unfold campaign; proj_state. by rewrite lookup_insert_eq.
    + intros id a. change (contribution _ id a) with (contribution s id a).
      unfold sum_contributor; proj_state.
      rewrite received_snoc. simpl.
      rewrite (inv_sum_contributor _ _ I).
      unfold sum_contributor. lia.
    + intros id. unfold sum_campaign; proj_state. rewrite received_snoc. simpl.
      assert (totalRaised (campaign
                (mkState (owner s) (campaignId s)
                   (<[campaignId s := mkCampaign n t e false (totalRaised cur)]>
                      (campaigns s))
                   (contributions s)
                   (events s ++ [CampaignConfigured (campaignId s) n t e])
                   (fhe s) (token s)) id) = totalRaised (campaign s id)) as ->.
      { unfold campaign; proj_state. destruct (decide (id = campaignId s)) as [->|Hne].
        - rewrite lookup_insert_eq, Hc. done.
        - by rewrite lookup_insert_ne. }
      rewrite (inv_sum_campaign _ _ I). unfold sum_campaign. lia.
    + apply (inv_acl_contribution _ _ I).
    + intros id a. unfold campaign; proj_state.
      destruct (decide (id = campaignId s)) as [->|Hne].
      * rewrite lookup_insert_eq. simpl. intros Hin.
        apply (inv_acl_total _ _ I (campaignId s)). by rewrite Ecur.
      * rewrite lookup_insert_ne by done. apply (inv_acl_total _ _ I).
    + apply (inv_acl_own _ _ I).
Qed.

Lemma allow_spec h a f :
  wf_fhe f → (0 < h < next f)%N →
  wf_fhe (allow h a f) ∧ extends f (allow h a f) ∧
  next (allow h a f) = next f ∧
  (∀ x, decrypt (allow h a f) x = decrypt f x) ∧
  (∀ h' a', (h', a') ∈ acl (allow h a f) ↔ (h' = h ∧ a' = a) ∨ (h', a') ∈ acl f).
Proof.
  intros Hf Hh. split; [by apply allow_wf|].
  split; [split; [unfold allow; simpl; lia|done]|].
  split; [done|]. split; [done|].
  intros h' a'. unfold allow; simpl. rewrite elem_of_union, elem_of_singleton.
  split; (intros [H|H]; [left|by right]).
  - by injection H as -> ->.
  - destruct H as [-> ->]. done.
Qed.

Opaque fresh fhe_add allow token_update decrypt.

Lemma contribute_spec m i s ret s' :
  inv s → wf_call m (Contribute i) →
  contribute this paymentToken m i s = Ok (ret, s') →
  ∃ tr total,
    campaignId s ≠ 0 ∧
    finalized (campaign s (campaignId s)) = false ∧
    timestamp m < endTimestamp (campaign s (campaignId s)) ∧
    proofValid i = true ∧
    isOperator (token s) (sender m) this (timestamp m) = true ∧
    isInitialized (confidentialBalanceOf (token s) (sender m)) = true ∧
    owner s' = owner s ∧ campaignId s' = campaignId s ∧
    campaigns s' =
      <[campaignId s := with_totalRaised total (campaign s (campaignId s))]>
        (campaigns s) ∧
    contributions s' = <[(campaignId s, sender m) := ret]> (contributions s) ∧
    events s' =
      events s ++ [ContributionReceived (campaignId s) (sender m) tr] ∧
    wf_fhe (fhe s') ∧ extends (fhe s) (fhe s') ∧ wf_token (fhe s') (token s') ∧
    (next (fhe s) < tr < ret)%N ∧ (ret < total < next (fhe s'))%N ∧
    decrypt (fhe s') tr =
      (if plaintext i <=?
            decrypt (fhe s) (confidentialBalanceOf (token s) (sender m))
       then plaintext i else 0) ∧
    decrypt (fhe s') ret =
      decrypt (fhe s) (contribution s (campaignId s) (sender m)) +
      decrypt (fhe s') tr ∧
    decrypt (fhe s') total =
      decrypt (fhe s) (totalRaised (campaign s (campaignId s))) +
      decrypt (fhe s') tr ∧
    decrypt (fhe s') (confidentialBalanceOf (token s') this) =
      decrypt (fhe s) (confidentialBalanceOf (token s) this) +
      decrypt (fhe s') tr ∧
    decrypt (fhe s') (confidentialBalanceOf (token s') (sender m)) =
      decrypt (fhe s) (confidentialBalanceOf (token s) (sender m)) -
      decrypt (fhe s') tr ∧
    (∀ a, a ≠ sender m → a ≠ this →
       balances (token s') !! a = balances (token s) !! a) ∧
    (∀ h a, (h, a) ∈ acl (fhe s') ↔
       (h, a) ∈ acl (fhe s) ∨
       (h = next (fhe s) ∧ (a = this ∨ a = paymentToken)) ∨
       (h = ret ∧ (a = this ∨ a = sender m)) ∨
       (h = total ∧ (a = this ∨ a = owner s))).
Proof.
  intros I (Hsender & Hts & Hamt). simpl in Hamt.
  pose proof (inv_fhe _ _ I) as Hf.
  pose proof (inv_token _ _ I) as Ht.
  unfold contribute, require.
  destruct (campaignId s =? 0) eqn:Hid; simpl; [done|].
  destruct (finalized (campaign s (campaignId s))) eqn:Hfin; simpl; [done|].
  destruct (timestamp m >=? endTimestamp (campaign s (campaignId s))) eqn:Hend;
    simpl; [done|].
  unfold fromExternal. destruct (proofValid i) eqn:Hproof; simpl; [|done].
  destruct (fresh_spec (plaintext i) (fhe s) Hf Hamt) as (Hf0 & He0 & E0 & Hn0 & Hd0 & Ha0).
  destruct (fresh (plaintext i) (fhe s)) as [ca f0]. simpl in *. subst ca.
  unfold confidentialTransferFrom.
  destruct (isOperator (token s) (sender m) this (timestamp m)) eqn:Hop;
    simpl; [|done].
  assert (0 < next (fhe s))%N as Hpos by apply Hf.
  destruct (allow_spec (next (fhe s)) this f0 Hf0 ltac:(lia))
    as (Hfa & Hea & Hna & Hda & Haa).
  set (fa := allow (next (fhe s)) this f0) in *.
  destruct (allow_spec (next (fhe s)) paymentToken fa Hfa ltac:(lia))
    as (Hf1 & He1 & Hn1 & Hd1 & Ha1).
  set (f1 := allow (next (fhe s)) paymentToken fa) in *.
  assert (extends (fhe s) f1) as He01 by eauto using extends_trans.
  assert (wf_token f1 (token s)) as Ht1
    by (by apply (wf_token_extends (fhe s))).
  destruct (token_update (sender m) this (next (fhe s)) f1 (token s))
    as [[[tr f2] t']|] eqn:Hup; simpl; [|done].
  destruct (token_update_spec _ _ _ _ _ _ _ _ Hf1 Ht1 Hup)
    as (Hinit & Hf2 & He2 & Ha2 & Ht2 & Htr & Hdtr & Hops & Hother & Hbal & _).
  destruct (Hbal Hsender) as [Hbs Hbt]. clear Hbal Hup.
  assert (∀ x, (x < next (fhe s))%N → decrypt f0 x = decrypt (fhe s) x) as Hold.
  { intros x Hx. by apply extends_decrypt. }
  assert (∀ x, decrypt f1 x = decrypt f0 x) as Hd10.
  { intros x. by rewrite Hd1, Hda. }
  repeat rewrite Hd10 in Hdtr.
  repeat rewrite Hd10 in Hbs.
  repeat rewrite Hd10 in Hbt.
  rewrite Hd0 in Hdtr, Hbs, Hbt.
  rewrite (Hold (confidentialBalanceOf (token s) (sender m))) in Hdtr, Hbs, Hbt
    by (by apply balance_lt).
  rewrite (Hold (confidentialBalanceOf (token s) this)) in Hbt
    by (by apply balance_lt).
  set (bs := decrypt (fhe s) (confidentialBalanceOf (token s) (sender m))) in *.
  set (moved := if plaintext i <=? bs then plaintext i else 0) in *.
  assert (0 <= moved <= bs) as Hmoved.
  { pose proof (decrypt_nonneg (fhe s)
      (confidentialBalanceOf (token s) (sender m)) Hf) as Hb. fold bs in Hb.
    unfold is_uint64 in Hamt. subst moved.
    destruct (plaintext i <=? bs) eqn:E; lia. }
  (* the vault holds what the current campaign raised, and the supply fits *)
  pose proof (inv_vault _ _ I) as Hvault. rewrite Hid, Hfin in Hvault.
  simpl in Hvault.
  pose proof (supply_bound2 (fhe s) (balances (token s)) (sender m) this Hf Hsender)
    as Hsup.
  fold (confidentialBalanceOf (token s) (sender m)) in Hsup.
  fold (confidentialBalanceOf (token s) this) in Hsup. fold bs in Hsup.
  destruct Ht as [Htb Hts'].
  pose proof (sum_contributor_le s (campaignId s) (sender m) Hf) as Hle.
  rewrite <- (inv_sum_contributor _ _ I), <- (inv_sum_campaign _ _ I) in Hle.
  assert (extends (fhe s) f2) as He02 by eauto using extends_trans.
  destruct (fhe_add_spec (contribution s (campaignId s) (sender m)) tr f2 Hf2)
    as (Hf3 & He3 & E3 & Hn3 & Hd3 & Ha3).
  destruct (fhe_add (contribution s (campaignId s) (sender m)) tr f2)
    as [mine f3]. simpl in *. subst mine.
  destruct (fhe_add_spec (totalRaised (campaign s (campaignId s))) tr f3 Hf3)
    as (Hf4 & He4 & E4 & Hn4 & Hd4 & Ha4).
  destruct (fhe_add (totalRaised (campaign s (campaignId s))) tr f3)
    as [total f4]. simpl in *. subst total.
  destruct (allow_spec (next f2) this f4 Hf4 ltac:(lia))
    as (Hf5 & He5 & Hn5 & Hd5 & Ha5).
  set (f5 := allow (next f2) this f4) in *.
  destruct (allow_spec (next f2) (sender m) f5 Hf5 ltac:(lia))
    as (Hf6 & He6 & Hn6 & Hd6 & Ha6).
  set (f6 := allow (next f2) (sender m) f5) in *.
  destruct (allow_spec (next f3) this f6 Hf6 ltac:(lia))
    as (Hf7 & He7 & Hn7 & Hd7 & Ha7).
  set (f7 := allow (next f3) this f6) in *.
  destruct (allow_spec (next f3) (owner s) f7 Hf7 ltac:(lia))
    as (Hf8 & He8 & Hn8 & Hd8 & Ha8).
  set (f8 := allow (next f3) (owner s) f7) in *.
  intros [= <- <-]. exists tr, (next f3).
  unfold set_campaign, set_contribution, set_token, set_fhe, emit. proj_state.
  assert (∀ x, decrypt f8 x = decrypt f4 x) as Hd84.
  { intros x. by rewrite Hd8, Hd7, Hd6, Hd5. }
  assert (decrypt f4 tr = moved) as Hm4.
  { rewrite (extends_decrypt f3 f4), (extends_decrypt f2 f3) by (done || lia).
    done. }
  assert (decrypt f4 (next f2) =
          decrypt (fhe s) (contribution s (campaignId s) (sender m)) + moved) as Hmine.
  { rewrite (extends_decrypt f3 f4) by (done || lia). rewrite Hd3, Hdtr.
    rewrite (extends_decrypt (fhe s) f2) by (done || by apply contribution_lt).
    apply Zmod_uint64_small. lia. }
  assert (decrypt f4 (next f3) =
          decrypt (fhe s) (totalRaised (campaign s (campaignId s))) + moved) as Htot.
  { rewrite Hd4. rewrite (extends_decrypt f2 f3 tr) by (done || lia).
    rewrite Hdtr.
    rewrite (extends_decrypt (fhe s) f3);
      [|eauto using extends_trans|by apply total_lt].
    apply Zmod_uint64_small.
    pose proof (decrypt_nonneg (fhe s)
                  (totalRaised (campaign s (campaignId s))) Hf). lia. }
  assert (extends f2 f8) as He28.
  { repeat (eapply extends_trans; [eassumption|]). apply extends_refl. }
  assert (∀ x, (x < next f2)%N → decrypt f4 x = decrypt f2 x) as Hold2.
  { intros x Hx. rewrite (extends_decrypt f3 f4), (extends_decrypt f2 f3)
      by (done || lia). done. }
  split; [lia|]. split; [done|]. split; [lia|]. split; [done|]. split; [done|].
  split; [done|]. split; [done|]. split; [done|]. split; [done|].
  split; [done|]. split; [done|]. split; [done|].
  split; [eauto using extends_trans|].
  split; [by apply (wf_token_extends f2)|].
  split; [lia|]. split; [lia|].
  rewrite !Hd84, Hm4, Hmine, Htot.
  split; [done|]. split; [done|]. split; [done|].
  split.
  { rewrite Hold2 by (by apply balance_lt). lia. }
  split.
  { rewrite Hold2 by (by apply balance_lt). lia. }
  split.
  { intros a H1 H2. by apply Hother. }
  intros h a. rewrite Ha8, Ha7, Ha6, Ha5, Ha4, Ha3, Ha2, Ha1, Haa, Ha0.
  tauto.
Qed.

Transparent fresh fhe_add allow token_update decrypt.

Lemma inv_contribute m i s ret s' :
  inv s → wf_call m (Contribute i) →
  contribute this paymentToken m i s = Ok (ret, s') → inv s'.
Proof.
  intros I Hwf Hc.
  destruct (contribute_spec _ _ _ _ _ I Hwf Hc)
    as (tr & total & Hid & Hfin & Hend & Hproof & Hop & Hinit & Eo & Eid & Ecs &
        Ect & Eev & Hf' & He & Ht' & Htr & Htot & Hdtr & Hdret & Hdtot & Hdv &
        Hds & Hother & Hacl).
  pose proof (inv_fhe _ _ I) as Hf.
  pose proof (inv_id _ _ I) as Hidr.
  assert (next (fhe s) <= next (fhe s'))%N as Hnext by apply He.
  assert (∀ id a, contribution s' id a =
            if decide ((campaignId s, sender m) = (id, a)) then ret
            else contribution s id a) as Econtr.
  { intros id a. unfold contribution. rewrite Ect.
    destruct (decide ((campaignId s, sender m) = (id, a))) as [<-|Hne].
    - by rewrite lookup_insert_eq.
    - by rewrite lookup_insert_ne. }
  assert (∀ id, totalRaised (campaign s' id) =
            if decide (campaignId s = id) then total
            else totalRaised (campaign s id)) as Etot.
  { intros id. unfold campaign. rewrite Ecs.
    destruct (decide (campaignId s = id)) as [<-|Hne].
    - by rewrite lookup_insert_eq.
    - by rewrite lookup_insert_ne. }
  assert (∀ id c, sumZ (received (fhe s') id c <$> events s') =
            sumZ (received (fhe s) id c <$> events s) +
            received (fhe s') id c
              (ContributionReceived (campaignId s) (sender m) tr)) as Esum.
  { intros id c. rewrite Eev, received_snoc.
    rewrite (received_extends (fhe s)); [done|done|].
    intros ???. apply (inv_events _ _ I). }
  constructor.
  - done.
  - done.
  - rewrite Eo. apply (inv_owner _ _ I).
  - by rewrite Eid.
  - intros id c. rewrite Ecs, Eid.
    destruct (decide (campaignId s = id)) as [<-|Hne].
    + rewrite lookup_insert_eq. intros [= <-]. simpl. lia.
    + rewrite lookup_insert_ne by done. intros Hl.
      apply (inv_campaigns _ _ I) in Hl. lia.
  - intros _. rewrite Ecs, Eid, lookup_insert_eq. by eexists.
  - intros id c. rewrite Ecs, Eid. intros Hl Hlt.
    rewrite lookup_insert_ne in Hl by lia. by eapply (inv_past _ _ I).
  - intros id a h. rewrite Ect, Eid.
    destruct (decide ((campaignId s, sender m) = (id, a))) as [[= <- <-]|Hne].
    + rewrite lookup_insert_eq. intros [= <-]. lia.
    + rewrite lookup_insert_ne by done. intros Hl.
      apply (inv_contributions _ _ I) in Hl. lia.
  - intros id a h. rewrite Eev, Eid. intros [Hin|Hin]%elem_of_app.
    + apply (inv_events _ _ I) in Hin. lia.
    + apply list_elem_of_singleton in Hin. injection Hin as -> -> ->. lia.
  - rewrite Eid. assert ((campaignId s =? 0) = false) as -> by lia.
    rewrite Etot, decide_True by done.
    assert (finalized (campaign s' (campaignId s)) = false) as ->.
    { unfold campaign. by rewrite Ecs, lookup_insert_eq. }
    simpl. rewrite Hdv, Hdtot. rewrite (inv_vault _ _ I).
    assert ((campaignId s =? 0) = false) as -> by lia. by rewrite Hfin.
  - intros id a. unfold sum_contributor. rewrite Esum, Econtr. simpl.
    destruct (decide ((campaignId s, sender m) = (id, a))) as [[= <- <-]|Hne].
    + rewrite !bool_decide_eq_true_2 by done. simpl.
      rewrite Hdret, (inv_sum_contributor _ _ I). done.
    + rewrite (extends_decrypt (fhe s)) by (done || by apply contribution_lt).
      rewrite (inv_sum_contributor _ _ I). unfold sum_contributor.
      destruct (bool_decide (campaignId s = id)) eqn:E1;
        destruct (bool_decide (sender m = a)) eqn:E2; simpl; try lia.
      apply bool_decide_eq_true in E1, E2. congruence.
  - intros id. unfold sum_campaign. rewrite Esum, Etot. simpl.
    destruct (decide (campaignId s = id)) as [<-|Hne].
    + rewrite bool_decide_eq_true_2 by done. simpl.
      rewrite Hdtot, (inv_sum_campaign _ _ I). done.
    + rewrite bool_decide_eq_false_2 by done. simpl.
      rewrite (extends_decrypt (fhe s)) by (done || by apply total_lt).
      rewrite (inv_sum_campaign _ _ I). unfold sum_campaign. lia.
  - intros id c a. unfold isAllowed. rewrite Hacl, Econtr.
    pose proof (contribution_lt s id c I) as Hlt.
    destruct (decide ((campaignId s, sender m) = (id, c))) as [[= <- <-]|Hne].
    + intros [Hin|[[? ?]|[[? ?]|[? ?]]]]; try lia.
      apply Hf in Hin. lia.
    + intros [Hin|[[? ?]|[[? ?]|[? ?]]]]; try lia.
      by apply (inv_acl_contribution _ _ I) in Hin.
  - intros id a. unfold isAllowed. rewrite Hacl, Etot, Eo.
    pose proof (total_lt s id I) as Hlt.
    destruct (decide (campaignId s = id)) as [<-|Hne].
    + intros [Hin|[[? ?]|[[? ?]|[? ?]]]]; try lia.
      apply Hf in Hin. lia.
    + intros [Hin|[[? ?]|[[? ?]|[? ?]]]]; try lia.
      by apply (inv_acl_total _ _ I) in Hin.
  - intros id c. unfold isAllowed. rewrite Hacl, Econtr.
    destruct (decide ((campaignId s, sender m) = (id, c))) as [[= <- <-]|Hne].
    + intros _. right. right. left. auto.
    + intros Hi. left. by apply (inv_acl_own _ _ I).
Qed.

Opaque fresh fhe_add allow token_update decrypt.

(** What a successful [closeCampaign] does, in any well-formed world. *)
Lemma close_world_spec m s payout s' :
  wf_world this s →
  closeCampaign this m s = Ok (payout, s') →
  sender m = owner s ∧ campaignId s ≠ 0 ∧
  finalized (campaign s (campaignId s)) = false ∧
  owner s' = owner s ∧ campaignId s' = campaignId s ∧
  campaigns s' =
    <[campaignId s := with_finalized true (campaign s (campaignId s))]>
      (campaigns s) ∧
  contributions s' = contributions s ∧
  events s' =
    events s ++
    [CampaignClosed (campaignId s) (owner s) payout (timestamp m mod 2 ^ 64)] ∧
  wf_fhe (fhe s') ∧ extends (fhe s) (fhe s') ∧ wf_token (fhe s') (token s') ∧
  (next (fhe s) <= payout < next (fhe s'))%N ∧
  decrypt (fhe s') payout =
    decrypt (fhe s) (confidentialBalanceOf (token s) this) ∧
  decrypt (fhe s') (confidentialBalanceOf (token s') this) = 0 ∧
  decrypt (fhe s') (confidentialBalanceOf (token s') (owner s)) =
    decrypt (fhe s) (confidentialBalanceOf (token s) (owner s)) +
    decrypt (fhe s) (confidentialBalanceOf (token s) this) ∧
  (∀ a, a ≠ this → a ≠ owner s →
     balances (token s') !! a = balances (token s) !! a) ∧
  (∀ h a, (h, a) ∈ acl (fhe s') ↔
     (h, a) ∈ acl (fhe s) ∨
     (isInitialized (confidentialBalanceOf (token s) this) = false ∧
      h = payout ∧ (a = this ∨ a = owner s))).
Proof.
  intros (Hf & Ht & Hown).
  assert (0 < next (fhe s))%N as Hpos by apply Hf.
  unfold closeCampaign, onlyOwner, require.
  destruct (sender m =? owner s)%N eqn:Hs; simpl; [|done].
  apply N.eqb_eq in Hs.
  destruct (campaignId s =? 0) eqn:Hid; simpl; [done|].
  destruct (finalized (campaign s (campaignId s))) eqn:Hfin; simpl; [done|].
  destruct (isInitialized (confidentialBalanceOf (token s) this)) eqn:Hinit; simpl.
  - unfold confidentialTransfer.
    destruct (token_update this (owner s)
                (confidentialBalanceOf (token s) this) (fhe s) (token s))
      as [[[tr f'] t']|] eqn:Hup; simpl; [|done].
    destruct (token_update_spec _ _ _ _ _ _ _ _ Hf Ht Hup)
      as (_ & Hf' & He & Ha & Ht' & Htr & Hdtr & _ & Hother & Hbal & _).
    destruct (Hbal (not_eq_sym Hown)) as [Hbt Hbo]. clear Hbal Hup.
    rewrite Z.leb_refl in Hdtr, Hbt, Hbo.
    intros [= <- <-].
    unfold set_campaign, set_token, set_fhe, emit. proj_state.
    repeat (split; [done || lia|]).
    intros h a. rewrite Ha. split; [by left|]. by intros [?|[? _]].
  - apply negb_false_iff, N.eqb_eq in Hinit.
    assert (is_uint64 0) as H0 by (unfold is_uint64; rewrite uint64_max_val; lia).
    unfold asEuint64.
    destruct (fresh_spec 0 (fhe s) Hf H0) as (Hf0 & He0 & E0 & Hn0 & Hd0 & Ha0).
    destruct (fresh 0 (fhe s)) as [z f0]. simpl in *. subst z.
    destruct (allow_spec (next (fhe s)) this f0 Hf0 ltac:(lia))
      as (Hf1 & He1 & Hn1 & Hd1 & Ha1).
    set (f1 := allow (next (fhe s)) this f0) in *.
    destruct (allow_spec (next (fhe s)) (owner s) f1 Hf1 ltac:(lia))
      as (Hf2 & He2 & Hn2 & Hd2 & Ha2).
    set (f2 := allow (next (fhe s)) (owner s) f1) in *.
    intros [= <- <-].
    unfold set_campaign, set_token, set_fhe, emit. proj_state.
    assert (extends (fhe s) f2) as He by eauto using extends_trans.
    assert (∀ x, (x < next (fhe s))%N → decrypt f2 x = decrypt (fhe s) x) as Hold.
    { intros x Hx. by apply extends_decrypt. }
    rewrite Hinit, (decrypt_zero (fhe s)) by done.
    repeat (split; [done || lia|]).
    split; [by apply (wf_token_extends (fhe s))|].
    split; [lia|].
    split; [by rewrite Hd2, Hd1|].
    split; [by apply decrypt_zero|].
    split; [rewrite Hold by (by apply balance_lt); lia|].
    split; [done|].
    intros h a. rewrite Ha2, Ha1, Ha0. tauto.
Qed.

Lemma close_spec m s payout s' :
  inv s →
  closeCampaign this m s = Ok (payout, s') →
  sender m = owner s ∧ campaignId s ≠ 0 ∧
  finalized (campaign s (campaignId s)) = false ∧
  owner s' = owner s ∧ campaignId s' = campaignId s ∧
  campaigns s' =
    <[campaignId s := with_finalized true (campaign s (campaignId s))]>
      (campaigns s) ∧
  contributions s' = contributions s ∧
  events s' =
    events s ++
    [CampaignClosed (campaignId s) (owner s) payout (timestamp m mod 2 ^ 64)] ∧
  wf_fhe (fhe s') ∧ extends (fhe s) (fhe s') ∧ wf_token (fhe s') (token s') ∧
  (next (fhe s) <= payout < next (fhe s'))%N ∧
  decrypt (fhe s') payout =
    decrypt (fhe s) (confidentialBalanceOf (token s) this) ∧
  decrypt (fhe s') (confidentialBalanceOf (token s') this) = 0 ∧
  decrypt (fhe s') (confidentialBalanceOf (token s') (owner s)) =
    decrypt (fhe s) (confidentialBalanceOf (token s) (owner s)) +
    decrypt (fhe s) (confidentialBalanceOf (token s) this) ∧
  (∀ a, a ≠ this → a ≠ owner s →
     balances (token s') !! a = balances (token s) !! a) ∧
  (∀ h a, (h, a) ∈ acl (fhe s') ↔
     (h, a) ∈ acl (fhe s) ∨
     (isInitialized (confidentialBalanceOf (token s) this) = false ∧
      h = payout ∧ (a = this ∨ a = owner s))).
Proof.
  intros I. apply close_world_spec.
  split; [apply (inv_fhe _ _ I)|]. split; [apply (inv_token _ _ I)|].
  apply (inv_owner _ _ I).
Qed.

Transparent fresh fhe_add allow token_update decrypt.

Lemma close_succeeds m s :
  succeeds (closeCampaign this m s) =
  (sender m =? owner s)%N && negb (campaignId s =? 0) &&
  negb (finalized (campaign s (campaignId s))).
Proof.
  unfold closeCampaign, onlyOwner, require.
  destruct (sender m =? owner s)%N; simpl; [|done].
  destruct (campaignId s =? 0); simpl; [done|].
  destruct (finalized (campaign s (campaignId s))); simpl; [done|].
  destruct (isInitialized (confidentialBalanceOf (token s) this)) eqn:Hinit;
    simpl; [|done].
  unfold confidentialTransfer, token_update. simpl. by rewrite Hinit.
Qed.

Lemma inv_close m s payout s' :
  inv s → closeCampaign this m s = Ok (payout, s') → inv s'.
Proof.
  intros I Hc.
  destruct (close_spec _ _ _ _ I Hc)
    as (Hs & Hid & Hfin & Eo & Eid & Ecs & Ect & Eev & Hf' & He & Ht' & Hp &
        Hdp & Hdv & Hdo & Hother & Hacl).
  pose proof (inv_fhe _ _ I) as Hf.
  pose proof (inv_id _ _ I) as Hidr.
  assert (next (fhe s) <= next (fhe s'))%N as Hnext by apply He.
  assert (∀ id a, contribution s' id a = contribution s id a) as Econtr.
  { intros id a. unfold contribution. by rewrite Ect. }
  assert (∀ id, totalRaised (campaign s' id) = totalRaised (campaign s id)) as Etot.
  { intros id. unfold campaign. rewrite Ecs.
    destruct (decide (campaignId s = id)) as [<-|Hne].
    - by rewrite lookup_insert_eq.
    - by rewrite lookup_insert_ne. }
  assert (∀ id c, sumZ (received (fhe s') id c <$> events s') =
            sumZ (received (fhe s) id c <$> events s)) as Esum.
  { intros id c. rewrite Eev, received_snoc. simpl.
    rewrite (received_extends (fhe s)); [lia|done|].
    intros ???. apply (inv_events _ _ I). }
  assert (∀ h a, (h, a) ∈ acl (fhe s') → (h < next (fhe s))%N →
            (h, a) ∈ acl (fhe s)) as Hacl_old.
  { intros h a [Hin|(_ & -> & _)]%Hacl Hlt; [done|lia]. }
  constructor.
  - done.
  - done.
  - rewrite Eo. apply (inv_owner _ _ I).
  - by rewrite Eid.
  - intros id c. rewrite Ecs, Eid.
    destruct (decide (campaignId s = id)) as [<-|Hne].
    + rewrite lookup_insert_eq. intros [= <-]. simpl.
      pose proof (total_lt s (campaignId s) I).
      pose proof (current_initialized s I Hid) as Hi.
      apply negb_true_iff, N.eqb_neq in Hi. lia.
    + rewrite lookup_insert_ne by done. intros Hl.
      apply (inv_campaigns _ _ I) in Hl. lia.
  - intros _. rewrite Ecs, Eid, lookup_insert_eq. by eexists.
  - intros id c. rewrite Ecs, Eid. intros Hl Hlt.
    rewrite lookup_insert_ne in Hl by lia. by eapply (inv_past _ _ I).
  - intros id a h. rewrite Ect, Eid. intros Hl.
    apply (inv_contributions _ _ I) in Hl. lia.
  - intros id a h. rewrite Eev, Eid. intros [Hin|Hin]%elem_of_app.
    + apply (inv_events _ _ I) in Hin. lia.
    + apply list_elem_of_singleton in Hin. done.
  - rewrite Eid, Hdv.
    assert (finalized (campaign s' (campaignId s)) = true) as ->.
    { unfold campaign. by rewrite Ecs, lookup_insert_eq. }
    by rewrite orb_true_r.
  - intros id a. unfold sum_contributor. rewrite Esum, Econtr.
    rewrite (extends_decrypt (fhe s)) by (done || by apply contribution_lt).
    apply (inv_sum_contributor _ _ I).
  - intros id. unfold sum_campaign. rewrite Esum, Etot.
    rewrite (extends_decrypt (fhe s)) by (done || by apply total_lt).
    apply (inv_sum_campaign _ _ I).
  - intros id c a. unfold isAllowed. rewrite Econtr. intros Hin.
    apply (inv_acl_contribution _ _ I id). apply Hacl_old; [done|].
    by apply contribution_lt.
  - intros id a. unfold isAllowed. rewrite Etot, Eo. intros Hin.
    apply (inv_acl_total _ _ I id). apply Hacl_old; [done|]. by apply total_lt.
  - intros id c. unfold isAllowed. rewrite Econtr. intros Hi.
    apply Hacl. left. by apply (inv_acl_own _ _ I).
Qed.

Lemma inv_step m c s : inv s → wf_call m c → inv (step this paymentToken m c s).
Proof.
  intros I Hwf. unfold step, execute. destruct c as [n t e|i|].
  - destruct (configureCampaign m n t e s) as [[[] s']|] eqn:E; simpl; [|done].
    by eapply inv_configure.
  - destruct (contribute this paymentToken m i s) as [[ret s']|] eqn:E;
      simpl; [|done].
    by eapply inv_contribute.
  - destruct (closeCampaign this m s) as [[p s']|] eqn:E; simpl; [|done].
    by eapply inv_close.
Qed.

Lemma reachable_inv s : reachable s → inv s.
Proof.
  induction 1 as [d f t Hf Ht Ha Hb Hd | m c s Hr IH Hwf].
  - by apply inv_deploy.
  - by apply inv_step.
Qed.

(** ** One transaction *)

Lemma configure_ok_spec m n t e s s' :
  inv s → configureCampaign m n t e s = Ok (tt, s') →
  sender m = owner s ∧ timestamp m < e ∧
  owner s' = owner s ∧ contributions s' = contributions s ∧
  token s' = token s ∧ acl (fhe s') = acl (fhe s) ∧
  extends (fhe s) (fhe s') ∧
  events s' = events s ++ [CampaignConfigured (campaignId s') n t e] ∧
  (((campaignId s = 0 ∨ finalized (campaign s (campaignId s)) = true) ∧
    campaignId s + 1 <= uint256_max ∧ campaignId s' = campaignId s + 1 ∧
    campaigns s' =
      <[campaignId s + 1 := mkCampaign n t e false (next (fhe s))]> (campaigns s) ∧
    decrypt (fhe s') (next (fhe s)) = 0 ∧
    next (fhe s') = N.succ (next (fhe s)))
   ∨
   (campaignId s ≠ 0 ∧ finalized (campaign s (campaignId s)) = false ∧
    campaignId s' = campaignId s ∧
    campaigns s' =
      <[campaignId s :=
          mkCampaign n t e false (totalRaised (campaign s (campaignId s)))]>
        (campaigns s) ∧
    fhe s' = fhe s)).
Proof.
  intros I. rewrite configure_spec by done.
  destruct (sender m =? owner s)%N eqn:Hs; simpl; [|done].
  apply N.eqb_eq in Hs.
  destruct (e <=? timestamp m) eqn:He; [done|]. apply Z.leb_gt in He.
  assert (is_uint64 0) as H0 by (unfold is_uint64; rewrite uint64_max_val; lia).
  destruct (fresh_spec 0 (fhe s) (inv_fhe _ _ I) H0) as (_ & Hext & _ & Hn & Hd & Ha).
  destruct ((campaignId s =? 0) || finalized (campaign s (campaignId s))) eqn:Hnew.
  - destruct (campaignId s + 1 <=? uint256_max) eqn:Hov; [|done].
    apply Z.leb_le in Hov. intros [= <-]. proj_state.
    repeat (split; [done|]). left.
    apply orb_true_iff in Hnew. rewrite Z.eqb_eq in Hnew. done.
  - intros [= <-]. proj_state.
    split; [done|]. split; [done|]. split; [done|]. split; [done|].
    split; [done|]. split; [done|]. split; [apply extends_refl|].
    split; [done|]. right.
    apply orb_false_iff in Hnew as [Hz Hfin]. apply Z.eqb_neq in Hz. done.
Qed.

Lemma contribute_succeeds m i s :
  campaignId s ≠ 0 →
  finalized (campaign s (campaignId s)) = false →
  timestamp m < endTimestamp (campaign s (campaignId s)) →
  proofValid i = true →
  isOperator (token s) (sender m) this (timestamp m) = true →
  isInitialized (confidentialBalanceOf (token s) (sender m)) = true →
  ∃ ret s', contribute this paymentToken m i s = Ok (ret, s').
Proof.
  intros Hid Hfin Hend Hproof Hop Hinit.
  unfold contribute, require, fromExternal, confidentialTransferFrom, token_update.
  apply Z.eqb_neq in Hid. rewrite Hid, Hfin. simpl.
  assert ((timestamp m >=? endTimestamp (campaign s (campaignId s))) = false)
    as -> by lia.
  simpl. rewrite Hproof. simpl. rewrite Hop. simpl. rewrite Hinit. simpl.
  eauto.
Qed.

(** The three guards of [contribute], and the failures of the collaborators
    behind them. *)
Lemma contribute_result m i s :
  match contribute this paymentToken m i s with
  | Revert CampaignNotConfigured => campaignId s = 0
  | Revert CampaignAlreadyFinalized =>
      campaignId s ≠ 0 ∧ finalized (campaign s (campaignId s)) = true
  | Revert CampaignEnded =>
      campaignId s ≠ 0 ∧ finalized (campaign s (campaignId s)) = false ∧
      endTimestamp (campaign s (campaignId s)) <= timestamp m
  | Revert InvalidInputProof | Revert TokenUnauthorizedSpender
  | Revert TokenZeroBalance | Ok _ =>
      campaignId s ≠ 0 ∧ finalized (campaign s (campaignId s)) = false ∧
      timestamp m < endTimestamp (campaign s (campaignId s))
  | Revert _ => False
  end.
Proof.
  unfold contribute, require, fromExternal, confidentialTransferFrom, token_update.
  destruct (campaignId s =? 0) eqn:Hid; simpl; [lia|].
  destruct (finalized (campaign s (campaignId s))) eqn:Hfin; simpl; [split; [lia|done]|].
  destruct (timestamp m >=? endTimestamp (campaign s (campaignId s))) eqn:Hend;
    simpl; [repeat split; lia|].
  assert (campaignId s ≠ 0 ∧ false = false ∧
          timestamp m < endTimestamp (campaign s (campaignId s))) as H
    by (repeat split; lia).
  destruct (proofValid i); simpl; [|done].
  destruct (isOperator (token s) (sender m) this (timestamp m)); simpl; [|done].
  destruct (isInitialized (confidentialBalanceOf (token s) (sender m))); simpl; done.
Qed.

Lemma step_cases m c s :
  step this paymentToken m c s = s ∨
  (∃ n t e, c = Configure n t e ∧
     configureCampaign m n t e s = Ok (tt, step this paymentToken m c s)) ∨
  (∃ i ret, c = Contribute i ∧
     contribute this paymentToken m i s = Ok (ret, step this paymentToken m c s)) ∨
  (∃ payout, c = Close ∧
     closeCampaign this m s = Ok (payout, step this paymentToken m c s)).
Proof.
  unfold step, execute. destruct c as [n t e|i|].
  - destruct (configureCampaign m n t e s) as [[[] s']|] eqn:E; simpl; [|by left].
    right. left. by exists n, t, e.
  - destruct (contribute this paymentToken m i s) as [[ret s']|] eqn:E;
      simpl; [|by left].
    right. right. left. by exists i, ret.
  - destruct (closeCampaign this m s) as [[p s']|] eqn:E; simpl; [|by left].
    right. right. right. by exists p.
Qed.

(** What no transaction touches: the owner, every campaign and contribution
    entry other than those of the campaign that is current afterwards, the
    current campaign once it is finalized, the existing ciphertexts, and the
    grants on existing handles. *)
Lemma step_frame m c s :
  inv s → wf_call m c →
  let s' := step this paymentToken m c s in
  owner s' = owner s ∧
  campaignId s <= campaignId s' <= campaignId s + 1 ∧
  extends (fhe s) (fhe s') ∧
  (∀ id, id ≠ campaignId s' → campaigns s' !! id = campaigns s !! id) ∧
  (∀ id a, id ≠ campaignId s' →
     contributions s' !! (id, a) = contributions s !! (id, a)) ∧
  (finalized (campaign s (campaignId s)) = true →
     campaigns s' !! campaignId s = campaigns s !! campaignId s ∧
     ∀ a, contributions s' !! (campaignId s, a) =
          contributions s !! (campaignId s, a)) ∧
  (∀ h a, (h, a) ∈ acl (fhe s') → (h < next (fhe s))%N → (h, a) ∈ acl (fhe s)).
Proof.
  intros I Hwf s'.
  pose proof (inv_fhe _ _ I) as Hf.
  destruct (step_cases m c s) as [E|[(n & t & e & -> & E)|[(i & ret & -> & E)|(p & -> & E)]]];
    fold s' in E.
  - rewrite E. repeat split; try done; try lia; try apply extends_refl.
  - destruct (configure_ok_spec _ _ _ _ _ _ I E)
      as (_ & _ & Eo & Ect & _ & Ha & He & _ &
          [(Hnew & _ & Eid & Ecs & _)|(Hid & Hfin & Eid & Ecs & _)]).
    + rewrite Eid, Ecs, Ect, Ha.
      split; [done|]. split; [lia|]. split; [done|].
      split; [intros id Hne; by rewrite lookup_insert_ne|].
      split; [done|]. split; [|done].
      intros _. split; [|done]. rewrite lookup_insert_ne by lia. done.
    + rewrite Eid, Ecs, Ect, Ha.
      split; [done|]. split; [lia|]. split; [done|].
      split; [intros id Hne; by rewrite lookup_insert_ne|].
      split; [done|]. split; [|done]. congruence.
  - destruct (contribute_spec _ _ _ _ _ I Hwf E)
      as (tr & total & Hid & Hfin & _ & _ & _ & _ & Eo & Eid & Ecs & Ect & _ &
          _ & He & _ & Htr & Htot & _ & _ & _ & _ & _ & _ & Hacl).
    rewrite Eid, Ecs, Ect.
    split; [done|]. split; [lia|]. split; [done|].
    split; [intros id Hne; by rewrite lookup_insert_ne|].
    split; [intros id a Hne; rewrite lookup_insert_ne; [done|congruence]|].
    split; [congruence|].
    intros h a [Hin|[[? ?]|[[? ?]|[? ?]]]]%Hacl Hlt; [done|lia..].
  - destruct (close_spec _ _ _ _ I E)
      as (_ & Hid & Hfin & Eo & Eid & Ecs & Ect & _ & _ & He & _ & Hp & _ &
          _ & _ & _ & Hacl).
    rewrite Eid, Ecs, Ect.
    split; [done|]. split; [lia|]. split; [done|].
    split; [intros id Hne; by rewrite lookup_insert_ne|].
    split; [done|]. split; [congruence|].
    intros h a [Hin|(_ & -> & _)]%Hacl Hlt; [done|lia].
Qed.

(** ** Sequences of transactions *)

Lemma run_snoc txs m c s :
  run this paymentToken (txs ++ [(m, c)]) s =
  step this paymentToken m c (run this paymentToken txs s).
Proof. unfold run. by rewrite foldl_snoc. Qed.

Lemma run_inv txs s :
  inv s → Forall (fun tx => wf_call tx.1 tx.2) txs →
  inv (run this paymentToken txs s).
Proof.
  intros I Hwf. revert s I.
  induction Hwf as [|[m c] txs Hw _ IH]; intros s I; [done|].
  simpl. apply IH. by apply inv_step.
Qed.

Lemma run_reachable txs s :
  reachable s → Forall (fun tx => wf_call tx.1 tx.2) txs →
  reachable (run this paymentToken txs s).
Proof.
  intros R Hwf. revert s R.
  induction Hwf as [|[m c] txs Hw _ IH]; intros s R; [done|].
  simpl. apply IH. by apply reachable_step.
Qed.

(** A campaign is frozen once it is finalized or no longer the current one:
    whatever transactions follow, its record and its contribution entries stay
    as they are; and the grants on the handles that exist now never change. *)
Lemma run_frame txs s :
  inv s → Forall (fun tx => wf_call tx.1 tx.2) txs →
  let s' := run this paymentToken txs s in
  owner s' = owner s ∧
  campaignId s <= campaignId s' ∧
  extends (fhe s) (fhe s') ∧
  (∀ id, id < campaignId s ∨
         (id = campaignId s ∧ finalized (campaign s id) = true) →
     campaigns s' !! id = campaigns s !! id ∧
     ∀ a, contributions s' !! (id, a) = contributions s !! (id, a)) ∧
  (∀ h a, (h, a) ∈ acl (fhe s') → (h < next (fhe s))%N → (h, a) ∈ acl (fhe s)).
Proof.
  intros I Hwf. revert s I.
  induction Hwf as [|[m c] txs Hw _ IH]; intros s I.
  - simpl. repeat split; try done; try lia; try apply extends_refl.
  - simpl in Hw.
    destruct (step_frame m c s I Hw) as (Eo & Hid & He & Hcs & Hct & Hfin & Hacl).
    specialize (IH (step this paymentToken m c s) (inv_step _ _ _ I Hw)).
    destruct IH as (Eo' & Hid' & He' & Hfr & Hacl').
    change (run this paymentToken ((m, c) :: txs) s)
      with (run this paymentToken txs (step this paymentToken m c s)).
    set (s1 := step this paymentToken m c s) in *.
    set (s2 := run this paymentToken txs s1) in *.
    split; [congruence|]. split; [lia|].
    split; [eauto using extends_trans|].
    split.
    + intros id Hfrozen.
      assert (campaigns s1 !! id = campaigns s !! id ∧
              ∀ a, contributions s1 !! (id, a) = contributions s !! (id, a)) as [E1 E2].
      { destruct (decide (id = campaignId s1)) as [Heq|Hne].
        - destruct Hfrozen as [Hlt|[-> Hf]]; [lia|]. by apply Hfin.
        - split; [by apply Hcs|]. intros a. by apply Hct. }
      assert (id < campaignId s1 ∨
              (id = campaignId s1 ∧ finalized (campaign s1 id) = true)) as Hfrozen1.
      { destruct Hfrozen as [Hlt|[-> Hf]]; [left; lia|].
        destruct (decide (campaignId s = campaignId s1)) as [Heq|Hne]; [|left; lia].
        right. split; [done|]. unfold campaign. rewrite E1. exact Hf. }
      destruct (Hfr id Hfrozen1) as [E3 E4].
      split; [congruence|]. intros a. rewrite E4. apply E2.
    + intros h a Hin Hlt. apply Hacl; [|done]. apply Hacl'; [done|].
      destruct He. lia.
Qed.

(** ** Encrypted accounting *)

(** The other transactions leave the received amounts as they are. *)
Lemma other_calls_keep_sums m c s id who :
  inv s → wf_call m c → (∀ i, c ≠ Contribute i) →
  let s' := step this paymentToken m c s in
  sumZ (received (fhe s') id who <$> events s') =
  sumZ (received (fhe s) id who <$> events s).
Proof.
  intros I Hwf Hc s'.
  assert (∀ id' a h, ContributionReceived id' a h ∈ events s →
            (h < next (fhe s))%N) as Hev.
  { intros ???. apply (inv_events _ _ I). }
  destruct (step_cases m c s)
    as [E|[(n & t & e & -> & E)|[(i & ret & -> & E)|(p & -> & E)]]];
    fold s' in E.
  - by rewrite E.
  - destruct (configure_ok_spec _ _ _ _ _ _ I E)
      as (_ & _ & _ & _ & _ & _ & He & Eev & _).
    rewrite Eev, received_snoc, (received_extends (fhe s) (fhe s')) by done.
    simpl. lia.
  - by destruct (Hc i).
  - destruct (close_spec _ _ _ _ I E)
      as (_ & _ & _ & _ & _ & _ & _ & Eev & _ & He & _).
    rewrite Eev, received_snoc, (received_extends (fhe s) (fhe s')) by done.
    simpl. lia.
Qed.

(** C1 (amended). After any sequence of transactions, the decrypted running total of a
    contributor in a campaign is the sum of the amounts transferred by that
    contributor's successful [contribute] calls to that campaign, and the
    decrypted [totalRaised] of the campaign is the sum over all contributors
    (the calls and their transferred ciphertexts are those of the
    [ContributionReceived] events: a successful [contribute] appends one, and
    no other call changes the sums). Each successful [contribute] adds the
    transferred amount to both totals, without wrap-around, and returns the
    caller's updated handle; the transferred amount is the submitted plaintext
    whenever the caller's token balance covers it. *)
Theorem contributions_accumulate s :
  reachable s →
  (∀ id c, decrypt (fhe s) (contribution s id c) = sum_contributor s id c) ∧
  (∀ id, decrypt (fhe s) (totalRaised (campaign s id)) = sum_campaign s id) ∧
  (∀ m i ret s',
     wf_call m (Contribute i) →
     contribute this paymentToken m i s = Ok (ret, s') →
     ∃ transferred,
       events s' =
         events s ++ [ContributionReceived (campaignId s) (sender m) transferred] ∧
       ret = contribution s' (campaignId s) (sender m) ∧
       decrypt (fhe s') ret =
         decrypt (fhe s) (contribution s (campaignId s) (sender m)) +
         decrypt (fhe s') transferred ∧
       decrypt (fhe s') (totalRaised (campaign s' (campaignId s))) =
         decrypt (fhe s) (totalRaised (campaign s (campaignId s))) +
         decrypt (fhe s') transferred ∧
       (plaintext i <=
          decrypt (fhe s) (confidentialBalanceOf (token s) (sender m)) →
        decrypt (fhe s') transferred = plaintext i)) ∧
  (∀ m c id who,
     wf_call m c → (∀ i, c ≠ Contribute i) →
     sum_contributor (step this paymentToken m c s) id who =
       sum_contributor s id who ∧
     sum_campaign (step this paymentToken m c s) id = sum_campaign s id).
Proof.
  intros R. pose proof (reachable_inv s R) as I.
  split; [apply (inv_sum_contributor _ _ I)|].
  split; [apply (inv_sum_campaign _ _ I)|].
  split.
  - intros m i ret s' Hwf Hc.
    destruct (contribute_spec _ _ _ _ _ I Hwf Hc)
      as (tr & total & _ & _ & _ & _ & _ & _ & _ & _ & Ecs & Ect & Eev & _ & _ &
          _ & _ & _ & Hdtr & Hdret & Hdtot & _).
    exists tr. split; [done|].
    assert (contribution s' (campaignId s) (sender m) = ret) as Eret.
    { unfold contribution. by rewrite Ect, lookup_insert_eq. }
    assert (totalRaised (campaign s' (campaignId s)) = total) as Etot.
    { unfold campaign. by rewrite Ecs, lookup_insert_eq. }
    rewrite Eret, Etot. repeat (split; [done|]).
    intros Hcov. rewrite Hdtr. apply Z.leb_le in Hcov. by rewrite Hcov.
  - intros m c id who Hwf Hc. unfold sum_contributor, sum_campaign.
    split; by apply other_calls_keep_sums.
Qed.

(** ** Decryption rights *)


(** ** Campaign lifecycle *)

(** C4. [configureCampaign] is for the owner only and needs an end time
    strictly after the block time. When there is no campaign yet or the
    current one is finalized it moves to the next id (so the first id is 1,
    and nothing is ever stored under id 0), whose record gets the new
    metadata, [finalized = false] and a total that is an encrypted zero; this
    needs the counter below the [uint256] maximum. Otherwise it overwrites
    name, target and end time of the current campaign and nothing else: the
    id, the total, the contributions and the ciphertexts stay as they are, and
    so they do along every sequence of [configureCampaign] calls. *)
Theorem configure_campaign s m n t e :
  reachable s →
  (sender m ≠ owner s →
   configureCampaign m n t e s = Revert OwnableUnauthorizedAccount) ∧
  (sender m = owner s → e <= timestamp m →
   configureCampaign m n t e s = Revert InvalidEndTimestamp) ∧
  (campaigns s !! 0 = None ∧ ∀ c, contributions s !! (0, c) = None) ∧
  (sender m = owner s → timestamp m < e →
   campaignId s = 0 ∨ finalized (campaign s (campaignId s)) = true →
   campaignId s < uint256_max →
   ∃ s', configureCampaign m n t e s = Ok (tt, s') ∧
     campaignId s' = campaignId s + 1 ∧
     campaign s' (campaignId s') =
       mkCampaign n t e false (totalRaised (campaign s' (campaignId s'))) ∧
     isInitialized (totalRaised (campaign s' (campaignId s'))) = true ∧
     decrypt (fhe s') (totalRaised (campaign s' (campaignId s'))) = 0 ∧
     (∀ id, id ≠ campaignId s' → campaigns s' !! id = campaigns s !! id) ∧
     contributions s' = contributions s) ∧
  (sender m = owner s → timestamp m < e →
   campaignId s ≠ 0 → finalized (campaign s (campaignId s)) = false →
   ∃ s', configureCampaign m n t e s = Ok (tt, s') ∧
     campaignId s' = campaignId s ∧
     campaign s' (campaignId s) =
       mkCampaign n t e false (totalRaised (campaign s (campaignId s))) ∧
     (∀ id, id ≠ campaignId s → campaigns s' !! id = campaigns s !! id) ∧
     contributions s' = contributions s ∧ fhe s' = fhe s ∧ token s' = token s) ∧
  (campaignId s ≠ 0 → finalized (campaign s (campaignId s)) = false →
   ∀ cfgs : list (Msg * (string * Z * Z)),
     let s' :=
       run this paymentToken
         ((fun x => (x.1, Configure x.2.1.1 x.2.1.2 x.2.2)) <$> cfgs) s in
     campaignId s' = campaignId s ∧
     totalRaised (campaign s' (campaignId s)) =
       totalRaised (campaign s (campaignId s)) ∧
     finalized (campaign s' (campaignId s)) = false ∧
     contributions s' = contributions s ∧ fhe s' = fhe s ∧ token s' = token s).
Proof.
  intros R. pose proof (reachable_inv s R) as I.
  pose proof (inv_fhe _ _ I) as Hf.
  split; [|split; [|split; [|split; [|split]]]].
  - intros Hs. rewrite configure_spec by done.
    apply N.eqb_neq in Hs. by rewrite Hs.
  - intros Hs He. rewrite configure_spec by done.
    apply N.eqb_eq in Hs. rewrite Hs. simpl.
    apply Z.leb_le in He. by rewrite He.
  - split.
    + destruct (campaigns s !! 0) as [c|] eqn:E; [|done].
      apply (inv_campaigns _ _ I) in E. lia.
    + intros c. destruct (contributions s !! (0, c)) as [h|] eqn:E; [|done].
      apply (inv_contributions _ _ I) in E. lia.
  - intros Hs He Hnew Hmax. rewrite configure_spec by done.
    apply N.eqb_eq in Hs. rewrite Hs. simpl.
    assert ((e <=? timestamp m) = false) as -> by lia.
    assert ((campaignId s =? 0) || finalized (campaign s (campaignId s)) = true)
      as ->.
    { apply orb_true_iff. rewrite Z.eqb_eq. done. }
    assert ((campaignId s + 1 <=? uint256_max) = true) as -> by lia.
    eexists. split; [done|]. proj_state.
    unfold campaign; proj_state. rewrite lookup_insert_eq. simpl.
    assert (is_uint64 0) as H0 by (unfold is_uint64; rewrite uint64_max_val; lia).
    destruct (fresh_spec 0 (fhe s) Hf H0) as (_ & _ & _ & _ & Hd & _).
    split; [done|]. split; [done|].
    split; [unfold isInitialized; apply negb_true_iff, N.eqb_neq;
            destruct Hf; lia|].
    split; [done|]. split; [|done].
    intros id Hne. by rewrite lookup_insert_ne.
  - intros Hs He Hid Hfin. rewrite configure_spec by done.
    apply N.eqb_eq in Hs. rewrite Hs. simpl.
    assert ((e <=? timestamp m) = false) as -> by lia.
    apply Z.eqb_neq in Hid. rewrite Hid, Hfin. simpl.
    eexists. split; [done|]. proj_state.
    unfold campaign at 1; proj_state. rewrite lookup_insert_eq. simpl.
    repeat (split; [done|]). split; [|done].
    intros id Hne. by rewrite lookup_insert_ne.
  - intros Hid Hfin cfgs. clear R. revert s I Hf Hid Hfin.
    induction cfgs as [|[m' [[n' t'] e']] cfgs IH]; intros s I Hf Hid Hfin; [done|].
    rewrite fmap_cons. simpl.
    set (s1 := step this paymentToken m' (Configure n' t' e') s).
    assert (inv s1 ∧ campaignId s1 = campaignId s ∧
            totalRaised (campaign s1 (campaignId s)) =
              totalRaised (campaign s (campaignId s)) ∧
            finalized (campaign s1 (campaignId s)) = false ∧
            contributions s1 = contributions s ∧ fhe s1 = fhe s ∧
            token s1 = token s) as (I1 & Eid & Etot & Efin & Ect & Ef & Et).
    { subst s1. unfold step, execute.
      destruct (configureCampaign m' n' t' e' s) as [[[] s1]|] eqn:E; simpl; [|done].
      pose proof (inv_configure _ _ _ _ _ _ I E) as I1.
      destruct (configure_ok_spec _ _ _ _ _ _ I E)
        as (_ & _ & _ & Ect & Et & _ & _ & _ &
            [([?|?] & _)|(_ & _ & Eid & Ecs & Ef)]); [done|congruence|].
      unfold campaign. rewrite Ecs, lookup_insert_eq. done. }
    destruct (IH s1 I1) as (E1 & E2 & E3 & E4 & E5 & E6).
    + apply (inv_fhe _ _ I1).
    + congruence.
    + by rewrite Eid.
    + rewrite Eid in E1, E2, E3. cbv zeta.
      rewrite E1, E2, E3, E4, E5, E6. done.
Qed.

(** C5 (amended). [contribute] fails with [CampaignNotConfigured] exactly
    when no campaign is configured, with [CampaignAlreadyFinalized] exactly
    when the current campaign is finalized, and with [CampaignEnded] exactly
    when the block time has reached the end time of an unfinalized campaign; a
    failed transaction leaves the state as it was. Past the three guards the
    call can fail only in a collaborator (input proof rejected, vault not
    approved as the caller's operator, caller without a token balance), and it
    succeeds when the proof verifies, the vault is approved and the caller
    holds a balance. *)
Theorem contribute_guards s m i :
  (contribute this paymentToken m i s = Revert CampaignNotConfigured ↔
   campaignId s = 0) ∧
  (contribute this paymentToken m i s = Revert CampaignAlreadyFinalized ↔
   campaignId s ≠ 0 ∧ finalized (campaign s (campaignId s)) = true) ∧
  (contribute this paymentToken m i s = Revert CampaignEnded ↔
   campaignId s ≠ 0 ∧ finalized (campaign s (campaignId s)) = false ∧
   endTimestamp (campaign s (campaignId s)) <= timestamp m) ∧
  (campaignId s = 0 ∨ finalized (campaign s (campaignId s)) = true ∨
   endTimestamp (campaign s (campaignId s)) <= timestamp m →
   succeeds (contribute this paymentToken m i s) = false ∧
   step this paymentToken m (Contribute i) s = s) ∧
  (succeeds (contribute this paymentToken m i s) = false →
   step this paymentToken m (Contribute i) s = s) ∧
  (campaignId s ≠ 0 → finalized (campaign s (campaignId s)) = false →
   timestamp m < endTimestamp (campaign s (campaignId s)) →
   (∀ e, contribute this paymentToken m i s = Revert e →
      e = InvalidInputProof ∨ e = TokenUnauthorizedSpender ∨ e = TokenZeroBalance) ∧
   (proofValid i = true →
    isOperator (token s) (sender m) this (timestamp m) = true →
    isInitialized (confidentialBalanceOf (token s) (sender m)) = true →
    succeeds (contribute this paymentToken m i s) = true)).
Proof.
  pose proof (contribute_result m i s) as H.
  assert (∀ e, contribute this paymentToken m i s = Revert e →
               step this paymentToken m (Contribute i) s = s) as Hrev.
  { intros e E. unfold step, execute. by rewrite E. }
  split; [|split; [|split; [|split; [|split]]]].
  - split.
    + intros E. by rewrite E in H.
    + intros Hid. unfold contribute, require. by rewrite Hid.
  - split.
    + intros E. by rewrite E in H.
    + intros [Hid Hfin]. unfold contribute, require.
      apply Z.eqb_neq in Hid. by rewrite Hid, Hfin.
  - split.
    + intros E. by rewrite E in H.
    + intros (Hid & Hfin & Hend). unfold contribute, require.
      apply Z.eqb_neq in Hid. rewrite Hid, Hfin. simpl.
      assert ((timestamp m >=? endTimestamp (campaign s (campaignId s))) = true)
        as -> by lia.
      done.
  - intros Hg.
    destruct (contribute this paymentToken m i s) as [[ret s']|e] eqn:E.
    + destruct H as (? & ? & ?). destruct Hg as [?|[?|?]]; [lia|congruence|lia].
    + split; [done|]. by eapply Hrev.
  - destruct (contribute this paymentToken m i s) as [[ret s']|e] eqn:E; [done|].
    intros _. by eapply Hrev.
  - intros Hid Hfin Hend. split.
    + intros e E. rewrite E in H. destruct e; try lia; auto; try done.
      destruct H as [_ Hf]. congruence.
    + intros Hp Hop Hinit.
      destruct (contribute_succeeds m i s Hid Hfin Hend Hp Hop Hinit)
        as (ret & s' & ->). done.
Qed.

Lemma close_result m s :
  match closeCampaign this m s with
  | Revert OwnableUnauthorizedAccount => sender m ≠ owner s
  | Revert CampaignNotConfigured => sender m = owner s ∧ campaignId s = 0
  | Revert CampaignAlreadyFinalized =>
      sender m = owner s ∧ campaignId s ≠ 0 ∧
      finalized (campaign s (campaignId s)) = true
  | Ok _ =>
      sender m = owner s ∧ campaignId s ≠ 0 ∧
      finalized (campaign s (campaignId s)) = false
  | Revert _ => False
  end.
Proof.
  unfold closeCampaign, onlyOwner, require, confidentialTransfer, token_update.
  destruct (sender m =? owner s)%N eqn:Hs; simpl; [|by apply N.eqb_neq].
  apply N.eqb_eq in Hs.
  destruct (campaignId s =? 0) eqn:Hid; simpl; [split; [done|lia]|].
  apply Z.eqb_neq in Hid.
  destruct (finalized (campaign s (campaignId s))) eqn:Hfin; simpl; [done|].
  destruct (isInitialized (confidentialBalanceOf (token s) this)) eqn:Hinit;
    simpl; done.
Qed.

(** C9. [closeCampaign] has no deadline precondition: whatever the block
    time, also strictly before the end time, the owner's call on a configured
    campaign that is not finalized succeeds and finalizes it. From then on,
    whatever transactions follow, the campaign's record and its contribution
    entries never change, and [contribute] fails with
    [CampaignAlreadyFinalized] for as long as that id is the current one.
    [closeCampaign] reverts only for a caller other than the owner, when there
    is no campaign, or when the campaign is already finalized. *)
Theorem close_has_no_deadline s m :
  reachable s →
  (sender m = owner s → campaignId s ≠ 0 →
   finalized (campaign s (campaignId s)) = false →
   ∃ payout s',
     closeCampaign this m s = Ok (payout, s') ∧
     campaignId s' = campaignId s ∧
     finalized (campaign s' (campaignId s)) = true ∧
     ∀ txs,
       Forall (fun tx => wf_call tx.1 tx.2) txs →
       let s'' := run this paymentToken txs s' in
       campaigns s'' !! campaignId s = campaigns s' !! campaignId s ∧
       (∀ a, contributions s'' !! (campaignId s, a) =
             contributions s' !! (campaignId s, a)) ∧
       (∀ m' i, campaignId s'' = campaignId s →
          contribute this paymentToken m' i s'' =
            Revert CampaignAlreadyFinalized)) ∧
  (∀ e, closeCampaign this m s = Revert e →
     (e = OwnableUnauthorizedAccount ∧ sender m ≠ owner s) ∨
     (e = CampaignNotConfigured ∧ sender m = owner s ∧ campaignId s = 0) ∨
     (e = CampaignAlreadyFinalized ∧ sender m = owner s ∧ campaignId s ≠ 0 ∧
      finalized (campaign s (campaignId s)) = true)).
Proof.
  intros R. pose proof (reachable_inv s R) as I.
  pose proof (close_result m s) as Hres.
  split.
  - intros Hs Hid Hfin.
    destruct (closeCampaign this m s) as [[payout s']|e] eqn:E.
    + exists payout, s'. split; [done|].
      pose proof (inv_close _ _ _ _ I E) as I'.
      destruct (close_spec _ _ _ _ I E)
        as (_ & _ & _ & _ & Eid & Ecs & _).
      assert (finalized (campaign s' (campaignId s)) = true) as Hfin'.
      { unfold campaign. by rewrite Ecs, lookup_insert_eq. }
      split; [done|]. split; [done|].
      intros txs Hwf s''.
      destruct (run_frame txs s' I' Hwf) as (_ & _ & _ & Hfr & _).
      destruct (Hfr (campaignId s)) as [E1 E2].
      { right. by rewrite Eid. }
      fold s'' in E1, E2.
      split; [done|]. split; [done|].
      intros m' i Hsame. unfold contribute, require.
      rewrite Hsame. apply Z.eqb_neq in Hid. rewrite Hid. simpl.
      assert (finalized (campaign s'' (campaignId s)) = true) as ->.
      { unfold campaign in *. by rewrite E1. }
      done.
    + exfalso. destruct e; try done; intuition congruence.
  - intros e E. rewrite E in Hres. destruct e; try done; auto.
Qed.


(** ** History *)

(** A transaction emits at most one event, and the amounts of the events
    already emitted stay as they were. *)
Lemma step_received m c s id who :
  inv s → wf_call m c →
  let s' := step this paymentToken m c s in
  sumZ (received (fhe s) id who <$> events s) <=
  sumZ (received (fhe s') id who <$> events s').
Proof.
  intros I Hwf s'.
  pose proof (inv_step m c s I Hwf) as I'. fold s' in I'.
  destruct (step_frame m c s I Hwf) as (_ & _ & He & _). fold s' in He.
  assert (events s' = events s ∨ ∃ e, events s' = events s ++ [e]) as [E|[e E]].
  { destruct (step_cases m c s)
      as [E|[(n & t & e & -> & E)|[(i & ret & -> & E)|(p & -> & E)]]];
      fold s' in E.
    - left. by rewrite E.
    - right. destruct (configure_ok_spec _ _ _ _ _ _ I E)
        as (_ & _ & _ & _ & _ & _ & _ & Eev & _). eauto.
    - right. destruct (contribute_spec _ _ _ _ _ I Hwf E)
        as (tr & total & _ & _ & _ & _ & _ & _ & _ & _ & _ & _ & Eev & _). eauto.
    - right. destruct (close_spec _ _ _ _ I E)
        as (_ & _ & _ & _ & _ & _ & _ & Eev & _). eauto. }
  - rewrite E, (received_extends (fhe s) (fhe s')); [done|done|].
    intros ???. apply (inv_events _ _ I).
  - rewrite E, received_snoc, (received_extends (fhe s) (fhe s')); [|done|].
    2:{ intros ???. apply (inv_events _ _ I). }
    assert (0 <= received (fhe s') id who e); [|lia].
    destruct e as [| id' a h |]; simpl; try done.
    destruct (_ && _); [|done]. apply decrypt_nonneg, (inv_fhe _ _ I').
Qed.

(** C6. No transaction modifies the record or the contribution entries of a
    campaign other than the one that is current afterwards, so past ids are
    immutable history, and the campaign counter never decreases. The decrypted
    total of every campaign and every contributor's decrypted entry never
    decrease, and no record or entry is ever deleted. A campaign record comes
    into existence only by [configureCampaign], under the next id and with a
    total of zero; an existing total changes only by a [contribute] to the
    current campaign. A contribution entry changes, and first comes into
    existence, only by a [contribute] of that contributor to the current
    campaign; a freshly deployed ledger has none. *)
Theorem history_is_immutable s m c :
  reachable s → wf_call m c →
  let s' := step this paymentToken m c s in
  (∀ id, id ≠ campaignId s' →
     campaigns s' !! id = campaigns s !! id ∧
     ∀ a, contributions s' !! (id, a) = contributions s !! (id, a)) ∧
  campaignId s <= campaignId s' ∧
  (∀ id, decrypt (fhe s) (totalRaised (campaign s id)) <=
         decrypt (fhe s') (totalRaised (campaign s' id))) ∧
  (∀ id a, decrypt (fhe s) (contribution s id a) <=
           decrypt (fhe s') (contribution s' id a)) ∧
  (∀ id, is_Some (campaigns s !! id) → is_Some (campaigns s' !! id)) ∧
  (∀ id a, is_Some (contributions s !! (id, a)) →
           is_Some (contributions s' !! (id, a))) ∧
  (∀ id, campaigns s !! id = None → is_Some (campaigns s' !! id) →
     (∃ n t e, c = Configure n t e) ∧
     id = campaignId s + 1 ∧ id = campaignId s' ∧
     decrypt (fhe s') (totalRaised (campaign s' id)) = 0) ∧
  (∀ id, is_Some (campaigns s !! id) →
     totalRaised (campaign s' id) ≠ totalRaised (campaign s id) →
     (∃ i, c = Contribute i) ∧ id = campaignId s) ∧
  (∀ id a, contributions s' !! (id, a) ≠ contributions s !! (id, a) →
     (∃ i, c = Contribute i) ∧ id = campaignId s ∧ a = sender m) ∧
  (∀ deployer f t, contributions (deploy deployer f t) = ∅).
Proof.
  intros R Hwf s'. pose proof (reachable_inv s R) as I.
  pose proof (inv_step m c s I Hwf) as I'. fold s' in I'.
  destruct (step_frame m c s I Hwf) as (_ & Hid & _ & Hcs & Hct & _).
  fold s' in Hid, Hcs, Hct.
  split; [|split; [|split; [|split]]].
  { intros id Hne. split; [by apply Hcs|]. intros a. by apply Hct. }
  { lia. }
  { intros id. rewrite (inv_sum_campaign _ _ I), (inv_sum_campaign _ _ I').
    by apply step_received. }
  { intros id a.
    rewrite (inv_sum_contributor _ _ I), (inv_sum_contributor _ _ I').
    by apply step_received. }
  destruct (step_cases m c s)
    as [E|[(n & t & e & -> & E)|[(i & ret & -> & E)|(p & -> & E)]]];
    fold s' in E.
  - rewrite E. split; [done|]. split; [done|].
    split; [intros id Hn [x Hx]; congruence|].
    split; [by intros id _ Hd|]. split; [by intros id a Hd|done].
  - destruct (configure_ok_spec _ _ _ _ _ _ I E)
      as (_ & _ & _ & Ect & _ & _ & _ & _ &
          [(Hnew & _ & Eid & Ecs & Hd & _)|(Hid' & Hfin & Eid & Ecs & Ef)]).
    + rewrite Ect.
      assert (∀ id, id ≠ campaignId s + 1 →
                campaigns s' !! id = campaigns s !! id) as Hother.
      { intros id Hne. rewrite Ecs. by apply lookup_insert_ne. }
      split.
      { intros id Hsome. rewrite Hother; [done|].
        destruct Hsome as [x Hx]. apply (inv_campaigns _ _ I) in Hx. lia. }
      split; [done|]. split.
      { intros id Hn Hsome.
        destruct (decide (id = campaignId s + 1)) as [->|Hne].
        - split; [eauto|]. split; [done|]. split; [done|].
          unfold campaign. rewrite Ecs, lookup_insert_eq. done.
        - rewrite Hother, Hn in Hsome by done. by destruct Hsome. }
      split.
      { intros id Hsome Hdiff. exfalso. apply Hdiff.
        unfold campaign. rewrite Hother; [done|].
        destruct Hsome as [x Hx]. apply (inv_campaigns _ _ I) in Hx. lia. }
      split; [done|done].
    + rewrite Ect.
      assert (∀ id, totalRaised (campaign s' id) = totalRaised (campaign s id))
        as Etot.
      { intros id. unfold campaign. rewrite Ecs.
        destruct (decide (campaignId s = id)) as [<-|Hne].
        - by rewrite lookup_insert_eq.
        - by rewrite lookup_insert_ne. }
      split.
      { intros id Hsome. rewrite Ecs.
        destruct (decide (campaignId s = id)) as [<-|Hne].
        - rewrite lookup_insert_eq. by eexists.
        - by rewrite lookup_insert_ne. }
      split; [done|]. split.
      { intros id Hn Hsome. exfalso. rewrite Ecs in Hsome.
        destruct (decide (campaignId s = id)) as [<-|Hne].
        - pose proof (inv_id _ _ I).
          destruct (inv_current _ _ I) as [x Hx]; [lia|]. congruence.
        - rewrite lookup_insert_ne, Hn in Hsome by done. by destruct Hsome. }
      split; [intros id _ Hdiff; by rewrite Etot in Hdiff|].
      split; [done|done].
  - destruct (contribute_spec _ _ _ _ _ I Hwf E)
      as (tr & total & Hid' & _ & _ & _ & _ & _ & _ & Eid & Ecs & Ect & _).
    split.
    { intros id Hsome. rewrite Ecs.
      destruct (decide (campaignId s = id)) as [<-|Hne].
      - rewrite lookup_insert_eq. by eexists.
      - by rewrite lookup_insert_ne. }
    split.
    { intros id a Hsome. rewrite Ect.
      destruct (decide ((campaignId s, sender m) = (id, a))) as [<-|Hne].
      - rewrite lookup_insert_eq. by eexists.
      - by rewrite lookup_insert_ne. }
    split.
    { intros id Hn Hsome. exfalso. rewrite Ecs in Hsome.
      destruct (decide (campaignId s = id)) as [<-|Hne].
      - pose proof (inv_id _ _ I).
        destruct (inv_current _ _ I) as [x Hx]; [lia|]. congruence.
      - rewrite lookup_insert_ne, Hn in Hsome by done. by destruct Hsome. }
    split.
    { intros id _ Hdiff. split; [eauto|].
      destruct (decide (campaignId s = id)) as [<-|Hne]; [done|].
      exfalso. apply Hdiff. unfold campaign. rewrite Ecs.
      by rewrite lookup_insert_ne. }
    split; [|done].
    intros id a Hdiff. split; [eauto|].
    destruct (decide ((campaignId s, sender m) = (id, a))) as [[= <- <-]|Hne];
      [done|].
    exfalso. apply Hdiff. rewrite Ect. by rewrite lookup_insert_ne.
  - destruct (close_spec _ _ _ _ I E)
      as (_ & Hid' & _ & _ & Eid & Ecs & Ect & _).
    rewrite Ect.
    assert (∀ id, totalRaised (campaign s' id) = totalRaised (campaign s id))
      as Etot.
    { intros id. unfold campaign. rewrite Ecs.
      destruct (decide (campaignId s = id)) as [<-|Hne].
      - by rewrite lookup_insert_eq.
      - by rewrite lookup_insert_ne. }
    split.
    { intros id Hsome. rewrite Ecs.
      destruct (decide (campaignId s = id)) as [<-|Hne].
      - rewrite lookup_insert_eq. by eexists.
      - by rewrite lookup_insert_ne. }
    split; [done|]. split.
    { intros id Hn Hsome. exfalso. rewrite Ecs in Hsome.
      destruct (decide (campaignId s = id)) as [<-|Hne].
      - pose proof (inv_id _ _ I).
        destruct (inv_current _ _ I) as [x Hx]; [lia|]. congruence.
      - rewrite lookup_insert_ne, Hn in Hsome by done. by destruct Hsome. }
    split; [intros id _ Hdiff; by rewrite Etot in Hdiff|].
    split; [done|done].
Qed.

End Ledger.

(** ** The lifecycle, the log and the tokens *)

Section Lifecycle.

Variables this paymentToken : address.

Abbreviation inv := (inv this).
Abbreviation reachable := (reachable this paymentToken).
Abbreviation wf_call := (wf_call this).

(** Every id up to the current one has a record. *)
Lemma records_exist s :
  reachable s → ∀ id, 1 <= id <= campaignId s → is_Some (campaigns s !! id).
Proof.
  induction 1 as [d f t Hf Ht Ha Hb Hd | m c s Hr IH Hwf]; intros id Hid.
  - simpl in Hid. lia.
  - pose proof (reachable_inv _ _ _ Hr) as I.
    pose proof (inv_step this paymentToken m c s I Hwf) as I'.
    destruct (step_frame this paymentToken m c s I Hwf)
      as (_ & Hids & _ & Hcs & _).
    destruct (decide (id = campaignId (step this paymentToken m c s))) as [->|Hne].
    + apply (inv_current _ _ I'). lia.
    + rewrite Hcs by done. apply IH. lia.
Qed.

(** X1. At most one campaign is open, and it is the current one: every id from
    1 to [campaignId] has a record whose aggregate handle is initialised,
    every campaign before the current one is finalized, and nothing is stored
    under any other id. *)
Theorem single_open_campaign s :
  reachable s →
  (∀ id, 1 <= id <= campaignId s →
     is_Some (campaigns s !! id) ∧
     isInitialized (totalRaised (campaign s id)) = true) ∧
  (∀ id, 1 <= id < campaignId s → finalized (campaign s id) = true) ∧
  (∀ id, id < 1 ∨ campaignId s < id →
     campaigns s !! id = None ∧ ∀ a, contributions s !! (id, a) = None).
Proof.
  intros R. pose proof (reachable_inv _ _ _ R) as I.
  split; [|split].
  - intros id Hid. destruct (records_exist s R id Hid) as [c Hc].
    split; [by eexists|]. unfold campaign. rewrite Hc. simpl.
    apply (inv_campaigns _ _ I) in Hc.
    unfold isInitialized. apply negb_true_iff, N.eqb_neq. lia.
  - intros id Hid. destruct (records_exist s R id) as [c Hc]; [lia|].
    unfold campaign. rewrite Hc. simpl.
    apply (inv_past _ _ I id c Hc). lia.
  - intros id Hid. split.
    + destruct (campaigns s !! id) as [c|] eqn:E; [|done].
      apply (inv_campaigns _ _ I) in E. lia.
    + intros a. destruct (contributions s !! (id, a)) as [h|] eqn:E; [|done].
      apply (inv_contributions _ _ I) in E. lia.
Qed.

Lemma replay_snoc evs e :
  replay (evs ++ [e]) = replay evs ≫= fun st => log_step st e.
Proof. unfold replay. by rewrite foldl_snoc. Qed.

(** X2. The event log follows the campaign lifecycle: replayed from the start,
    every event fits ([CampaignConfigured] opens the next id or updates the
    open one, [ContributionReceived] and [CampaignClosed] carry the id of the
    open campaign, nothing follows a [CampaignClosed] but the configuration of
    the next id), and the replay ends in the ledger's own state: the current
    id, open exactly when the current campaign is not finalized. *)
Theorem event_log_follows_lifecycle s :
  reachable s →
  replay (events s) =
    Some (campaignId s,
          negb (campaignId s =? 0) &&
          negb (finalized (campaign s (campaignId s)))).
Proof.
  induction 1 as [d f t Hf Ht Ha Hb Hd | m c s Hr IH Hwf]; [done|].
  pose proof (reachable_inv _ _ _ Hr) as I.
  pose proof (inv_id _ _ I) as Hrange.
  destruct (step_cases this paymentToken m c s)
    as [E|[(n & t & e & -> & E)|[(i & ret & -> & E)|(p & -> & E)]]].
  - by rewrite E.
  - set (s' := step this paymentToken m (Configure n t e) s) in *.
    destruct (configure_ok_spec this _ _ _ _ _ _ I E)
      as (_ & _ & _ & _ & _ & _ & _ & Eev &
          [(Hnew & _ & Eid & Ecs & _)|(Hid & Hfin & Eid & Ecs & _)]).
    + rewrite Eev, replay_snoc, IH. simpl.
      assert (negb (campaignId s =? 0) &&
              negb (finalized (campaign s (campaignId s))) = false) as ->.
      { destruct Hnew as [->| ->]; [done|]. by rewrite andb_false_r. }
      rewrite Eid, Z.eqb_refl. unfold campaign.
      rewrite Ecs, lookup_insert_eq. simpl.
      assert ((campaignId s + 1 =? 0) = false) as -> by lia. done.
    + rewrite Eev, replay_snoc, IH. simpl.
      apply Z.eqb_neq in Hid. rewrite Hid, Hfin. simpl.
      rewrite Eid, Z.eqb_refl. unfold campaign.
      rewrite Ecs, lookup_insert_eq. simpl. by rewrite Hid.
  - set (s' := step this paymentToken m (Contribute i) s) in *.
    destruct (contribute_spec this paymentToken _ _ _ _ _ I Hwf E)
      as (tr & total & Hid & Hfin & _ & _ & _ & _ & _ & Eid & Ecs & _ & Eev & _).
    rewrite Eev, replay_snoc, IH. simpl.
    apply Z.eqb_neq in Hid. rewrite Hid, Hfin. simpl.
    rewrite Z.eqb_refl, Eid, Hid. simpl. unfold campaign at 1.
    rewrite Ecs, lookup_insert_eq. simpl. by rewrite Hfin.
  - set (s' := step this paymentToken m Close s) in *.
    destruct (close_spec this _ _ _ _ I E)
      as (_ & Hid & Hfin & _ & Eid & Ecs & _ & Eev & _).
    rewrite Eev, replay_snoc, IH. simpl.
    apply Z.eqb_neq in Hid. rewrite Hid, Hfin. simpl.
    rewrite Z.eqb_refl, Eid, Hid. simpl. unfold campaign.
    rewrite Ecs, lookup_insert_eq. done.
Qed.

(** The record of a finalized campaign is never written again. *)
Lemma finalized_kept m c s id :
  inv s → wf_call m c → finalized (campaign s id) = true →
  campaigns (step this paymentToken m c s) !! id = campaigns s !! id.
Proof.
  intros I Hwf Hfin.
  destruct (step_frame this paymentToken m c s I Hwf)
    as (_ & Hids & _ & Hcs & _ & Hcur & _).
  destruct (decide (id = campaignId (step this paymentToken m c s))) as [Heq|Hne];
    [|by apply Hcs].
  destruct (decide (id = campaignId s)) as [->|Hne]; [by apply Hcur|].
  exfalso. unfold campaign in Hfin.
  rewrite (campaign_absent this s id I) in Hfin by lia. done.
Qed.

(** The contributions to a finalized campaign are never added to. *)
Lemma finalized_sum_kept m c s id :
  inv s → wf_call m c → finalized (campaign s id) = true →
  sum_campaign (step this paymentToken m c s) id = sum_campaign s id.
Proof.
  intros I Hwf Hfin. unfold sum_campaign.
  destruct (step_cases this paymentToken m c s)
    as [E|[(n & t & e & -> & E)|[(i & ret & -> & E)|(p & -> & E)]]].
  - by rewrite E.
  - by apply other_calls_keep_sums.
  - set (s' := step this paymentToken m (Contribute i) s) in *.
    destruct (contribute_spec this paymentToken _ _ _ _ _ I Hwf E)
      as (tr & total & Hid & Hopen & _ & _ & _ & _ & _ & _ & _ & _ & Eev & _ &
          He & _).
    rewrite Eev, received_snoc, (received_extends (fhe s) (fhe s')); [|done|].
    2:{ intros ???. apply (inv_events _ _ I). }
    simpl. rewrite bool_decide_eq_false_2; [simpl; lia|].
    intros Heq. rewrite <- Heq in Hfin. congruence.
  - by apply other_calls_keep_sums.
Qed.

(** X3. The log of closures matches the ledger. A campaign is finalized
    exactly when the log holds a [CampaignClosed] event for its id; each such
    event names the owner as receiver, and its encrypted payout decrypts to
    the campaign's aggregate, which is the sum of the amounts of the
    campaign's [ContributionReceived] events. *)
Theorem closed_event_pays_contributions s :
  reachable s →
  (∀ id r p t, CampaignClosed id r p t ∈ events s →
     r = owner s ∧ finalized (campaign s id) = true ∧
     (p < next (fhe s))%N ∧
     decrypt (fhe s) p = decrypt (fhe s) (totalRaised (campaign s id)) ∧
     decrypt (fhe s) p = sum_campaign s id) ∧
  (∀ id, finalized (campaign s id) = true →
     ∃ r p t, CampaignClosed id r p t ∈ events s).
Proof.
  induction 1 as [d f t Hf Ht Ha Hb Hd | m c s Hr [IH1 IH2] Hwf].
  { split.
    - intros id r p t' Hin. by apply elem_of_nil in Hin.
    - intros id Hfin. unfold campaign in Hfin. simpl in Hfin.
      by rewrite lookup_empty in Hfin. }
  pose proof (reachable_inv _ _ _ Hr) as I.
  pose proof (inv_step this paymentToken m c s I Hwf) as I'.
  destruct (step_frame this paymentToken m c s I Hwf)
    as (Eo & _ & He & _).
  assert (∀ id r p t,
            CampaignClosed id r p t ∈ events s →
            let s1 := step this paymentToken m c s in
            r = owner s1 ∧ finalized (campaign s1 id) = true ∧
            (p < next (fhe s1))%N ∧
            decrypt (fhe s1) p = decrypt (fhe s1) (totalRaised (campaign s1 id)) ∧
            decrypt (fhe s1) p = sum_campaign s1 id) as Hold.
  { intros id r p t Hin. cbv zeta.
    destruct (IH1 id r p t Hin) as (-> & Hfin & Hp & _ & Hsum).
    assert (campaign (step this paymentToken m c s) id = campaign s id) as Ec.
    { unfold campaign. by rewrite finalized_kept. }
    assert (decrypt (fhe (step this paymentToken m c s)) p =
            sum_campaign (step this paymentToken m c s) id) as Hs.
    { rewrite finalized_sum_kept by done.
      by rewrite (extends_decrypt (fhe s)). }
    split; [done|]. split; [by rewrite Ec|].
    split; [destruct He; lia|]. split; [|done].
    by rewrite Hs, (inv_sum_campaign _ _ I'). }
  destruct (step_cases this paymentToken m c s)
    as [E|[(n & t & e & -> & E)|[(i & ret & -> & E)|(p & -> & E)]]].
  - rewrite E in *. by split.
  - set (s' := step this paymentToken m (Configure n t e) s) in *.
    destruct (configure_ok_spec this _ _ _ _ _ _ I E)
      as (_ & _ & _ & _ & _ & _ & _ & Eev & Hcases).
    split.
    + intros id r p t' Hin. rewrite Eev in Hin.
      apply elem_of_app in Hin as [Hin|Hin]; [exact (Hold _ _ _ _ Hin)|].
      by apply list_elem_of_singleton in Hin.
    + intros id Hfin.
      assert (finalized (campaign s id) = true) as Hfin0.
      { unfold campaign in *.
        destruct Hcases as [(_ & _ & _ & Ecs & _)|(_ & _ & _ & Ecs & _)];
          rewrite Ecs in Hfin.
        - destruct (decide (campaignId s + 1 = id)) as [<-|Hne].
          + by rewrite lookup_insert_eq in Hfin.
          + by rewrite lookup_insert_ne in Hfin.
        - destruct (decide (campaignId s = id)) as [<-|Hne].
          + by rewrite lookup_insert_eq in Hfin.
          + by rewrite lookup_insert_ne in Hfin. }
      destruct (IH2 id Hfin0) as (r & p & t' & Hin).
      exists r, p, t'. rewrite Eev. apply elem_of_app. by left.
  - set (s' := step this paymentToken m (Contribute i) s) in *.
    destruct (contribute_spec this paymentToken _ _ _ _ _ I Hwf E)
      as (tr & total & _ & _ & _ & _ & _ & _ & _ & _ & Ecs & _ & Eev & _).
    split.
    + intros id r p t' Hin. rewrite Eev in Hin.
      apply elem_of_app in Hin as [Hin|Hin]; [exact (Hold _ _ _ _ Hin)|].
      by apply list_elem_of_singleton in Hin.
    + intros id Hfin.
      assert (finalized (campaign s id) = true) as Hfin0.
      { unfold campaign in *. rewrite Ecs in Hfin.
        destruct (decide (campaignId s = id)) as [<-|Hne].
        - by rewrite lookup_insert_eq in Hfin.
        - by rewrite lookup_insert_ne in Hfin. }
      destruct (IH2 id Hfin0) as (r & p & t' & Hin).
      exists r, p, t'. rewrite Eev. apply elem_of_app. by left.
  - set (s' := step this paymentToken m Close s) in *.
    destruct (close_spec this _ _ _ _ I E)
      as (_ & Hid & Hopen & _ & Eid & Ecs & _ & Eev & _ & _ & _ & Hp & Hdp & _).
    assert (finalized (campaign s' (campaignId s)) = true) as Hnow.
    { unfold campaign. by rewrite Ecs, lookup_insert_eq. }
    split.
    + intros id r p' t' Hin. rewrite Eev in Hin.
      apply elem_of_app in Hin as [Hin|Hin]; [exact (Hold _ _ _ _ Hin)|].
      apply list_elem_of_singleton in Hin. injection Hin as -> -> -> ->.
      assert (decrypt (fhe s') p = sum_campaign s' (campaignId s)) as Hs.
      { rewrite Hdp, (inv_vault _ _ I).
        apply Z.eqb_neq in Hid. rewrite Hid, Hopen. simpl.
        rewrite (inv_sum_campaign _ _ I). symmetry.
        by apply (other_calls_keep_sums this paymentToken m Close s). }
      split; [done|]. split; [done|]. split; [lia|]. split; [|done].
      by rewrite Hs, (inv_sum_campaign _ _ I').
    + intros id Hfin.
      destruct (decide (campaignId s = id)) as [<-|Hne].
      * exists (owner s), p, (timestamp m mod 2 ^ 64). rewrite Eev.
        apply elem_of_app. right. by apply list_elem_of_singleton.
      * assert (finalized (campaign s id) = true) as Hfin0.
        { unfold campaign in *. rewrite Ecs in Hfin.
          by rewrite lookup_insert_ne in Hfin. }
        destruct (IH2 id Hfin0) as (r & p' & t' & Hin).
        exists r, p', t'. rewrite Eev. apply elem_of_app. by left.
Qed.

Lemma configuredAs_snoc evs e id :
  configuredAs (evs ++ [e]) id =
  match e with
  | CampaignConfigured id' n t e' =>
      if bool_decide (id' = id) then Some (n, t, e') else configuredAs evs id
  | _ => configuredAs evs id
  end.
Proof. unfold configuredAs. rewrite foldl_snoc. by destruct e. Qed.

(** X4. The stored metadata of a campaign is what its latest
    [CampaignConfigured] event says: for every campaign with a record, name,
    target and end time are those of the last configuration event carrying its
    id, and an id without a record has no such event. *)
Theorem metadata_is_latest_configured_event s :
  reachable s →
  (∀ id c, campaigns s !! id = Some c →
     configuredAs (events s) id =
       Some (name c, targetAmount c, endTimestamp c)) ∧
  (∀ id, campaigns s !! id = None → configuredAs (events s) id = None).
Proof.
  induction 1 as [d f t Hf Ht Ha Hb Hd | m c s Hr [IH1 IH2] Hwf]; [done|].
  pose proof (reachable_inv _ _ _ Hr) as I.
  pose proof (inv_id _ _ I) as Hrange.
  destruct (step_cases this paymentToken m c s)
    as [E|[(n & t & e & -> & E)|[(i & ret & -> & E)|(p & -> & E)]]].
  - rewrite E. by split.
  - set (s' := step this paymentToken m (Configure n t e) s) in *.
    destruct (configure_ok_spec this _ _ _ _ _ _ I E)
      as (_ & _ & _ & _ & _ & _ & _ & Eev & Hcases).
    assert (∃ h, campaigns s' =
                 <[campaignId s' := mkCampaign n t e false h]> (campaigns s))
      as [h Ecs].
    { destruct Hcases as [(_ & _ & Eid & Ecs & _)|(_ & _ & Eid & Ecs & _)];
        rewrite Eid; eauto. }
    rewrite Eev, Ecs. split.
    + intros id c Hc. rewrite configuredAs_snoc.
      destruct (decide (campaignId s' = id)) as [Heq|Hne].
      * rewrite bool_decide_eq_true_2 by done.
        rewrite Heq, lookup_insert_eq in Hc. by injection Hc as <-.
      * rewrite bool_decide_eq_false_2 by done.
        rewrite lookup_insert_ne in Hc by done. by apply IH1.
    + intros id Hc. rewrite configuredAs_snoc.
      destruct (decide (campaignId s' = id)) as [Heq|Hne].
      * by rewrite Heq, lookup_insert_eq in Hc.
      * rewrite bool_decide_eq_false_2 by done.
        rewrite lookup_insert_ne in Hc by done. by apply IH2.
  - set (s' := step this paymentToken m (Contribute i) s) in *.
    destruct (contribute_spec this paymentToken _ _ _ _ _ I Hwf E)
      as (tr & total & Hid & _ & _ & _ & _ & _ & _ & _ & Ecs & _ & Eev & _).
    destruct (inv_current _ _ I) as [c0 Hc0]; [lia|].
    rewrite Eev, Ecs. unfold campaign. rewrite Hc0. simpl. split.
    + intros id c Hc. rewrite configuredAs_snoc.
      destruct (decide (campaignId s = id)) as [Heq|Hne].
      * rewrite Heq, lookup_insert_eq in Hc. injection Hc as <-. simpl.
        rewrite <- Heq. by apply IH1.
      * rewrite lookup_insert_ne in Hc by done. by apply IH1.
    + intros id Hc. rewrite configuredAs_snoc.
      destruct (decide (campaignId s = id)) as [Heq|Hne].
      * by rewrite Heq, lookup_insert_eq in Hc.
      * rewrite lookup_insert_ne in Hc by done. by apply IH2.
  - set (s' := step this paymentToken m Close s) in *.
    destruct (close_spec this _ _ _ _ I E)
      as (_ & Hid & _ & _ & _ & Ecs & _ & Eev & _).
    destruct (inv_current _ _ I) as [c0 Hc0]; [lia|].
    rewrite Eev, Ecs. unfold campaign. rewrite Hc0. simpl. split.
    + intros id c Hc. rewrite configuredAs_snoc.
      destruct (decide (campaignId s = id)) as [Heq|Hne].
      * rewrite Heq, lookup_insert_eq in Hc. injection Hc as <-. simpl.
        rewrite <- Heq. by apply IH1.
      * rewrite lookup_insert_ne in Hc by done. by apply IH1.
    + intros id Hc. rewrite configuredAs_snoc.
      destruct (decide (campaignId s = id)) as [Heq|Hne].
      * by rewrite Heq, lookup_insert_eq in Hc.
      * rewrite lookup_insert_ne in Hc by done. by apply IH2.
Qed.

(** The log of contributions and the storage: an entry is initialised
    exactly when its contributor has a [ContributionReceived] event in the
    campaign, and the owner is allowed on the aggregate of every campaign
    that has such an event. *)
Lemma contributions_logged s :
  reachable s →
  (∀ id, (∃ a h, ContributionReceived id a h ∈ events s) →
     isAllowed (fhe s) (totalRaised (campaign s id)) (owner s)) ∧
  (∀ id c, isInitialized (contribution s id c) = true ↔
     ∃ h, ContributionReceived id c h ∈ events s).
Proof.
  induction 1 as [d f t Hf Ht Ha Hb Hd | m c s Hr (IH2 & IH3) Hwf].
  { split.
    - intros id (a & h & Hin). by apply elem_of_nil in Hin.
    - intros id c. split; [done|].
      intros [h Hin]. by apply elem_of_nil in Hin. }
  pose proof (reachable_inv _ _ _ Hr) as I.
  unfold isAllowed in *.
  destruct (step_cases this paymentToken m c s)
    as [E|[(n & t & e & -> & E)|[(i & ret & -> & E)|(p & -> & E)]]].
  - rewrite E. by split.
  - set (s' := step this paymentToken m (Configure n t e) s) in *.
    destruct (configure_ok_spec this _ _ _ _ _ _ I E)
      as (_ & _ & Eo & Ect & _ & Ea & _ & Eev & Hcases).
    assert (∀ id a h, ContributionReceived id a h ∈ events s' ↔
                      ContributionReceived id a h ∈ events s) as Hev.
    { intros id a h. rewrite Eev, elem_of_app, list_elem_of_singleton.
      split; [intros [?|?]; [done|discriminate]|by left]. }
    assert (∀ id, totalRaised (campaign s' id) = totalRaised (campaign s id) ∨
                  id = campaignId s + 1) as Htot.
    { intros id. unfold campaign.
      destruct Hcases as [(_ & _ & _ & Ecs & _)|(_ & _ & _ & Ecs & _)];
        rewrite Ecs.
      - destruct (decide (campaignId s + 1 = id)) as [<-|Hne]; [by right|].
        left. by rewrite lookup_insert_ne.
      - left. destruct (decide (campaignId s = id)) as [<-|Hne].
        + by rewrite lookup_insert_eq.
        + by rewrite lookup_insert_ne. }
    rewrite Ea, Eo. split.
    + intros id (a & h & Hin). apply Hev in Hin.
      destruct (Htot id) as [Et| ->].
      * rewrite Et. apply IH2. eauto.
      * apply (inv_events _ _ I) in Hin. lia.
    + intros id c. unfold contribution. rewrite Ect.
      rewrite (IH3 id c). by setoid_rewrite Hev.
  - set (s' := step this paymentToken m (Contribute i) s) in *.
    destruct (contribute_spec this paymentToken _ _ _ _ _ I Hwf E)
      as (tr & total & _ & _ & _ & _ & _ & _ & Eo & _ & Ecs & Ect & Eev & _ &
          _ & _ & Htr & Htot & _ & _ & _ & _ & _ & _ & Hacl).
    assert (∀ id a h, ContributionReceived id a h ∈ events s' ↔
              ContributionReceived id a h ∈ events s ∨
              (id = campaignId s ∧ a = sender m ∧ h = tr)) as Hev.
    { intros id a h. rewrite Eev, elem_of_app, list_elem_of_singleton.
      split; (intros [?|Heq]; [by left|right]).
      - by injection Heq as -> -> ->.
      - by destruct Heq as (-> & -> & ->). }
    rewrite Eo. split.
    + intros id (a & h & Hin). unfold campaign. rewrite Ecs.
      destruct (decide (id = campaignId s)) as [->|Hne].
      * rewrite lookup_insert_eq. simpl.
        apply Hacl. right; right; right; auto.
      * rewrite lookup_insert_ne by done.
        apply Hev in Hin as [Hin|(? & _)]; [|done].
        apply Hacl. left. apply IH2. eauto.
    + intros id c. unfold contribution. rewrite Ect.
      destruct (decide ((campaignId s, sender m) = (id, c))) as [[= <- <-]|Hne].
      * rewrite lookup_insert_eq. simpl. split.
        -- intros _. exists tr. apply Hev. by right.
        -- intros _. unfold isInitialized. apply negb_true_iff, N.eqb_neq. lia.
      * rewrite lookup_insert_ne by done. fold (contribution s id c).
        rewrite (IH3 id c). split; intros [h Hin]; exists h.
        -- apply Hev. by left.
        -- by apply Hev in Hin as [Hin|(-> & -> & _)].
  - set (s' := step this paymentToken m Close s) in *.
    destruct (close_spec this _ _ _ _ I E)
      as (_ & _ & _ & Eo & _ & Ecs & Ect & Eev & _ & _ & _ & Hp & _ & _ & _ &
          _ & Hacl).
    assert (∀ id a h, ContributionReceived id a h ∈ events s' ↔
                      ContributionReceived id a h ∈ events s) as Hev.
    { intros id a h. rewrite Eev, elem_of_app, list_elem_of_singleton.
      split; [intros [?|?]; [done|discriminate]|by left]. }
    assert (∀ id, totalRaised (campaign s' id) = totalRaised (campaign s id))
      as Htot.
    { intros id. unfold campaign. rewrite Ecs.
      destruct (decide (campaignId s = id)) as [<-|Hne].
      - by rewrite lookup_insert_eq.
      - by rewrite lookup_insert_ne. }
    rewrite Eo. split.
    + intros id (a & h & Hin). apply Hev in Hin. rewrite Htot.
      apply Hacl. left. apply IH2. eauto.
    + intros id c. unfold contribution. rewrite Ect.
      rewrite (IH3 id c). by setoid_rewrite Hev.
Qed.

(** X5. Decryption rights are there whenever there is something to decrypt. A
    contributor's entry is initialised exactly when the log holds a
    [ContributionReceived] event of that contributor for that campaign
    (otherwise [getContribution] returns the zero handle); and for every such
    event the contributor is allowed on their current running total and the
    owner is allowed on the campaign's current aggregate, whatever
    transactions came after. *)
Theorem grants_follow_contributions s :
  reachable s →
  (∀ id c, isInitialized (contribution s id c) = true ↔
     ∃ h, ContributionReceived id c h ∈ events s) ∧
  (∀ id c h, ContributionReceived id c h ∈ events s →
     isAllowed (fhe s) (contribution s id c) c ∧
     isAllowed (fhe s) (totalRaised (campaign s id)) (owner s)).
Proof.
  intros R. pose proof (reachable_inv _ _ _ R) as I.
  destruct (contributions_logged s R) as [H1 H2].
  split; [done|]. intros id c h Hin. split.
  - apply (inv_acl_own _ _ I), H2. eauto.
  - apply H1. eauto.
Qed.

(** X6. The owner can always open a new round with at most two transactions:
    from any reachable state, [closeCampaign] followed by [configureCampaign]
    with an end time in the future (both sent by the owner) leaves the ledger
    with the next campaign id, active, with the given metadata, an aggregate
    that decrypts to zero and no contribution entry. The first call finalizes
    an open campaign and reverts harmlessly otherwise. *)
Theorem owner_can_always_open_round s m1 m2 n t e :
  reachable s → wf_call m1 Close →
  sender m1 = owner s → sender m2 = owner s →
  timestamp m2 < e → campaignId s < uint256_max →
  ∃ s2,
    configureCampaign m2 n t e (step this paymentToken m1 Close s) =
      Ok (tt, s2) ∧
    campaignId s2 = campaignId s + 1 ∧
    isActive (timestamp m2) s2 = Ok true ∧
    name (campaign s2 (campaignId s2)) = n ∧
    targetAmount (campaign s2 (campaignId s2)) = t ∧
    endTimestamp (campaign s2 (campaignId s2)) = e ∧
    decrypt (fhe s2) (totalRaised (campaign s2 (campaignId s2))) = 0 ∧
    ∀ a, contribution s2 (campaignId s2) a = 0%N.
Proof.
  intros R Hwf Hs1 Hs2 He Hmax.
  pose proof (reachable_inv _ _ _ R) as I.
  pose proof (inv_step this paymentToken m1 Close s I Hwf) as I1.
  set (s1 := step this paymentToken m1 Close s) in *.
  assert (owner s1 = owner s ∧ campaignId s1 = campaignId s ∧
          ((campaignId s1 =? 0) || finalized (campaign s1 (campaignId s1))) = true)
    as (Eo & Eid & Hnew).
  { unfold s1, step, execute.
    pose proof (close_succeeds this m1 s) as Hsucc.
    destruct (closeCampaign this m1 s) as [[p s']|err] eqn:E; simpl.
    - destruct (close_spec this _ _ _ _ I E)
        as (_ & _ & _ & Eo & Eid & Ecs & _).
      split; [done|]. split; [done|]. rewrite Eid. unfold campaign.
      rewrite Ecs, lookup_insert_eq. simpl. apply orb_true_r.
    - split; [done|]. split; [done|]. simpl in Hsucc.
      apply N.eqb_eq in Hs1. rewrite Hs1 in Hsucc. simpl in Hsucc.
      destruct (campaignId s =? 0); [done|]. simpl in *.
      by destruct (finalized (campaign s (campaignId s))). }
  pose proof (inv_id _ _ I1) as Hrange.
  assert (is_uint64 0) as H0 by (unfold is_uint64; rewrite uint64_max_val; lia).
  destruct (fresh_spec 0 (fhe s1) (inv_fhe _ _ I1) H0) as (_ & _ & _ & _ & Hd & _).
  eexists. split.
  { rewrite (configure_spec this) by done.
    rewrite Eo. apply N.eqb_eq in Hs2. rewrite Hs2. simpl.
    assert ((e <=? timestamp m2) = false) as -> by lia.
    rewrite Hnew.
    assert ((campaignId s1 + 1 <=? uint256_max) = true) as -> by lia.
    reflexivity. }
  cbn [campaignId fhe]. split; [lia|].
  unfold isActive, campaign, contribution.
  cbn [campaignId campaigns contributions fhe].
  rewrite lookup_insert_eq.
  cbn [default from_option id finalized endTimestamp name targetAmount
       totalRaised].
  assert ((campaignId s1 + 1 =? 0) = false) as -> by lia.
  assert ((timestamp m2 <? e) = true) as -> by lia.
  repeat (split; [done|]).
  intros a. destruct (contributions s1 !! (campaignId s1 + 1, a)) as [h|] eqn:Ec;
    [|done].
  apply (inv_contributions _ _ I1) in Ec. lia.
Qed.

Lemma token_update_operators from to amount f t tr f' t' :
  token_update from to amount f t = Ok (tr, f', t') →
  operators t' = operators t.
Proof.
  unfold token_update.
  destruct (negb (isInitialized (confidentialBalanceOf t from))); [done|].
  simpl. by intros [= _ _ <-].
Qed.

(** The ledger never touches the operator approvals of the token. *)
Lemma step_operators m c s :
  operators (token (step this paymentToken m c s)) = operators (token s).
Proof.
  unfold step, execute. destruct c as [n t e|i|].
  - unfold configureCampaign, onlyOwner, require.
    destruct (sender m =? owner s)%N; simpl; [|done].
    destruct (negb (e <=? timestamp m)); simpl; [|done].
    destruct ((campaignId s =? 0) || finalized (campaign s (campaignId s)));
      simpl.
    + destruct (campaignId s + 1 <=? uint256_max); simpl; [|done].
      by destruct (negb (isInitialized _)).
    + by destruct (negb (isInitialized _)).
  - unfold contribute, require, fromExternal, confidentialTransferFrom.
    destruct (negb (campaignId s =? 0)); simpl; [|done].
    destruct (negb (finalized (campaign s (campaignId s)))); simpl; [|done].
    destruct (negb (timestamp m >=? endTimestamp (campaign s (campaignId s))));
      simpl; [|done].
    destruct (proofValid i); simpl; [|done].
    destruct (negb (isOperator (token s) (sender m) this (timestamp m)));
      simpl; [done|].
    match goal with
    | |- context [token_update ?a ?b ?c ?d ?e] =>
        destruct (token_update a b c d e) as [[[tr f2] t2]|] eqn:Etu
    end; simpl; [|done].
    by apply token_update_operators in Etu.
  - unfold closeCampaign, onlyOwner, require, confidentialTransfer.
    destruct (sender m =? owner s)%N; simpl; [|done].
    destruct (negb (campaignId s =? 0)); simpl; [|done].
    destruct (negb (finalized (campaign s (campaignId s)))); simpl; [|done].
    destruct (negb (isInitialized (confidentialBalanceOf (token s) this)));
      simpl; [done|].
    match goal with
    | |- context [token_update ?a ?b ?c ?d ?e] =>
        destruct (token_update a b c d e) as [[[tr f2] t2]|] eqn:Etu
    end; simpl; [|done].
    by apply token_update_operators in Etu.
Qed.

(** X7. Where tokens can go. A transaction leaves the operator approvals and
    the balance of every account other than its caller, the vault and the
    owner as they were. A balance goes down in two cases only: the caller's
    own, by a [contribute], and the vault's, by the owner's [closeCampaign].
    What a transaction takes from its caller is never more than it adds to the
    caller's running total, and for a [contribute] it is exactly that. *)
Theorem token_flow s m c :
  reachable s → wf_call m c →
  let s' := step this paymentToken m c s in
  operators (token s') = operators (token s) ∧
  (∀ a, a ≠ this → a ≠ owner s → a ≠ sender m →
     balances (token s') !! a = balances (token s) !! a) ∧
  (∀ a,
     decrypt (fhe s') (confidentialBalanceOf (token s') a) <
       decrypt (fhe s) (confidentialBalanceOf (token s) a) →
     (a = sender m ∧ ∃ i, c = Contribute i) ∨
     (a = this ∧ c = Close ∧ sender m = owner s)) ∧
  (decrypt (fhe s) (confidentialBalanceOf (token s) (sender m)) -
     decrypt (fhe s') (confidentialBalanceOf (token s') (sender m)) <=
   decrypt (fhe s') (contribution s' (campaignId s) (sender m)) -
     decrypt (fhe s) (contribution s (campaignId s) (sender m))) ∧
  (∀ i, c = Contribute i →
     decrypt (fhe s) (confidentialBalanceOf (token s) (sender m)) -
       decrypt (fhe s') (confidentialBalanceOf (token s') (sender m)) =
     decrypt (fhe s') (contribution s' (campaignId s) (sender m)) -
       decrypt (fhe s) (contribution s (campaignId s) (sender m))).
Proof.
  intros R Hwf s'. pose proof (reachable_inv _ _ _ R) as I.
  pose proof (inv_fhe _ _ I) as Hf. pose proof (inv_token _ _ I) as Ht.
  split; [apply step_operators|].
  assert (∀ f' a, extends (fhe s) f' →
            decrypt f' (confidentialBalanceOf (token s) a) =
            decrypt (fhe s) (confidentialBalanceOf (token s) a)) as Hsame.
  { intros f' a He. apply extends_decrypt; [done|]. by apply balance_lt. }
  destruct (step_cases this paymentToken m c s)
    as [E|[(n & t & e & -> & E)|[(i & ret & -> & E)|(p & -> & E)]]];
    fold s' in E.
  - rewrite E. split; [done|]. split; [lia|]. split; [lia|]. intros; lia.
  - destruct (configure_ok_spec this _ _ _ _ _ _ I E)
      as (_ & _ & _ & Ect & Etk & _ & He & _).
    assert (contribution s' (campaignId s) (sender m) =
            contribution s (campaignId s) (sender m)) as ->.
    { unfold contribution. by rewrite Ect. }
    rewrite Etk, !(Hsame (fhe s')) by done.
    rewrite (extends_decrypt (fhe s) (fhe s'));
      [|done|by apply (contribution_lt this)].
    split; [done|].
    split; [intros a Hlt; rewrite (Hsame (fhe s')) in Hlt by done; lia|].
    split; [lia|]. intros; lia.
  - pose proof (inv_step this paymentToken m _ s I Hwf) as I'. fold s' in I'.
    destruct (contribute_spec this paymentToken _ _ _ _ _ I Hwf E)
      as (tr & total & _ & _ & _ & _ & _ & _ & _ & _ & _ & Ect & _ & _ & He & _ &
          _ & _ & _ & Hret & _ & Hvault & Hbal & Hoth & _).
    pose proof (decrypt_nonneg (fhe s') tr (inv_fhe _ _ I')) as Htr.
    assert (contribution s' (campaignId s) (sender m) = ret) as ->.
    { unfold contribution. by rewrite Ect, lookup_insert_eq. }
    split; [|split; [|split; [lia|intros; lia]]].
    + intros a Ha _ Hs. by apply Hoth.
    + intros a Hlt.
      destruct (decide (a = sender m)) as [->|Hne]; [eauto|].
      exfalso. destruct (decide (a = this)) as [->|Hnt]; [lia|].
      unfold confidentialBalanceOf in Hlt at 1.
      rewrite Hoth in Hlt by done.
      fold (confidentialBalanceOf (token s) a) in Hlt.
      rewrite (Hsame (fhe s')) in Hlt by done. lia.
  - destruct (close_spec this _ _ _ _ I E)
      as (Hs & _ & _ & _ & _ & _ & Ect & _ & _ & He & _ & _ & _ & _ & Hown &
          Hoth & _).
    assert (contribution s' (campaignId s) (sender m) =
            contribution s (campaignId s) (sender m)) as ->.
    { unfold contribution. by rewrite Ect. }
    rewrite (extends_decrypt (fhe s) (fhe s')
               (contribution s (campaignId s) (sender m)));
      [|done|by apply (contribution_lt this)].
    pose proof (decrypt_nonneg (fhe s) (confidentialBalanceOf (token s) this) Hf)
      as Hv.
    assert (∀ a, a ≠ this →
              decrypt (fhe s) (confidentialBalanceOf (token s) a) <=
              decrypt (fhe s') (confidentialBalanceOf (token s') a)) as Hle.
    { intros a Ha. destruct (decide (a = owner s)) as [->|Hne].
      - rewrite Hown. lia.
      - unfold confidentialBalanceOf at 2. rewrite Hoth by done.
        fold (confidentialBalanceOf (token s) a).
        rewrite (Hsame (fhe s')) by done. lia. }
    destruct Hwf as (Hns & _).
    split; [|split; [|split]].
    + intros a Ha Ho _. by apply Hoth.
    + intros a Hlt. destruct (decide (a = this)) as [->|Ha]; [by right|].
      specialize (Hle a Ha). lia.
    + specialize (Hle (sender m) Hns). lia.
    + intros i Hi. discriminate Hi.
Qed.

(** X8. [isActive] is the view of [contribute]'s own guards: evaluated at the
    block time of a call, it is false exactly when that [contribute] reverts
    with one of the three campaign errors, and when it is true the call can
    only fail inside a collaborator. *)
Theorem isActive_matches_contribute s m i :
  (isActive (timestamp m) s = Ok false ↔
     contribute this paymentToken m i s = Revert CampaignNotConfigured ∨
     contribute this paymentToken m i s = Revert CampaignAlreadyFinalized ∨
     contribute this paymentToken m i s = Revert CampaignEnded) ∧
  (isActive (timestamp m) s = Ok true ↔
     succeeds (contribute this paymentToken m i s) = true ∨
     contribute this paymentToken m i s = Revert InvalidInputProof ∨
     contribute this paymentToken m i s = Revert TokenUnauthorizedSpender ∨
     contribute this paymentToken m i s = Revert TokenZeroBalance).
Proof.
  pose proof (contribute_result this paymentToken m i s) as H.
  unfold isActive.
  destruct (campaignId s =? 0) eqn:Hid;
    [apply Z.eqb_eq in Hid|apply Z.eqb_neq in Hid].
  - destruct (contribute this paymentToken m i s) as [r|[]]; simpl in *;
      try (exfalso; tauto); try lia.
    split; split; try done; auto;
      intros [?|[?|[?|?]]]; discriminate.
  - destruct (finalized (campaign s (campaignId s))) eqn:Hfin.
    + destruct (contribute this paymentToken m i s) as [r|[]]; simpl in *;
        try (exfalso; intuition congruence).
      split; split; try done; auto;
        intros [?|[?|[?|?]]]; discriminate.
    + destruct (timestamp m <? endTimestamp (campaign s (campaignId s))) eqn:Ht;
        [apply Z.ltb_lt in Ht|apply Z.ltb_ge in Ht];
        destruct (contribute this paymentToken m i s) as [r|[]]; simpl in *;
        try (exfalso; intuition (congruence || lia));
        (split; split; try done; auto;
         try (intros [?|[?|?]]; discriminate);
         try (intros [?|[?|[?|?]]]; discriminate)).
Qed.

(** X9. A freshly deployed vault accepts one thing only: of all transactions,
    whoever sends them, exactly the deployer's [configureCampaign] with an end
    time in the future succeeds; every [contribute] and [closeCampaign]
    reverts with [CampaignNotConfigured] (a [closeCampaign] of another account
    with the owner check). *)
Theorem fresh_vault_only_configure deployer f t m c :
  succeeds (execute this paymentToken m c (deploy deployer f t)) =
    match c with
    | Configure _ _ e => (sender m =? deployer)%N && (timestamp m <? e)
    | _ => false
    end ∧
  (∀ i, contribute this paymentToken m i (deploy deployer f t) =
          Revert CampaignNotConfigured) ∧
  closeCampaign this m (deploy deployer f t) =
    Revert (if (sender m =? deployer)%N then CampaignNotConfigured
            else OwnableUnauthorizedAccount).
Proof.
  split; [|split].
  - destruct c as [n tg e|i|]; unfold execute.
    + unfold configureCampaign, onlyOwner, require. simpl.
      destruct (sender m =? deployer)%N; simpl; [|done].
      destruct (e <=? timestamp m) eqn:He; simpl.
      * symmetry. apply Z.ltb_ge. lia.
      * symmetry. apply Z.ltb_lt. lia.
    + done.
    + unfold closeCampaign, onlyOwner, require. simpl.
      by destruct (sender m =? deployer)%N.
  - done.
  - unfold closeCampaign, onlyOwner, require. simpl.
    by destruct (sender m =? deployer)%N.
Qed.

(** X10. What an account other than the owner cannot do: whatever it sends,
    the campaign counter and every campaign's name, target, end time and
    finalized flag stay as they are, no token leaves the vault, and the
    owner's token balance is not touched. All it can change is what its own
    [contribute] adds. *)
Theorem only_owner_governs s m c :
  reachable s → wf_call m c → sender m ≠ owner s →
  let s' := step this paymentToken m c s in
  owner s' = owner s ∧ campaignId s' = campaignId s ∧
  (∀ id, name (campaign s' id) = name (campaign s id) ∧
         targetAmount (campaign s' id) = targetAmount (campaign s id) ∧
         endTimestamp (campaign s' id) = endTimestamp (campaign s id) ∧
         finalized (campaign s' id) = finalized (campaign s id)) ∧
  decrypt (fhe s) (confidentialBalanceOf (token s) this) <=
    decrypt (fhe s') (confidentialBalanceOf (token s') this) ∧
  decrypt (fhe s') (confidentialBalanceOf (token s') (owner s)) =
    decrypt (fhe s) (confidentialBalanceOf (token s) (owner s)) ∧
  (s' ≠ s → ∃ i, c = Contribute i).
Proof.
  intros R Hwf Hno s'. pose proof (reachable_inv _ _ _ R) as I.
  pose proof (inv_fhe _ _ I) as Hf. pose proof (inv_token _ _ I) as Ht.
  destruct (step_cases this paymentToken m c s)
    as [E|[(n & t & e & -> & E)|[(i & ret & -> & E)|(p & -> & E)]]];
    fold s' in E.
  - rewrite E. repeat split; try done; try lia.
  - by destruct (configure_ok_spec this _ _ _ _ _ _ I E) as (Hs & _).
  - pose proof (inv_step this paymentToken m _ s I Hwf) as I'. fold s' in I'.
    destruct (contribute_spec this paymentToken _ _ _ _ _ I Hwf E)
      as (tr & total & _ & _ & _ & _ & _ & _ & Eo & Eid & Ecs & _ & _ & _ & He &
          _ & _ & _ & _ & _ & _ & Hvault & _ & Hoth & _).
    pose proof (decrypt_nonneg (fhe s') tr (inv_fhe _ _ I')) as Htr.
    split; [done|]. split; [done|]. split; [|split; [lia|split; [|eauto]]].
    + intros id. unfold campaign. rewrite Ecs.
      destruct (decide (campaignId s = id)) as [<-|Hne].
      * by rewrite lookup_insert_eq.
      * by rewrite lookup_insert_ne.
    + unfold confidentialBalanceOf at 1.
      rewrite Hoth; [|done|apply (inv_owner _ _ I)].
      fold (confidentialBalanceOf (token s) (owner s)).
      apply extends_decrypt; [done|]. by apply balance_lt.
  - by destruct (close_spec this _ _ _ _ I E) as (Hs & _).
Qed.

Lemma token_update_initialized from to amount f t tr f' t' :
  token_update from to amount f t = Ok (tr, f', t') →
  isInitialized (confidentialBalanceOf t' to) = true ∧
  (from ≠ to → confidentialBalanceOf t' from = next f).
Proof.
  unfold token_update.
  destruct (negb (isInitialized (confidentialBalanceOf t from))); [done|].
  simpl. intros [= _ _ <-]. unfold confidentialBalanceOf, isInitialized. simpl.
  split.
  - rewrite lookup_insert_eq. simpl. apply negb_true_iff, N.eqb_neq. lia.
  - intros Hne. by rewrite lookup_insert_ne, lookup_insert_eq.
Qed.

(** After a successful [contribute] the vault has an initialised balance. *)
Lemma contribute_vault_initialized m i s ret s' :
  contribute this paymentToken m i s = Ok (ret, s') →
  isInitialized (confidentialBalanceOf (token s') this) = true.
Proof.
  unfold contribute, require, fromExternal, confidentialTransferFrom.
  destruct (negb (campaignId s =? 0)); simpl; [|done].
  destruct (negb (finalized (campaign s (campaignId s)))); simpl; [|done].
  destruct (negb (timestamp m >=? endTimestamp (campaign s (campaignId s))));
    simpl; [|done].
  destruct (proofValid i); simpl; [|done].
  destruct (negb (isOperator (token s) (sender m) this (timestamp m)));
    simpl; [done|].
  match goal with
  | |- context [token_update ?a ?b ?c ?d ?e] =>
      destruct (token_update a b c d e) as [[[tr f2] t2]|] eqn:Etu
  end; simpl; [|done].
  intros [= _ <-]. simpl.
  by apply token_update_initialized in Etu as [? _].
Qed.

(** What [closeCampaign] does to the token: nothing when the vault balance
    is uninitialised, and otherwise the vault gets a new balance handle. *)
Lemma close_token m s payout s' :
  inv s → closeCampaign this m s = Ok (payout, s') →
  if isInitialized (confidentialBalanceOf (token s) this)
  then confidentialBalanceOf (token s') this = next (fhe s)
  else token s' = token s.
Proof.
  intros I. pose proof (inv_owner _ _ I) as Ho.
  unfold closeCampaign, onlyOwner, require, confidentialTransfer.
  destruct (sender m =? owner s)%N; simpl; [|done].
  destruct (negb (campaignId s =? 0)); simpl; [|done].
  destruct (negb (finalized (campaign s (campaignId s)))); simpl; [|done].
  destruct (isInitialized (confidentialBalanceOf (token s) this)) eqn:Hinit;
    simpl.
  - match goal with
    | |- context [token_update ?a ?b ?c ?d ?e] =>
        destruct (token_update a b c d e) as [[[tr f2] t2]|] eqn:Etu
    end; simpl; [|done].
    intros [= _ <-]. simpl.
    apply token_update_initialized in Etu as [_ Hfrom]. by apply Hfrom.
  - by intros [= _ <-].
Qed.

(** X11. The vault's token balance is initialised exactly when the log holds a
    [ContributionReceived] event, of any campaign. So [closeCampaign] takes
    its branch without a token call exactly for a vault that never received a
    contribution: it then leaves the token untouched and pays out an
    encrypted zero which the owner and the contract are allowed on; for a
    vault that has received one, the token is called and its state changes. *)
Theorem close_without_transfer s :
  reachable s →
  (isInitialized (confidentialBalanceOf (token s) this) = true ↔
   ∃ id a h, ContributionReceived id a h ∈ events s) ∧
  (∀ m payout s',
     closeCampaign this m s = Ok (payout, s') →
     (∀ id a h, ContributionReceived id a h ∉ events s) →
     token s' = token s ∧ decrypt (fhe s') payout = 0 ∧
     isAllowed (fhe s') payout (owner s) ∧ isAllowed (fhe s') payout this) ∧
  (∀ m payout s',
     closeCampaign this m s = Ok (payout, s') →
     (∃ id a h, ContributionReceived id a h ∈ events s) →
     token s' ≠ token s).
Proof.
  intros R.
  assert (isInitialized (confidentialBalanceOf (token s) this) = true ↔
          ∃ id a h, ContributionReceived id a h ∈ events s) as Hiff.
  { induction R as [d f t Hf Ht Ha Hb Hd | m c s Hr IH Hwf].
    - unfold confidentialBalanceOf. simpl. rewrite Hb. simpl. split; [done|].
      intros (id & a & h & Hin). by apply elem_of_nil in Hin.
    - pose proof (reachable_inv _ _ _ Hr) as I.
      destruct (step_cases this paymentToken m c s)
        as [E|[(n & t & e & -> & E)|[(i & ret & -> & E)|(p & -> & E)]]].
      + by rewrite E.
      + set (s' := step this paymentToken m (Configure n t e) s) in *.
        destruct (configure_ok_spec this _ _ _ _ _ _ I E)
          as (_ & _ & _ & _ & Etk & _ & _ & Eev & _).
        rewrite Etk, IH, Eev.
        split; intros (id & a & h & Hin); exists id, a, h.
        * apply elem_of_app. by left.
        * apply elem_of_app in Hin as [Hin|Hin]; [done|].
          by apply list_elem_of_singleton in Hin.
      + set (s' := step this paymentToken m (Contribute i) s) in *.
        destruct (contribute_spec this paymentToken _ _ _ _ _ I Hwf E)
          as (tr & total & _ & _ & _ & _ & _ & _ & _ & _ & _ & _ & Eev & _).
        rewrite (contribute_vault_initialized _ _ _ _ _ E), Eev.
        split; [|done]. intros _.
        exists (campaignId s), (sender m), tr.
        apply elem_of_app. right. by apply list_elem_of_singleton.
      + set (s' := step this paymentToken m Close s) in *.
        destruct (close_spec this _ _ _ _ I E)
          as (_ & _ & _ & _ & _ & _ & _ & Eev & _).
        pose proof (close_token _ _ _ _ I E) as Htk.
        pose proof (inv_fhe _ _ I) as (Hn & _).
        assert ((∃ id a h, ContributionReceived id a h ∈ events s') ↔
                ∃ id a h, ContributionReceived id a h ∈ events s) as ->.
        { rewrite Eev.
          split; intros (id & a & h & Hin); exists id, a, h.
          - apply elem_of_app in Hin as [Hin|Hin]; [done|].
            by apply list_elem_of_singleton in Hin.
          - apply elem_of_app. by left. }
        destruct (isInitialized (confidentialBalanceOf (token s) this)) eqn:Hi.
        * rewrite Htk, <- IH. split; [done|]. intros _.
          unfold isInitialized. apply negb_true_iff, N.eqb_neq. lia.
        * by rewrite Htk, Hi. }
  split; [done|]. pose proof (reachable_inv _ _ _ R) as I. split.
  - intros m payout s' E Hnone.
    assert (isInitialized (confidentialBalanceOf (token s) this) = false) as Hi.
    { destruct (isInitialized (confidentialBalanceOf (token s) this)) eqn:Hi;
        [|done].
      destruct Hiff as [Hiff _]. destruct (Hiff eq_refl) as (id & a & h & Hin).
      by destruct (Hnone id a h). }
    pose proof (close_token _ _ _ _ I E) as Htk. rewrite Hi in Htk.
    destruct (close_spec this _ _ _ _ I E)
      as (_ & _ & _ & _ & _ & _ & _ & _ & _ & _ & _ & _ & Hd & _ & _ & _ & Hacl).
    split; [done|]. split.
    + rewrite Hd. unfold isInitialized in Hi.
      apply negb_false_iff, N.eqb_eq in Hi. rewrite Hi.
      apply decrypt_zero, (inv_fhe _ _ I).
    + split; apply Hacl; right; auto.
  - intros m payout s' E Hsome Heq.
    pose proof (close_token _ _ _ _ I E) as Htk.
    apply Hiff in Hsome. rewrite Hsome, Heq in Htk.
    pose proof (balance_lt _ _ this (inv_fhe _ _ I) (inv_token _ _ I)). lia.
Qed.

Lemma entries_sum_ext (f f' : FHE) (m : gmap (Z * address) euint64) id :
  (∀ k h, m !! k = Some h → decrypt f' h = decrypt f h) →
  entries_sum f' m id = entries_sum f m id.
Proof.
  intros H. unfold entries_sum. apply sumZ_ext. intros [k h] Hin; simpl.
  apply elem_of_map_to_list in Hin. by rewrite (H k h).
Qed.

Lemma entries_sum_insert (f : FHE) (m : gmap (Z * address) euint64) id k h :
  wf_fhe f →
  entries_sum f (<[k := h]> m) id =
    entries_sum f m id +
    (if k.1 =? id then decrypt f h - decrypt f (default 0%N (m !! k)) else 0).
Proof.
  intros Hf.
  assert (∀ m' : gmap (Z * address) euint64, m' !! k = None →
            entries_sum f (<[k := h]> m') id =
            (if k.1 =? id then decrypt f h else 0) + entries_sum f m' id) as Hfresh.
  { intros m' Hn. unfold entries_sum.
    by rewrite (sumZ_perm _ _
                 (fmap_Permutation _ _ _ (map_to_list_insert m' k h Hn))). }
  destruct (m !! k) as [h0|] eqn:E; simpl.
  - rewrite <- insert_delete_eq, Hfresh by apply lookup_delete_eq.
    unfold entries_sum at 2.
    rewrite <- (sumZ_perm _ _
                  (fmap_Permutation _ _ _ (map_to_list_delete m k h0 E))).
    rewrite fmap_cons, sumZ_cons. fold (entries_sum f (delete k m) id). simpl.
    destruct (k.1 =? id); lia.
  - rewrite Hfresh by done. rewrite decrypt_zero by done.
    destruct (k.1 =? id); lia.
Qed.

(** X16. The aggregate of a campaign is the sum of its contributors' running
    totals: in every reachable state and for every campaign id, [totalRaised]
    decrypts to the sum of the decrypted entries [contributions[id][c]] over
    all contributors [c]. *)
Theorem aggregate_is_sum_of_entries s :
  reachable s →
  ∀ id, decrypt (fhe s) (totalRaised (campaign s id)) =
        entries_sum (fhe s) (contributions s) id.
Proof.
  induction 1 as [d f t Hf Ht Ha Hb Hd | m c s Hr IH Hwf]; intros id.
  { unfold campaign, entries_sum. simpl. rewrite lookup_empty. simpl.
    rewrite map_to_list_empty. by apply decrypt_zero. }
  pose proof (reachable_inv _ _ _ Hr) as I.
  pose proof (inv_fhe _ _ I) as Hf.
  assert (∀ f', extends (fhe s) f' →
            entries_sum f' (contributions s) id =
            entries_sum (fhe s) (contributions s) id) as Hstable.
  { intros f' He. apply entries_sum_ext. intros [id' a] h Hl.
    apply extends_decrypt; [done|].
    apply (inv_contributions _ _ I) in Hl. lia. }
  assert (∀ f', extends (fhe s) f' →
            decrypt f' (totalRaised (campaign s id)) =
            decrypt (fhe s) (totalRaised (campaign s id))) as Htotal.
  { intros f' He. apply extends_decrypt; [done|]. by apply (total_lt this). }
  destruct (step_cases this paymentToken m c s)
    as [E|[(n & t & e & -> & E)|[(i & ret & -> & E)|(p & -> & E)]]].
  - rewrite E. apply IH.
  - set (s' := step this paymentToken m (Configure n t e) s) in *.
    destruct (configure_ok_spec this _ _ _ _ _ _ I E)
      as (_ & _ & _ & Ect & _ & _ & He & _ &
          [(_ & _ & _ & Ecs & Hd & _)|(_ & _ & _ & Ecs & _)]).
    + rewrite Ect, Hstable by done. unfold campaign. rewrite Ecs.
      destruct (decide (campaignId s + 1 = id)) as [<-|Hne].
      * rewrite lookup_insert_eq. simpl. rewrite Hd, <- IH.
        unfold campaign.
        rewrite (campaign_absent this s (campaignId s + 1) I) by lia.
        simpl. symmetry. by apply decrypt_zero.
      * rewrite lookup_insert_ne by done. fold (campaign s id).
        rewrite Htotal by done. apply IH.
    + rewrite Ect, Hstable by done. unfold campaign. rewrite Ecs.
      destruct (decide (campaignId s = id)) as [<-|Hne].
      * rewrite lookup_insert_eq. simpl.
        rewrite (Htotal (fhe s')) by done. apply IH.
      * rewrite lookup_insert_ne by done. fold (campaign s id).
        rewrite Htotal by done. apply IH.
  - set (s' := step this paymentToken m (Contribute i) s) in *.
    pose proof (inv_step this paymentToken m _ s I Hwf) as I'. fold s' in I'.
    destruct (contribute_spec this paymentToken _ _ _ _ _ I Hwf E)
      as (tr & total & _ & _ & _ & _ & _ & _ & _ & _ & Ecs & Ect & _ & _ & He &
          _ & _ & _ & _ & Hret & Htot & _).
    rewrite Ect, entries_sum_insert by apply (inv_fhe _ _ I').
    rewrite (entries_sum_ext (fhe s) (fhe s')), <- IH.
    2:{ intros [id' a] h Hl. apply extends_decrypt; [done|].
        apply (inv_contributions _ _ I) in Hl. lia. }
    fold (contribution s (campaignId s) (sender m)).
    rewrite (extends_decrypt (fhe s) (fhe s')
               (contribution s (campaignId s) (sender m)));
      [|done|by apply (contribution_lt this)].
    unfold campaign at 1. rewrite Ecs. cbn [fst].
    destruct (decide (campaignId s = id)) as [<-|Hne].
    + rewrite lookup_insert_eq, Z.eqb_refl. simpl. lia.
    + rewrite lookup_insert_ne by done. fold (campaign s id).
      apply Z.eqb_neq in Hne. rewrite Hne, Htotal by done. lia.
  - set (s' := step this paymentToken m Close s) in *.
    destruct (close_spec this _ _ _ _ I E)
      as (_ & _ & _ & _ & _ & Ecs & Ect & _ & _ & He & _).
    rewrite Ect, Hstable by done. unfold campaign. rewrite Ecs.
    destruct (decide (campaignId s = id)) as [<-|Hne].
    + rewrite lookup_insert_eq. simpl.
      rewrite (Htotal (fhe s')) by done. apply IH.
    + rewrite lookup_insert_ne by done. fold (campaign s id).
      rewrite Htotal by done. apply IH.
Qed.

End Lifecycle.

(** ** The open world *)

Section OpenWorld.

Variables this paymentToken : address.

Abbreviation reachable := (reachable this paymentToken).
Abbreviation wf_call := (wf_call this).
Abbreviation open_step := (open_step this paymentToken).

(** A finalized campaign stays finalized, and the campaign counter never
    drops below it, whatever the ledger is asked to do: nothing is assumed of
    the state. *)
Lemma step_keeps_closed m c s id :
  id <= campaignId s → finalized (campaign s id) = true →
  let s' := step this paymentToken m c s in
  id <= campaignId s' ∧ finalized (campaign s' id) = true.
Proof.
  intros Hle Hfin. unfold step, execute. destruct c as [n t e|i|].
  - unfold configureCampaign, onlyOwner, require.
    destruct (sender m =? owner s)%N; simpl; [|done].
    destruct (negb (e <=? timestamp m)); simpl; [|done].
    destruct ((campaignId s =? 0) || finalized (campaign s (campaignId s)))
      eqn:Hnew; simpl.
    + destruct (campaignId s + 1 <=? uint256_max); simpl; [|done].
      match goal with
      | |- context [negb (isInitialized ?h)] => destruct (negb (isInitialized h))
      end; simpl; (split; [lia|]); unfold campaign in *; simpl;
        rewrite !lookup_insert_ne by lia; done.
    + apply orb_false_iff in Hnew as [_ Hcur].
      assert (id ≠ campaignId s) as Hne by congruence.
      match goal with
      | |- context [negb (isInitialized ?h)] => destruct (negb (isInitialized h))
      end; simpl; (split; [done|]); unfold campaign in *; simpl;
        rewrite !lookup_insert_ne by done; done.
  - unfold contribute, require, fromExternal, confidentialTransferFrom.
    destruct (negb (campaignId s =? 0)); simpl; [|done].
    destruct (finalized (campaign s (campaignId s))) eqn:Hcur; simpl; [done|].
    assert (id ≠ campaignId s) as Hne by congruence.
    destruct (negb (timestamp m >=? endTimestamp (campaign s (campaignId s))));
      simpl; [|done].
    destruct (proofValid i); simpl; [|done].
    destruct (negb (isOperator (token s) (sender m) this (timestamp m)));
      simpl; [done|].
    match goal with
    | |- context [token_update ?a ?b ?c ?d ?e] =>
        destruct (token_update a b c d e) as [[[tr f2] t2]|]
    end; simpl; [|done].
    split; [done|]. unfold campaign in *. simpl.
    by rewrite lookup_insert_ne.
  - unfold closeCampaign, onlyOwner, require, confidentialTransfer.
    destruct (sender m =? owner s)%N; simpl; [|done].
    destruct (negb (campaignId s =? 0)); simpl; [|done].
    destruct (finalized (campaign s (campaignId s))) eqn:Hcur; simpl; [done|].
    assert (id ≠ campaignId s) as Hne by congruence.
    destruct (isInitialized (confidentialBalanceOf (token s) this)); simpl.
    + match goal with
      | |- context [token_update ?a ?b ?c ?d ?e] =>
          destruct (token_update a b c d e) as [[[tr f2] t2]|]
      end; simpl; [|done].
      split; [done|]. unfold campaign in *. simpl. by rewrite lookup_insert_ne.
    + split; [done|]. unfold campaign in *. simpl. by rewrite lookup_insert_ne.
Qed.

Lemma open_steps_keep_closed s s' id :
  rtc open_step s s' →
  id <= campaignId s → finalized (campaign s id) = true →
  id <= campaignId s' ∧ finalized (campaign s' id) = true.
Proof.
  induction 1 as [s|s s1 s2 Hstep _ IH]; [done|].
  intros Hle Hfin. apply IH.
  - destruct Hstep as [m c s Hwf|f t s]; [|done].
    by apply step_keeps_closed.
  - destruct Hstep as [m c s Hwf|f t s]; [|done].
    by apply step_keeps_closed.
Qed.

(** Every transaction of the ledger keeps the world well-formed, and so does
    a transfer made at the token by any account. *)
Lemma configure_world m n t e s s' :
  wf_world this s → configureCampaign m n t e s = Ok (tt, s') → wf_world this s'.
Proof.
  intros (Hf & Ht & Hown).
  assert (is_uint64 0) as H0 by (unfold is_uint64; rewrite uint64_max_val; lia).
  destruct (fresh_spec 0 (fhe s) Hf H0) as (Hf1 & He1 & _ & _ & _ & _).
  destruct (fresh_spec 0 (fresh 0 (fhe s)).2 Hf1 H0) as (Hf2 & He2 & _ & _ & _ & _).
  unfold configureCampaign, onlyOwner, require.
  destruct (sender m =? owner s)%N; simpl; [|done].
  destruct (negb (e <=? timestamp m)); simpl; [|done].
  destruct ((campaignId s =? 0) || finalized (campaign s (campaignId s))); simpl.
  - destruct (campaignId s + 1 <=? uint256_max); simpl; [|done].
    match goal with
    | |- context [negb (isInitialized ?h)] => destruct (negb (isInitialized h))
    end; simpl; intros [= <-]; simpl; (split; [done|split; [|done]]).
    + apply (wf_token_extends (fhe s)); eauto using extends_trans.
    + by apply (wf_token_extends (fhe s)).
  - match goal with
    | |- context [negb (isInitialized ?h)] => destruct (negb (isInitialized h))
    end; simpl; intros [= <-]; simpl; (split; [done|split; [|done]]).
    + by apply (wf_token_extends (fhe s)).
    + done.
Qed.

Opaque fresh fhe_add allow token_update decrypt.

Lemma contribute_world m i s ret s' :
  wf_world this s → wf_call m (Contribute i) →
  contribute this paymentToken m i s = Ok (ret, s') → wf_world this s'.
Proof.
  intros (Hf & Ht & Hown) (Hsender & Hts & Hamt). simpl in Hamt.
  unfold contribute, require.
  destruct (campaignId s =? 0); simpl; [done|].
  destruct (finalized (campaign s (campaignId s))); simpl; [done|].
  destruct (timestamp m >=? endTimestamp (campaign s (campaignId s)));
    simpl; [done|].
  unfold fromExternal. destruct (proofValid i); simpl; [|done].
  destruct (fresh_spec (plaintext i) (fhe s) Hf Hamt)
    as (Hf0 & He0 & E0 & Hn0 & _ & _).
  destruct (fresh (plaintext i) (fhe s)) as [ca f0]. simpl in *. subst ca.
  unfold confidentialTransferFrom.
  destruct (isOperator (token s) (sender m) this (timestamp m)); simpl; [|done].
  assert (0 < next (fhe s))%N as Hpos by apply Hf.
  destruct (allow_spec (next (fhe s)) this f0 Hf0 ltac:(lia))
    as (Hfa & Hea & Hna & _).
  set (fa := allow (next (fhe s)) this f0) in *.
  destruct (allow_spec (next (fhe s)) paymentToken fa Hfa ltac:(lia))
    as (Hf1 & He1 & Hn1 & _).
  set (f1 := allow (next (fhe s)) paymentToken fa) in *.
  assert (wf_token f1 (token s)) as Ht1.
  { apply (wf_token_extends (fhe s)); eauto using extends_trans. }
  destruct (token_update (sender m) this (next (fhe s)) f1 (token s))
    as [[[tr f2] t']|] eqn:Hup; simpl; [|done].
  destruct (token_update_spec _ _ _ _ _ _ _ _ Hf1 Ht1 Hup)
    as (_ & Hf2 & He2 & _ & Ht2 & _).
  assert (0 < next f2)%N as Hpos2 by apply Hf2.
  destruct (fhe_add_spec (contribution s (campaignId s) (sender m)) tr f2 Hf2)
    as (Hf3 & He3 & E3 & Hn3 & _).
  destruct (fhe_add (contribution s (campaignId s) (sender m)) tr f2)
    as [mine f3]. simpl in *. subst mine.
  destruct (fhe_add_spec (totalRaised (campaign s (campaignId s))) tr f3 Hf3)
    as (Hf4 & He4 & E4 & Hn4 & _).
  destruct (fhe_add (totalRaised (campaign s (campaignId s))) tr f3)
    as [total f4]. simpl in *. subst total.
  destruct (allow_spec (next f2) this f4 Hf4 ltac:(lia)) as (Hf5 & He5 & Hn5 & _).
  set (f5 := allow (next f2) this f4) in *.
  destruct (allow_spec (next f2) (sender m) f5 Hf5 ltac:(lia))
    as (Hf6 & He6 & Hn6 & _).
  set (f6 := allow (next f2) (sender m) f5) in *.
  destruct (allow_spec (next f3) this f6 Hf6 ltac:(lia)) as (Hf7 & He7 & Hn7 & _).
  set (f7 := allow (next f3) this f6) in *.
  destruct (allow_spec (next f3) (owner s) f7 Hf7 ltac:(lia))
    as (Hf8 & He8 & _).
  intros [= <- <-]. simpl. split; [done|]. split; [|done].
  apply (wf_token_extends f2); [done..|].
  repeat (eapply extends_trans; [eassumption|]). apply extends_refl.
Qed.

Transparent fresh fhe_add allow token_update decrypt.

Lemma step_world m c s :
  wf_world this s → wf_call m c → wf_world this (step this paymentToken m c s).
Proof.
  intros W Hwf.
  destruct (step_cases this paymentToken m c s)
    as [E|[(n & t & e & -> & E)|[(i & ret & -> & E)|(p & -> & E)]]].
  - by rewrite E.
  - by eapply configure_world.
  - by eapply contribute_world.
  - destruct (close_world_spec this _ _ _ _ W E)
      as (_ & _ & _ & Eo & _ & _ & _ & _ & Hf & _ & Ht & _).
    split; [done|]. split; [done|]. rewrite Eo. apply W.
Qed.

Lemma transfer_world holder to i s amount f tr f' t' :
  wf_world this s → is_uint64 (plaintext i) →
  fromExternal i (fhe s) = Ok (amount, f) →
  confidentialTransfer holder to amount f (token s) = Ok (tr, f', t') →
  wf_world this (set_token t' (set_fhe f' s)).
Proof.
  intros (Hf & Ht & Hown) Hamt. unfold fromExternal, confidentialTransfer.
  destruct (proofValid i); [|done]. intros [= <- <-] Hup.
  destruct (fresh_spec (plaintext i) (fhe s) Hf Hamt) as (Hf0 & He0 & _).
  assert (wf_token (fresh (plaintext i) (fhe s)).2 (token s)) as Ht0
    by (by apply (wf_token_extends (fhe s))).
  destruct (token_update_spec _ _ _ _ _ _ _ _ Hf0 Ht0 Hup)
    as (_ & Hf2 & _ & _ & Ht2 & _).
  done.
Qed.

Lemma reachable_world s : reachable s → wf_world this s.
Proof.
  intros R. pose proof (reachable_inv _ _ _ R) as I.
  split; [apply (inv_fhe _ _ I)|]. split; [apply (inv_token _ _ I)|].
  apply (inv_owner _ _ I).
Qed.

(** C2. [closeCampaign] succeeds exactly when the caller is the owner, a
    campaign exists and it is not finalized. A successful call turns
    [finalized] from false to true and pays the vault's entire token balance
    (zero when the vault never held tokens) to the owner, whose balance grows
    by exactly that amount, and leaves the vault empty. This holds in every
    well-formed world, tokens sent to the vault without [contribute]
    included, and the transactions of the ledger keep the world well-formed.
    The amount paid is the decrypted aggregate of the campaign when tokens
    have reached the vault through [contribute] only. While the campaign id
    stays the current one, no later [closeCampaign] succeeds, whatever the
    ledger and the other accounts do in between. *)
Theorem close_campaign_once s m :
  wf_world this s →
  succeeds (closeCampaign this m s) =
    (sender m =? owner s)%N && negb (campaignId s =? 0) &&
    negb (finalized (campaign s (campaignId s))) ∧
  (∀ m' c, wf_call m' c → wf_world this (step this paymentToken m' c s)) ∧
  ∀ payout s',
    closeCampaign this m s = Ok (payout, s') →
    wf_world this s' ∧
    campaignId s' = campaignId s ∧
    finalized (campaign s (campaignId s)) = false ∧
    finalized (campaign s' (campaignId s)) = true ∧
    decrypt (fhe s') payout =
      decrypt (fhe s) (confidentialBalanceOf (token s) this) ∧
    (isInitialized (confidentialBalanceOf (token s) this) = false →
     decrypt (fhe s') payout = 0) ∧
    decrypt (fhe s') (confidentialBalanceOf (token s') this) = 0 ∧
    decrypt (fhe s') (confidentialBalanceOf (token s') (owner s)) =
      decrypt (fhe s) (confidentialBalanceOf (token s) (owner s)) +
      decrypt (fhe s) (confidentialBalanceOf (token s) this) ∧
    (reachable s →
     decrypt (fhe s) (confidentialBalanceOf (token s) this) =
       decrypt (fhe s) (totalRaised (campaign s (campaignId s)))) ∧
    ∀ s'' m',
      rtc open_step s' s'' →
      campaignId s'' = campaignId s →
      succeeds (closeCampaign this m' s'') = false.
Proof.
  intros W. split; [apply close_succeeds|].
  split; [intros m' c Hwf; by apply step_world|].
  intros payout s' Hc.
  destruct (close_world_spec this _ _ _ _ W Hc)
    as (Hs & Hid & Hfin & Eo & Eid & Ecs & _ & _ & Hf' & _ & Ht' & _ &
        Hdp & Hdv & Hdo & _).
  assert (finalized (campaign s' (campaignId s)) = true) as Hfin'.
  { unfold campaign. by rewrite Ecs, lookup_insert_eq. }
  split; [split; [done|split; [done|by rewrite Eo; apply W]]|].
  repeat (split; [done|]).
  split.
  { intros Hinit. rewrite Hdp. unfold isInitialized in Hinit.
    apply negb_false_iff, N.eqb_eq in Hinit. rewrite Hinit.
    apply decrypt_zero, W. }
  repeat (split; [done|]).
  split.
  { intros R. pose proof (inv_vault _ _ (reachable_inv _ _ _ R)) as Hv.
    apply Z.eqb_neq in Hid. by rewrite Hid, Hfin in Hv. }
  intros s'' m' Hsteps Hsame.
  destruct (open_steps_keep_closed s' s'' (campaignId s) Hsteps) as [_ Hcl];
    [lia|done|].
  rewrite close_succeeds, Hsame, Hcl. by rewrite andb_false_r.
Qed.

End OpenWorld.

(** ** The grants of the ledger *)

Section Grants.

Variables this paymentToken : address.

Abbreviation inv := (inv this).
Abbreviation reachable := (reachable this paymentToken).
Abbreviation wf_call := (wf_call this).



End Grants.

(** ** The read accessors *)

Section Accessors.

Variables this paymentToken : address.

Abbreviation reachable := (reachable this paymentToken).

(** C7. The read accessors, on the storage as it is. With no campaign
    ([campaignId = 0]) [getCampaign] and [activeCampaignId] fail with
    [CampaignNotConfigured] and [isActive] is false. Otherwise
    [activeCampaignId] returns the current id and, [cur] being the record
    stored under it, [getCampaign] returns the fields of [cur], the owner and
    the aggregate handle of [cur], and [isActive] is true exactly when [cur]
    is not finalized and the time is before its end time; in a reachable
    state that record exists. [getContribution] never fails: it returns the
    stored handle, and the zero handle for a pair without an entry.
    [isActive] never fails. *)
Theorem read_accessors s now id c :
  (campaignId s = 0 →
   getCampaign s = Revert CampaignNotConfigured ∧
   activeCampaignId s = Revert CampaignNotConfigured ∧
   isActive now s = Ok false) ∧
  (campaignId s ≠ 0 →
   activeCampaignId s = Ok (campaignId s) ∧
   ∀ cur, campaigns s !! campaignId s = Some cur →
     getCampaign s =
       Ok (name cur, targetAmount cur, endTimestamp cur, finalized cur,
           owner s, totalRaised cur) ∧
     isActive now s = Ok (negb (finalized cur) && (now <? endTimestamp cur)) ∧
     (isActive now s = Ok true ↔
      finalized cur = false ∧ now < endTimestamp cur) ∧
     (isActive now s = Ok false ↔
      finalized cur = true ∨ endTimestamp cur <= now)) ∧
  (reachable s → campaignId s ≠ 0 → is_Some (campaigns s !! campaignId s)) ∧
  (succeeds (getCampaign s) = negb (campaignId s =? 0) ∧
   succeeds (activeCampaignId s) = negb (campaignId s =? 0) ∧
   succeeds (isActive now s) = true ∧
   succeeds (getContribution s id c) = true) ∧
  (∀ h, contributions s !! (id, c) = Some h → getContribution s id c = Ok h) ∧
  (contributions s !! (id, c) = None → getContribution s id c = Ok 0%N).
Proof.
  unfold getCampaign, activeCampaignId, getContribution, isActive, require,
    contribution, campaign.
  split; [|split; [|split; [|split; [|split]]]].
  - intros ->. done.
  - intros Hid. apply Z.eqb_neq in Hid. rewrite Hid. simpl.
    split; [done|]. intros cur ->. simpl. split; [done|].
    destruct (finalized cur); simpl.
    + split; [done|]. split; [split; [done|by intros [? _]]|].
      split; [by left|done].
    + split; [done|]. split.
      * split; [intros [= E]; split; [done|lia]|intros [_ ?]; f_equal; lia].
      * split; [intros [= E]; right; lia|intros [?|?]; [done|f_equal; lia]].
  - intros R Hid. apply (inv_current this).
    + by apply (reachable_inv this paymentToken).
    + pose proof (inv_id _ _ (reachable_inv this paymentToken s R)). lia.
  - destruct (campaignId s =? 0); simpl; [done|].
    by destruct (finalized (default emptyCampaign (campaigns s !! campaignId s))).
  - by intros h ->.
  - by intros ->.
Qed.

End Accessors.

(** ** The amount parser *)

Section ParseAmount.

Import Client.

Lemma split_no_sep sep (w : list N) : sep ∉ w → split sep w = [w].
Proof.
  induction w as [|c w IH]; intros Hn; [done|].
  simpl. destruct (N.eqb_spec c sep) as [->|Hne].
  - exfalso. apply Hn. apply list_elem_of_here.
  - rewrite IH; [done|]. intros Hin. apply Hn. by apply list_elem_of_further.
Qed.

Lemma split_at_sep sep (w r : list N) :
  sep ∉ w → split sep (w ++ sep :: r) = w :: split sep r.
Proof.
  induction w as [|c w IH]; intros Hn; simpl.
  - by rewrite N.eqb_refl.
  - destruct (N.eqb_spec c sep) as [->|Hne].
    + exfalso. apply Hn. apply list_elem_of_here.
    + rewrite IH; [done|]. intros Hin. apply Hn. by apply list_elem_of_further.
Qed.

Lemma split_nonempty sep (s : list N) : split sep s ≠ [].
Proof.
  destruct s as [|c s]; simpl; [done|].
  destruct (c =? sep)%N; [done|]. by destruct (split sep s).
Qed.

Lemma digitsValue_from acc (s : list N) :
  foldl (fun a c => 10 * a + (Z.of_N c - 48)) acc s =
  acc * 10 ^ Z.of_nat (length s) + digitsValue s.
Proof.
  unfold digitsValue. revert acc.
  induction s as [|c s IH]; intros acc; simpl foldl.
  - simpl. lia.
  - rewrite IH, (IH (10 * 0 + _)).
    change (length (c :: s)) with (S (length s)).
    rewrite Nat2Z.inj_succ, Z.pow_succ_r by lia. lia.
Qed.

Lemma digitsValue_app (w p : list N) :
  digitsValue (w ++ p) = digitsValue w * 10 ^ Z.of_nat (length p) + digitsValue p.
Proof.
  unfold digitsValue at 1. rewrite foldl_app.
  fold (digitsValue w). apply digitsValue_from.
Qed.

Lemma digitsValue_zeros k : digitsValue (replicate k 48%N) = 0.
Proof.
  induction k as [|k IH]; [done|].
  change (replicate (S k) 48%N) with ([48%N] ++ replicate k 48%N).
  rewrite digitsValue_app, IH. change (digitsValue [48%N]) with 0. lia.
Qed.

Lemma padded_length (f : list N) : length (take 6 (f ++ zeros6)) = 6%nat.
Proof.
  rewrite length_take, length_app. unfold zeros6. rewrite length_replicate. lia.
Qed.

Lemma padded_short (f : list N) :
  (length f <= 6)%nat →
  take 6 (f ++ zeros6) = f ++ replicate (6 - length f) 48%N.
Proof.
  intros Hle. rewrite take_app.
  rewrite take_ge by lia. f_equal.
  unfold zeros6. rewrite take_replicate. f_equal. lia.
Qed.

Lemma padded_long (f : list N) :
  (6 <= length f)%nat → take 6 (f ++ zeros6) = take 6 f.
Proof.
  intros Hle. rewrite take_app.
  replace (6 - length f)%nat with 0%nat by lia.
  rewrite take_0. apply app_nil_r.
Qed.

Lemma trimStart_spec (ws t : list N) :
  forallb isWhiteSpace ws = true →
  (∀ c, head t = Some c → isWhiteSpace c = false) →
  trimStart (ws ++ t) = t.
Proof.
  intros Hws Ht. induction ws as [|c ws IH]; simpl.
  - destruct t as [|c t]; [done|]. simpl. by rewrite (Ht c).
  - simpl in Hws. apply andb_true_iff in Hws as [Hc Hws]. rewrite Hc. by apply IH.
Qed.

(** [trim] removes the white space around a string that neither starts nor
    ends with white space. *)
Lemma trim_spec (ws1 t ws2 : list N) :
  forallb isWhiteSpace ws1 = true →
  forallb isWhiteSpace ws2 = true →
  (∀ c, head t = Some c → isWhiteSpace c = false) →
  (∀ c, last t = Some c → isWhiteSpace c = false) →
  trim (ws1 ++ t ++ ws2) = t.
Proof.
  intros H1 H2 Hh Hl. unfold trim.
  assert (forallb isWhiteSpace (reverse ws2) = true) as H2r.
  { rewrite forallb_forall in H2 |- *. intros c Hc. apply H2.
    apply list_elem_of_In. apply list_elem_of_In in Hc.
    by rewrite elem_of_reverse in Hc. }
  destruct t as [|x t].
  - replace (ws1 ++ [] ++ ws2) with ((ws1 ++ ws2) ++ []) by by rewrite app_nil_r.
    rewrite trimStart_spec; [done| |done].
    rewrite forallb_app. by rewrite H1, H2.
  - rewrite trimStart_spec; [|done|].
    2:{ intros c [= <-]. by apply Hh. }
    rewrite reverse_app, trimStart_spec; [|done|].
    + apply reverse_involutive.
    + intros c Hc. apply Hl. by rewrite head_reverse in Hc.
Qed.

(** C8 (amended). [parseAmount] strips the white space around the input. A
    remaining string without a decimal point is accepted exactly when it is a
    non-empty string of digits [w], with value [w * 10^6]; a remaining string
    [w.f] with one decimal point is accepted exactly when [w] is a non-empty
    string of digits and [f] a string of digits, with value [w * 10^6] plus the
    value of [f] cut or right-padded with zeros to exactly six digits.
    Everything else of these two shapes is rejected with [null]. *)
Theorem parseAmount_fixed_point (ws1 w f ws2 : list N) :
  forallb isWhiteSpace ws1 = true →
  forallb isWhiteSpace ws2 = true →
  dot ∉ w → dot ∉ f →
  (∀ c, head w = Some c → isWhiteSpace c = false) →
  (∀ c, last w = Some c → isWhiteSpace c = false) →
  (∀ c, last f = Some c → isWhiteSpace c = false) →
  parseAmount (ws1 ++ w ++ ws2) =
    (if allDigits1 w then Some (digitsValue w * 10 ^ 6) else None) ∧
  parseAmount (ws1 ++ (w ++ dot :: f) ++ ws2) =
    (if allDigits1 w && allDigits0 f
     then Some (digitsValue w * 10 ^ 6 + digitsValue (take 6 (f ++ zeros6)))
     else None) ∧
  length (take 6 (f ++ zeros6)) = 6%nat ∧
  ((length f <= 6)%nat →
   digitsValue (take 6 (f ++ zeros6)) =
     digitsValue f * 10 ^ Z.of_nat (6 - length f)) ∧
  ((6 <= length f)%nat → take 6 (f ++ zeros6) = take 6 f).
Proof.
  intros Hws1 Hws2 Hw Hf Hhw Hlw Hlf.
  split; [|split; [|split; [|split]]].
  - unfold parseAmount. rewrite trim_spec by done.
    destruct w as [|c w'] eqn:Ew; [done|]. rewrite <- Ew in *.
    rewrite bool_decide_eq_false_2 by (by rewrite Ew).
    rewrite split_no_sep by done. simpl.
    destruct (allDigits1 w); simpl; [|done].
    rewrite digitsValue_app. f_equal.
    change (digitsValue [48; 48; 48; 48; 48; 48]%N) with 0.
    change (Z.of_nat (length [48; 48; 48; 48; 48; 48]%N)) with 6. lia.
  - unfold parseAmount. rewrite trim_spec; [|done|done| |].
    + rewrite bool_decide_eq_false_2 by (by destruct w).
      rewrite split_at_sep, split_no_sep by done. simpl.
      destruct (allDigits1 w); simpl; [|done].
      destruct (allDigits0 f); simpl; [|done].
      rewrite digitsValue_app, padded_length. done.
    + intros c. destruct w as [|x w']; simpl.
      * by intros [= <-].
      * intros [= <-]. by apply Hhw.
    + intros c. rewrite last_app_cons, last_cons.
      destruct (last f) as [y|] eqn:El.
      * intros [= <-]. by apply Hlf.
      * by intros [= <-].
  - apply padded_length.
  - intros Hle. rewrite padded_short by done.
    rewrite digitsValue_app, digitsValue_zeros, length_replicate. lia.
  - apply padded_long.
Qed.

End ParseAmount.

(** ** The amount formatter *)

Section FormatAmount.

Import Client.

Lemma isDigit_range c : isDigit c = true ↔ (48 <= c <= 57)%N.
Proof. unfold isDigit. rewrite andb_true_iff, !N.leb_le. done. Qed.

Lemma digit_not_space c : isDigit c = true → isWhiteSpace c = false.
Proof.
  intros Hd. apply isDigit_range in Hd.
  unfold isWhiteSpace. apply bool_decide_eq_false_2. intros Hin.
  repeat (apply elem_of_cons in Hin as [->|Hin]; [lia|]).
  by apply elem_of_nil in Hin.
Qed.

Lemma digits_no_dot (s : list N) : forallb isDigit s = true → dot ∉ s.
Proof.
  intros Hs Hin. rewrite forallb_forall in Hs.
  apply list_elem_of_In, Hs in Hin. done.
Qed.

Lemma digitsValue_snoc (s : list N) c :
  digitsValue (s ++ [c]) = 10 * digitsValue s + (Z.of_N c - 48).
Proof. unfold digitsValue. by rewrite foldl_snoc. Qed.

Lemma digitsValue_bounds (s : list N) :
  forallb isDigit s = true → 0 <= digitsValue s < 10 ^ Z.of_nat (length s).
Proof.
  induction s as [|c s IH] using rev_ind; intros Hs;
    [unfold digitsValue; simpl; lia|].
  rewrite forallb_app in Hs. apply andb_true_iff in Hs as [Hs Hc].
  simpl in Hc. rewrite andb_true_r in Hc. apply isDigit_range in Hc.
  specialize (IH Hs). rewrite digitsValue_snoc, length_app. simpl length.
  rewrite Nat2Z.inj_add, Z.pow_add_r by lia. change (10 ^ Z.of_nat 1) with 10.
  lia.
Qed.

Lemma digitsOf_S k n (acc : list N) :
  digitsOf (S k) n acc =
  if n <? 10 then (48 + Z.to_N (n mod 10))%N :: acc
  else digitsOf k (n / 10) ((48 + Z.to_N (n mod 10))%N :: acc).
Proof. reflexivity. Qed.

(** [digitsOf] writes the decimal representation when the fuel covers the
    binary length of the number. *)
Lemma digitsOf_spec fuel : ∀ n acc,
  0 <= n < 2 ^ Z.of_nat (S fuel) →
  ∃ ds, digitsOf (S fuel) n acc = ds ++ acc ∧ ds ≠ [] ∧
        forallb isDigit ds = true ∧ digitsValue ds = n ∧
        (∀ k, 1 <= k → n < 10 ^ k → Z.of_nat (length ds) <= k) ∧
        (0 < n → head ds ≠ Some 48%N).
Proof.
  induction fuel as [|fuel IH]; intros n acc Hn.
  - change (2 ^ Z.of_nat 1) with 2 in Hn. simpl.
    assert ((n <? 10) = true) as -> by lia.
    exists [(48 + Z.to_N (n mod 10))%N].
    assert (n = 0 ∨ n = 1) as [-> | ->] by lia; repeat split; try done;
      try (intros; simpl; lia).
  - rewrite digitsOf_S.
    destruct (n <? 10) eqn:Hlt; [apply Z.ltb_lt in Hlt|apply Z.ltb_ge in Hlt].
    + exists [(48 + Z.to_N (n mod 10))%N].
      rewrite Z.mod_small by lia.
      split; [done|]. split; [done|]. split.
      { simpl. rewrite andb_true_r. apply isDigit_range. lia. }
      split; [unfold digitsValue; simpl; lia|].
      split; [intros; simpl; lia|].
      intros Hpos. simpl. intros [= Heq]. lia.
    + destruct (IH (n / 10) ((48 + Z.to_N (n mod 10))%N :: acc))
        as (ds & E & Hne & Hd & Hv & Hlen & Hhd).
      { rewrite Nat2Z.inj_succ, Z.pow_succ_r in Hn by lia.
        split; [apply Z.div_pos; lia|].
        apply Z.div_lt_upper_bound; lia. }
      rewrite E.
      exists (ds ++ [(48 + Z.to_N (n mod 10))%N]).
      pose proof (Z.mod_pos_bound n 10 ltac:(lia)) as Hm.
      split; [by rewrite <- app_assoc|].
      split; [by destruct ds|].
      split.
      { rewrite forallb_app, Hd. simpl. rewrite andb_true_r.
        apply isDigit_range. lia. }
      split.
      { rewrite digitsValue_snoc, Hv.
        pose proof (Z.div_mod n 10 ltac:(lia)). lia. }
      split.
      { intros k Hk Hnk. rewrite length_app. simpl length.
        assert (2 <= k) as Hk2.
        { destruct (decide (k = 1)) as [->|]; [|lia].
          change (10 ^ 1) with 10 in Hnk. lia. }
        specialize (Hlen (k - 1) ltac:(lia)).
        replace k with (Z.succ (k - 1)) in Hnk by lia.
        rewrite Z.pow_succ_r in Hnk by lia.
        assert (n / 10 < 10 ^ (k - 1))
          by (apply Z.div_lt_upper_bound; lia).
        lia. }
      intros Hpos. destruct ds as [|d ds]; [done|]. simpl.
      apply Hhd. apply Z.div_str_pos. lia.
Qed.

Lemma toString_spec n :
  0 <= n →
  toString n ≠ [] ∧ forallb isDigit (toString n) = true ∧
  digitsValue (toString n) = n ∧
  (∀ k, 1 <= k → n < 10 ^ k → Z.of_nat (length (toString n)) <= k) ∧
  (0 < n → head (toString n) ≠ Some 48%N).
Proof.
  intros Hn. unfold toString.
  assert ((n <? 0) = false) as -> by lia.
  destruct (digitsOf_spec (Z.to_nat (Z.log2 n)) n []) as (ds & E & H).
  { rewrite Nat2Z.inj_succ, Z2Nat.id by apply Z.log2_nonneg.
    split; [done|].
    destruct (decide (n = 0)) as [->|Hne]; [done|].
    apply Z.log2_spec. lia. }
  rewrite E, app_nil_r. exact H.
Qed.

(** The fraction digits [formatAmount] shows for a six-digit fraction: the
    first four, cut after the last non-zero one, at least one. *)
Lemma fraction_shown (a b c d e f : N) :
  let shown := take 4 (padEnd 1 48 (stripTrailingZeros [a; b; c; d; e; f])) in
  shown ≠ [] ∧
  take 6 (shown ++ zeros6) = [a; b; c; d; 48; 48]%N ∧
  (forallb isDigit [a; b; c; d; e; f] = true → forallb isDigit shown = true).
Proof.
  unfold stripTrailingZeros, padEnd, zeros6. cbn [reverse rev_append dropZeros].
  destruct (N.eqb_spec f 48) as [->|Hf]; cbn [reverse rev_append dropZeros];
    [destruct (N.eqb_spec e 48) as [->|He]; cbn [reverse rev_append dropZeros];
     [destruct (N.eqb_spec d 48) as [->|Hd]; cbn [reverse rev_append dropZeros];
      [destruct (N.eqb_spec c 48) as [->|Hc]; cbn [reverse rev_append dropZeros];
       [destruct (N.eqb_spec b 48) as [->|Hb]; cbn [reverse rev_append dropZeros];
        [destruct (N.eqb_spec a 48) as [->|Ha];
         cbn [reverse rev_append dropZeros]|]|]|]|]|].
  all: simpl.
  all: split; [done|split; [done|]].
  all: intros H; repeat (apply andb_true_iff in H as [? H]).
  all: repeat match goal with
              | Hx : isDigit _ = true |- _ => rewrite ?Hx; clear Hx
              end; done.
Qed.

(** X12. What [formatAmount] shows is read back by [parseAmount] as the amount
    cut to four decimals: for a non-negative amount (in units of 10^-6),
    parsing the formatted string gives the amount rounded down to a multiple
    of 100 units, so exactly the amount when it has at most four decimals, and
    never more than 99 units less. The dash shown for a missing value does not
    parse. *)
Theorem formatAmount_parseAmount v :
  0 <= v →
  parseAmount (formatAmount (Some v)) = Some (v - v mod 100) ∧
  (v mod 100 = 0 → parseAmount (formatAmount (Some v)) = Some v) ∧
  parseAmount (formatAmount None) = None.
Proof.
  intros Hv.
  assert (parseAmount (formatAmount (Some v)) = Some (v - v mod 100)) as Hmain.
  2:{ split; [done|]. split; [|done]. intros Hz. rewrite Hmain. f_equal. lia. }
  unfold formatAmount, DECIMALS.
  rewrite Z.quot_div_nonneg, Z.rem_mod_nonneg by lia.
  set (w := v / 1000000). set (r := v mod 1000000).
  assert (0 <= w) as Hw by (apply Z.div_pos; lia).
  assert (0 <= r < 1000000) as Hr by (apply Z.mod_pos_bound; lia).
  destruct (toString_spec w Hw) as (Hwne & Hwd & Hwv & _).
  destruct (toString_spec r (proj1 Hr)) as (_ & Hrd & Hrv & Hrl & _).
  specialize (Hrl 6 ltac:(lia) ltac:(lia)).
  set (W := toString w) in *. set (R := toString r) in *.
  (* the fraction, padded to six digits *)
  set (P := padStart 6 48 R).
  assert (length P = 6%nat) as HPl.
  { unfold P, padStart. rewrite length_app, length_replicate. lia. }
  assert (forallb isDigit P = true) as HPd.
  { unfold P, padStart. rewrite forallb_app, Hrd, andb_true_r.
    apply forallb_forall. intros x Hx%list_elem_of_In.
    by apply elem_of_replicate in Hx as [-> _]. }
  assert (digitsValue P = r) as HPv.
  { unfold P, padStart. rewrite digitsValue_app, digitsValue_zeros. lia. }
  destruct P as [|a [|b [|c [|d [|e [|f [|]]]]]]]; try discriminate HPl.
  destruct (fraction_shown a b c d e f) as (Hsne & Hs6 & Hsd).
  specialize (Hsd HPd).
  set (shown := take 4 (padEnd 1 48 (stripTrailingZeros [a; b; c; d; e; f])))
    in *.
  (* parsing it back *)
  unfold parseAmount.
  replace (W ++ [dot] ++ shown) with ([] ++ (W ++ dot :: shown) ++ [])
    by (by rewrite app_nil_r).
  rewrite trim_spec; [|done|done| |].
  - rewrite bool_decide_eq_false_2 by (by destruct W).
    rewrite split_at_sep, split_no_sep by by apply digits_no_dot.
    cbn [lookup list_lookup default from_option id].
    unfold allDigits1, allDigits0.
    rewrite Hwd, Hsd, bool_decide_eq_false_2 by done. cbn [negb andb orb].
    rewrite digitsValue_app, padded_length, Hs6, Hwv. f_equal.
    repeat (apply andb_true_iff in HPd as [?%isDigit_range HPd]).
    unfold digitsValue in *. cbn [foldl] in *.
    subst w r. change (Z.of_nat 6) with 6.
    pose proof (Z.div_mod v 1000000 ltac:(lia)).
    pose proof (Z.div_mod v 100 ltac:(lia)).
    pose proof (Z.mod_pos_bound v 100 ltac:(lia)).
    lia.
  - intros x Hx. apply digit_not_space.
    rewrite forallb_forall in Hwd. apply Hwd, list_elem_of_In.
    destruct W as [|y W']; [done|]. injection Hx as <-. apply list_elem_of_here.
  - intros x Hx. apply digit_not_space.
    rewrite forallb_forall in Hsd. apply Hsd, list_elem_of_In.
    rewrite last_app_cons, last_cons in Hx.
    destruct (last shown) as [y|] eqn:El.
    + injection Hx as <-. by apply last_Some_elem_of.
    + by apply last_None in El.
Qed.

Lemma parseAmount_two_parts (ws1 w f t ws2 : list N) :
  forallb isWhiteSpace ws1 = true →
  forallb isWhiteSpace ws2 = true →
  dot ∉ w → dot ∉ f →
  (∀ c, head w = Some c → isWhiteSpace c = false) →
  (∀ c, last (f ++ t) = Some c → isWhiteSpace c = false) →
  t = [] ∨ head t = Some dot →
  parseAmount (ws1 ++ (w ++ dot :: f ++ t) ++ ws2) =
    (if allDigits1 w && allDigits0 f
     then Some (digitsValue w * 10 ^ 6 + digitsValue (take 6 (f ++ zeros6)))
     else None).
Proof.
  intros Hws1 Hws2 Hw Hf Hhw Hlast Ht.
  unfold parseAmount. rewrite trim_spec; [|done|done| |].
  - rewrite bool_decide_eq_false_2 by (by destruct w).
    rewrite split_at_sep by done.
    assert (∃ ps, split dot (f ++ t) = f :: ps) as [ps ->].
    { destruct Ht as [->|Ht].
      - exists []. by rewrite app_nil_r, split_no_sep.
      - destruct t as [|x t']; [done|]. injection Ht as ->.
        exists (split dot t'). by rewrite split_at_sep. }
    cbn [lookup list_lookup default from_option id].
    destruct (allDigits1 w); simpl; [|done].
    destruct (allDigits0 f); simpl; [|done].
    f_equal. rewrite digitsValue_app, padded_length. done.
  - intros c. destruct w as [|x w']; simpl.
    + by intros [= <-].
    + intros [= <-]. by apply Hhw.
  - intros c. rewrite last_app_cons, last_cons.
    destruct (last (f ++ t)) as [y|] eqn:El.
    + intros [= <-]. by apply Hlast.
    + by intros [= <-].
Qed.

(** X13. [parseAmount] looks at nothing after a second decimal point: whatever
    follows it, digits or not, the result is that of the two parts before it,
    the same as for the input cut before the second point. *)
Theorem parseAmount_ignores_after_second_point (ws1 w f rest ws2 : list N) :
  forallb isWhiteSpace ws1 = true →
  forallb isWhiteSpace ws2 = true →
  dot ∉ w → dot ∉ f →
  (∀ c, head w = Some c → isWhiteSpace c = false) →
  (∀ c, last rest = Some c → isWhiteSpace c = false) →
  parseAmount (ws1 ++ (w ++ dot :: f ++ dot :: rest) ++ ws2) =
    (if allDigits1 w && allDigits0 f
     then Some (digitsValue w * 10 ^ 6 + digitsValue (take 6 (f ++ zeros6)))
     else None) ∧
  ((∀ c, last f = Some c → isWhiteSpace c = false) →
   parseAmount (ws1 ++ (w ++ dot :: f ++ dot :: rest) ++ ws2) =
   parseAmount (ws1 ++ (w ++ dot :: f) ++ ws2)).
Proof.
  intros Hws1 Hws2 Hw Hf Hhw Hlr.
  assert (parseAmount (ws1 ++ (w ++ dot :: f ++ dot :: rest) ++ ws2) =
          (if allDigits1 w && allDigits0 f
           then Some (digitsValue w * 10 ^ 6 +
                      digitsValue (take 6 (f ++ zeros6)))
           else None)) as E.
  { apply parseAmount_two_parts; try done; [|by right].
    intros c. rewrite last_app_cons, last_cons.
    destruct (last rest) as [y|] eqn:El.
    - intros [= <-]. by apply Hlr.
    - by intros [= <-]. }
  split; [done|]. intros Hlf. rewrite E. symmetry.
  pose proof (parseAmount_two_parts ws1 w f [] ws2) as E'.
  rewrite app_nil_r in E'. apply E'; try done. by left.
Qed.

Lemma padded_digits (f : list N) :
  forallb isDigit f = true → forallb isDigit (take 6 (f ++ zeros6)) = true.
Proof.
  intros Hf. apply forallb_forall. intros x Hx%list_elem_of_In.
  apply elem_of_take in Hx as (i & Hx & _).
  apply list_elem_of_lookup_2 in Hx.
  apply elem_of_app in Hx as [Hx|Hx].
  - rewrite forallb_forall in Hf. by apply Hf, list_elem_of_In.
  - unfold zeros6 in Hx. by apply elem_of_replicate in Hx as [-> _].
Qed.

(** X14. The size of what [parseAmount] accepts: the result is never negative
    and is below 10 to the number of digits of the whole part plus six, so an
    amount whose whole part has at most 13 digits fits the 64 bits of an
    encrypted amount. The parser itself enforces no such range: a whole part
    of 14 digits can give a value that does not fit. *)
Theorem parseAmount_range input v :
  parseAmount input = Some v →
  let whole := default [] (split dot (trim input) !! 0%nat) in
  0 <= v < 10 ^ (Z.of_nat (length whole) + 6) ∧
  ((length whole <= 13)%nat → is_uint64 v) ∧
  (∃ big v', length big = 14%nat ∧ parseAmount big = Some v' ∧ ¬ is_uint64 v').
Proof.
  unfold parseAmount.
  destruct (bool_decide (trim input = [])); [done|].
  set (parts := split dot (trim input)).
  set (whole := default [] (parts !! 0%nat)).
  set (fraction := default [] (parts !! 1%nat)).
  destruct (allDigits1 whole) eqn:Hw; simpl; [|done].
  destruct (allDigits0 fraction) eqn:Hf; simpl; [|done].
  intros [= <-].
  unfold allDigits1 in Hw. apply andb_true_iff in Hw as [Hw _].
  pose proof (digitsValue_bounds whole Hw) as Hbw.
  pose proof (digitsValue_bounds _ (padded_digits fraction Hf)) as Hbf.
  rewrite padded_length in Hbf. change (10 ^ Z.of_nat 6) with 1000000 in Hbf.
  rewrite digitsValue_app, padded_length.
  change (10 ^ Z.of_nat 6) with 1000000.
  assert (0 <= digitsValue whole * 1000000 +
               digitsValue (take 6 (fraction ++ zeros6)) <
          10 ^ (Z.of_nat (length whole) + 6)) as Hb.
  { rewrite Z.pow_add_r by lia. change (10 ^ 6) with 1000000. nia. }
  split; [done|]. split.
  - intros Hlen. unfold is_uint64. rewrite uint64_max_val.
    split; [lia|].
    assert (10 ^ (Z.of_nat (length whole) + 6) <= 10 ^ 19)
      by (apply Z.pow_le_mono_r; lia).
    change (10 ^ 19) with 10000000000000000000 in *. lia.
  - exists (js "99999999999999"), 99999999999999000000.
    split; [done|]. split; [by vm_compute|].
    unfold is_uint64. rewrite uint64_max_val. lia.
Qed.

Lemma digitsValue_cons c (s : list N) :
  digitsValue (c :: s) = (Z.of_N c - 48) * 10 ^ Z.of_nat (length s) + digitsValue s.
Proof.
  change (c :: s) with ([c] ++ s). rewrite digitsValue_app.
  unfold digitsValue at 1. simpl. lia.
Qed.

(** Two strings of digits of the same length and the same value are equal. *)
Lemma digits_unique_same_length (s1 : list N) : ∀ s2 : list N,
  length s1 = length s2 →
  forallb isDigit s1 = true → forallb isDigit s2 = true →
  digitsValue s1 = digitsValue s2 → s1 = s2.
Proof.
  induction s1 as [|x s1 IH]; intros [|y s2] Hlen H1 H2 Hv; try done.
  simpl in Hlen, H1, H2. injection Hlen as Hlen.
  apply andb_true_iff in H1 as [Hx H1]. apply andb_true_iff in H2 as [Hy H2].
  apply isDigit_range in Hx, Hy.
  rewrite !digitsValue_cons, Hlen in Hv.
  pose proof (digitsValue_bounds s1 H1) as B1. rewrite Hlen in B1.
  pose proof (digitsValue_bounds s2 H2) as B2.
  assert (x = y) as -> by nia.
  f_equal. apply IH; try done. lia.
Qed.

(** A string of digits that does not start with a zero is the decimal
    representation of its value. *)
Lemma toString_digitsValue (s : list N) :
  forallb isDigit s = true → s ≠ [] → head s ≠ Some 48%N ∨ s = [48%N] →
  toString (digitsValue s) = s.
Proof.
  intros Hd Hne [Hh| ->]; [|done].
  destruct s as [|x s]; [done|]. clear Hne.
  pose proof (digitsValue_bounds _ Hd) as Hb.
  simpl in Hd. apply andb_true_iff in Hd as [Hx Hs].
  pose proof (digitsValue_bounds _ Hs) as Hbs.
  apply isDigit_range in Hx.
  assert (x ≠ 48%N) as Hx0 by (intros ->; by apply Hh).
  assert (10 ^ Z.of_nat (length s) <= digitsValue (x :: s)) as Hlow
    by (rewrite digitsValue_cons; nia).
  assert (0 < 10 ^ Z.of_nat (length s)) as Hpos by (apply Z.pow_pos_nonneg; lia).
  destruct (toString_spec (digitsValue (x :: s))) as (Tne & Td & Tv & Tl & Th);
    [lia|].
  specialize (Th ltac:(lia)).
  set (T := toString (digitsValue (x :: s))) in *.
  apply digits_unique_same_length; try done.
  2:{ simpl. rewrite Hs, andb_true_r. apply isDigit_range. lia. }
  (* the two strings have the same length *)
  specialize (Tl (Z.of_nat (length (x :: s))) ltac:(simpl length; lia) ltac:(lia)).
  destruct T as [|y T']; [done|].
  assert (y ≠ 48%N) as Hy0 by (intros ->; by apply Th).
  simpl in Td. apply andb_true_iff in Td as [Hy Td].
  apply isDigit_range in Hy.
  pose proof (digitsValue_bounds _ Td) as Hbt.
  rewrite digitsValue_cons in Tv.
  assert (10 ^ Z.of_nat (length T') <= digitsValue (x :: s)) as Hlow' by nia.
  destruct (decide (length T' < length s)%nat) as [Hlt|Hge].
  - exfalso.
    assert (10 ^ Z.of_nat (S (length T')) <= 10 ^ Z.of_nat (length s))
      by (apply Z.pow_le_mono_r; lia).
    rewrite Nat2Z.inj_succ, Z.pow_succ_r in H by lia.
    assert (0 < 10 ^ Z.of_nat (length T')) by (apply Z.pow_pos_nonneg; lia).
    nia.
  - simpl length in *. lia.
Qed.

Lemma dropZeros_replicate k (s : list N) :
  dropZeros (replicate k 48%N ++ s) = dropZeros s.
Proof. induction k as [|k IH]; [done|]. simpl. exact IH. Qed.

Lemma stripTrailingZeros_padded k (s : list N) :
  last s ≠ Some 48%N →
  stripTrailingZeros (s ++ replicate k 48%N) = s.
Proof.
  intros Hl. unfold stripTrailingZeros.
  rewrite reverse_app, reverse_replicate, dropZeros_replicate.
  rewrite <- head_reverse in Hl.
  destruct (reverse s) as [|x r] eqn:E.
  - simpl. apply (f_equal reverse) in E.
    by rewrite reverse_involutive in E.
  - simpl. destruct (N.eqb_spec x 48) as [->|Hx]; [by destruct Hl|].
    rewrite <- E. apply reverse_involutive.
Qed.

(** X15. The other way round: an amount written canonically with one to four
    decimals (a whole part without leading zeros, a fraction without trailing
    zeros, ["0"] standing for zero on either side) is accepted by
    [parseAmount], and [formatAmount] shows the parsed value as it was
    written. *)
Theorem parseAmount_formatAmount (w f : list N) :
  allDigits1 w = true → head w ≠ Some 48%N ∨ w = [48%N] →
  allDigits0 f = true → (1 <= length f <= 4)%nat →
  last f ≠ Some 48%N ∨ f = [48%N] →
  ∃ v, parseAmount (w ++ dot :: f) = Some v ∧
       formatAmount (Some v) = w ++ dot :: f.
Proof.
  intros Hw Hwc Hf Hfl Hfc.
  unfold allDigits1 in Hw. apply andb_true_iff in Hw as [Hw Hwne].
  apply negb_true_iff, bool_decide_eq_false in Hwne.
  unfold allDigits0 in Hf.
  set (padded := take 6 (f ++ zeros6)).
  exists (digitsValue w * 10 ^ 6 + digitsValue padded).
  assert (padded = f ++ replicate (6 - length f) 48%N) as Hpad
    by (apply padded_short; lia).
  pose proof (padded_digits f Hf) as Hpd. fold padded in Hpd.
  pose proof (padded_length f) as Hpl. fold padded in Hpl.
  pose proof (digitsValue_bounds _ Hpd) as Hpb. rewrite Hpl in Hpb.
  change (10 ^ Z.of_nat 6) with 1000000 in Hpb.
  pose proof (digitsValue_bounds _ Hw) as Hwb.
  split.
  - pose proof (parseAmount_two_parts [] w f [] []) as E.
    rewrite !app_nil_r in E. simpl in E. rewrite E; try done.
    + unfold allDigits1, allDigits0.
      by rewrite Hw, Hf, bool_decide_eq_false_2.
    + by apply digits_no_dot.
    + by apply digits_no_dot.
    + intros c Hc. apply digit_not_space.
      rewrite forallb_forall in Hw. apply Hw, list_elem_of_In.
      destruct w as [|y w']; [done|]. injection Hc as <-.
      apply list_elem_of_here.
    + intros c Hc. apply digit_not_space.
      rewrite forallb_forall in Hf.
      by apply Hf, list_elem_of_In, last_Some_elem_of.
    + by left.
  - unfold formatAmount, DECIMALS. change (10 ^ 6) with 1000000.
    rewrite Z.quot_div_nonneg, Z.rem_mod_nonneg by lia.
    assert ((digitsValue w * 1000000 + digitsValue padded) / 1000000 =
            digitsValue w) as ->.
    { symmetry. apply (Z.div_unique _ _ _ (digitsValue padded)); lia. }
    assert ((digitsValue w * 1000000 + digitsValue padded) mod 1000000 =
            digitsValue padded) as ->.
    { symmetry. apply (Z.mod_unique _ _ (digitsValue w)); lia. }
    rewrite toString_digitsValue by done.
    assert (padStart 6 48 (toString (digitsValue padded)) = padded) as ->.
    { destruct (toString_spec (digitsValue padded) ltac:(lia))
        as (_ & Td & Tv & Tl & _).
      specialize (Tl 6 ltac:(lia) ltac:(lia)).
      apply digits_unique_same_length.
      - unfold padStart. rewrite length_app, length_replicate. lia.
      - unfold padStart. rewrite forallb_app, Td, andb_true_r.
        apply forallb_forall. intros x Hx%list_elem_of_In.
        by apply elem_of_replicate in Hx as [-> _].
      - done.
      - unfold padStart. rewrite digitsValue_app, digitsValue_zeros. lia. }
    do 2 f_equal. rewrite Hpad.
    destruct Hfc as [Hl| ->]; [|done].
    rewrite stripTrailingZeros_padded by done.
    unfold padEnd. replace (1 - length f)%nat with 0%nat by lia.
    rewrite app_nil_r. apply take_ge. lia.
Qed.

End FormatAmount.

(** ** The status shown by the client *)

Lemma toDouble_exact n : Z.abs n < 2 ^ 53 → Client.toDouble n = n.
Proof.
  intros Hn. unfold Client.toDouble.
  assert (Z.log2 (Z.abs n) - 52 <= 0) as He.
  { destruct (decide (Z.abs n = 0)) as [->|Hne]; [done|].
    assert (Z.log2 (Z.abs n) < 53); [|lia].
    apply Z.log2_lt_pow2; lia. }
  apply Z.leb_le in He. by rewrite He.
Qed.

(** X17. The status the client shows agrees with the contract. For the
    campaign data [getCampaign] returns, with an end time whose milliseconds
    fit a double exactly, the client's [isActive] at clock time [now]
    (milliseconds) is the contract's [isActive] at the same time in seconds;
    the label is "Active" exactly then, "Closed" exactly for a finalized
    campaign and "Pending" for an expired one nobody closed. Without a
    campaign the client shows "Pending". *)
Theorem client_status_matches_contract s now n t e f o h :
  getCampaign s = Ok (n, t, e, f, o, h) →
  0 <= e → e * 1000 < 2 ^ 53 →
  let c := Some (Client.mkDetails n t e f o h) in
  (Client.isActive c now = true ↔ isActive (now / 1000) s = Ok true) ∧
  (Client.statusLabel c now = "Active" ↔ isActive (now / 1000) s = Ok true) ∧
  (Client.statusLabel c now = "Closed" ↔
     finalized (campaign s (campaignId s)) = true) ∧
  (Client.statusLabel c now = "Pending" ↔
     finalized (campaign s (campaignId s)) = false ∧
     endTimestamp (campaign s (campaignId s)) <= now / 1000) ∧
  Client.isActive None now = false ∧ Client.statusLabel None now = "Pending".
Proof.
  intros Hget He0 He c.
  unfold getCampaign, require in Hget.
  destruct (campaignId s =? 0) eqn:Hid; simpl in Hget; [done|].
  injection Hget as <- <- <- <- <- <-.
  set (cur := campaign s (campaignId s)) in *.
  assert (Client.isActive c now =
          negb (finalized cur) && (now / 1000 <? endTimestamp cur)) as Hact.
  { unfold c, Client.isActive. cbn [Client.finalized Client.endTimestamp].
    rewrite (toDouble_exact (endTimestamp cur)) by lia.
    rewrite toDouble_exact by lia.
    f_equal. apply eq_true_iff_eq. rewrite Z.ltb_lt, Z.ltb_lt.
    pose proof (Z.div_mod now 1000 ltac:(lia)).
    pose proof (Z.mod_pos_bound now 1000 ltac:(lia)). lia. }
  assert (isActive (now / 1000) s =
          Ok (negb (finalized cur) && (now / 1000 <? endTimestamp cur))) as Hc.
  { unfold isActive. rewrite Hid. fold cur. by destruct (finalized cur). }
  unfold Client.statusLabel. rewrite Hact, Hc.
  cbn [c Client.finalized].
  destruct (finalized cur); simpl.
  - repeat split; try done; try (intros [? ?]; done).
  - destruct (now / 1000 <? endTimestamp cur) eqn:Hlt;
      [apply Z.ltb_lt in Hlt|apply Z.ltb_ge in Hlt].
    + repeat split; try done. intros [_ ?]. lia.
    + repeat split; try done.
Qed.

(** On integers below 2^53 the rounded quotient has the floor of the exact
    one: the rounding error of the scaled quotient never reaches the next
    integer. *)
Lemma scaled_floor x d P q r up :
  0 <= x → 0 < d → 0 < P → d < 2 * P →
  x * P = q * d + r → 0 <= r < d →
  (up = 0 ∨ (up = 1 ∧ d <= 2 * r)) →
  (q + up) / P = x / d.
Proof.
  intros Hx Hd HP HdP Hq Hr Hup.
  pose proof (Z.div_mod x d ltac:(lia)) as Hxd.
  pose proof (Z.mod_pos_bound x d ltac:(lia)) as HR.
  set (Q := x / d) in *. set (R := x mod d) in *.
  symmetry. apply (Z.div_unique _ _ _ (q + up - Q * P)).
  - left. split.
    + destruct Hup as [->|[-> Hup]]; nia.
    + destruct Hup as [->|[-> Hup]]; [nia|].
      assert (q < Q * P + P) as H1 by nia.
      destruct (decide (q = Q * P + P - 1)) as [Heq|Hne]; [|lia].
      exfalso. nia.
  - lia.
Qed.

Lemma floorDiv_exact x d :
  0 <= x < 2 ^ 53 → 0 < d → Client.floorDiv x d = x / d.
Proof.
  intros Hx Hd. unfold Client.floorDiv.
  destruct (x =? 0) eqn:Hx0; [apply Z.eqb_eq in Hx0; by subst|].
  apply Z.eqb_neq in Hx0. rewrite Z.abs_eq by lia.
  unfold Client.nearestQuotient.
  assert (Z.log2 x <= 52) as Hlx.
  { assert (Z.log2 x < 53); [|lia]. apply Z.log2_lt_pow2; lia. }
  pose proof (Z.log2_nonneg d) as Hld.
  pose proof (Z.log2_spec d Hd) as [_ Hdu].
  set (l0 := Z.log2 x - Z.log2 d).
  set (l := if x * 2 ^ Z.max 0 (- l0) <? d * 2 ^ Z.max 0 l0 then l0 - 1 else l0).
  assert (l <= l0) as Hl by (unfold l; destruct (_ <? _); lia).
  set (e := l - 52).
  assert (e <= 0) as He by lia.
  destruct (decide (e = 0)) as [He0|Hne].
  - (* the divisor is 1 *)
    assert (Z.log2 d = 0) as Hd0 by lia.
    assert (d = 1) as -> by (rewrite Hd0 in Hdu; simpl in Hdu; lia).
    rewrite He0. simpl Z.max. rewrite Z.pow_0_r, !Z.mul_1_r, Z.div_1_r.
    rewrite Z.mod_1_r. simpl. rewrite Z.sgn_pos by lia. lia.
  - assert ((0 <=? e) = false) as -> by lia.
    assert ((0 <? x) = true) as -> by lia.
    rewrite (Z.max_r 0 (- e)), (Z.max_l 0 e) by lia.
    rewrite Z.pow_0_r, Z.mul_1_r.
    set (P := 2 ^ (- e)).
    assert (0 < P) as HP by (apply Z.pow_pos_nonneg; lia).
    assert (d < 2 * P) as HdP.
    { assert (2 ^ Z.succ (Z.log2 d) <= 2 ^ Z.succ (- e))
        by (apply Z.pow_le_mono_r; lia).
      unfold P. rewrite (Z.pow_succ_r 2 (- e)) in H by lia. lia. }
    pose proof (Z.div_mod (x * P) d ltac:(lia)) as Hq.
    pose proof (Z.mod_pos_bound (x * P) d ltac:(lia)) as Hr.
    set (q := x * P / d) in *. set (r := (x * P) mod d) in *.
    destruct ((d <? 2 * r) || ((2 * r =? d) && Z.odd q)) eqn:Hup.
    + apply (scaled_floor x d P q r 1); try lia.
    + replace q with (q + 0) by lia.
      apply (scaled_floor x d P q r 0); lia.
Qed.

(** X18. The countdown shows the time left, cut to whole minutes. For an end
    time and a clock that doubles hold exactly, with [left] the end time
    minus the clock in whole seconds: the text is "Ended" exactly when
    [left <= 0], that is when the end time is not after the clock (the
    condition under which the contract takes no contribution); otherwise it
    is ["<d>d <h>h <m>m"] with [h < 24], [m < 60] and [left] between [d] days
    [h] hours [m] minutes and less than a minute more. Without a campaign it
    is empty. *)
Theorem countdown_shows_time_left n t e f o h now :
  0 <= e < 2 ^ 53 → 0 <= now < 2 ^ 53 →
  let c := Some (Client.mkDetails n t e f o h) in
  let left := e - now / 1000 in
  let d := left / 86400 in
  let hh := left mod 86400 / 3600 in
  let mm := left mod 3600 / 60 in
  (Client.countdown c now = Client.js "Ended" ↔ left <= 0) ∧
  (left <= 0 ↔ e <= now / 1000) ∧
  (0 < left →
   Client.countdown c now =
     Client.toString d ++ Client.js "d " ++ Client.toString hh ++
     Client.js "h " ++ Client.toString mm ++ Client.js "m" ∧
   0 <= d ∧ 0 <= hh < 24 ∧ 0 <= mm < 60 ∧
   0 <= left - (86400 * d + 3600 * hh + 60 * mm) < 60) ∧
  Client.countdown None now = [].
Proof.
  intros He Hnow c left d hh mm.
  assert (0 <= now / 1000 < 2 ^ 53) as Hsec.
  { split; [apply Z.div_pos; lia|].
    apply Z.div_lt_upper_bound; lia. }
  assert (Client.countdown c now =
          if left <=? 0 then Client.js "Ended"
          else Client.toString d ++ Client.js "d " ++ Client.toString hh ++
               Client.js "h " ++ Client.toString mm ++ Client.js "m") as E.
  { unfold c, Client.countdown. cbn [Client.endTimestamp].
    rewrite (toDouble_exact e) by lia.
    rewrite (floorDiv_exact now) by lia. fold left.
    rewrite (toDouble_exact left) by (unfold left; lia).
    destruct (left <=? 0) eqn:Hl; [done|]. apply Z.leb_gt in Hl.
    rewrite !Z.rem_mod_nonneg by lia.
    assert (left < 2 ^ 53) by (unfold left; lia).
    pose proof (Z.mod_pos_bound left 86400 ltac:(lia)).
    pose proof (Z.mod_pos_bound left 3600 ltac:(lia)).
    rewrite !floorDiv_exact by lia. done. }
  split; [|split; [unfold left; lia|split; [|done]]].
  - rewrite E. destruct (left <=? 0) eqn:Hl;
      [apply Z.leb_le in Hl|apply Z.leb_gt in Hl].
    + by split.
    + split; [|lia]. intros Heq. exfalso.
      assert (0 <= d) as Hd by (apply Z.div_pos; lia).
      destruct (toString_spec d Hd) as (Hne & Hdig & _).
      destruct (Client.toString d) as [|x ds]; [done|].
      simpl in Hdig. apply andb_true_iff in Hdig as [Hx _].
      apply isDigit_range in Hx.
      injection Heq as Hx' _. lia.
  - intros Hl. rewrite E.
    assert ((left <=? 0) = false) as -> by lia.
    split; [done|]. unfold d, hh, mm.
    repeat split; try (apply Z.div_pos; lia);
      Z.div_mod_to_equations; lia.
Qed.

(** C8 as stated fails: an input with a character that is neither a digit
    nor the decimal point is accepted when that character is white space
    around the amount. *)
Lemma parseAmount_accepts_outer_space :
  ¬ (∀ input : list N,
       (∃ c, c ∈ input ∧ Client.isDigit c = false ∧ c ≠ Client.dot) →
       Client.parseAmount input = None).
Proof.
  intros H. specialize (H (Client.js " 1.5")).
  assert (Client.parseAmount (Client.js " 1.5") = Some 1500000) as E
    by (vm_compute; reflexivity).
  rewrite E in H. discriminate H.
  exists 32%N. split; [|split].
  - apply list_elem_of_here.
  - reflexivity.
  - discriminate.
Qed.

Lemma parseAmount_fixed_point_witness :
  Client.parseAmount (Client.js " 12.3456789 ") = Some 12345678 ∧
  Client.parseAmount (Client.js " 12 ") = Some 12000000.
Proof.
  destruct (parseAmount_fixed_point
              (Client.js " ") (Client.js "12") (Client.js "3456789") (Client.js " "))
    as (H1 & H2 & _).
  - reflexivity.
  - reflexivity.
  - vm_compute. intros H. by repeat (apply elem_of_cons in H as [H|H]; [discriminate|]);
      apply elem_of_nil in H.
  - vm_compute. intros H. by repeat (apply elem_of_cons in H as [H|H]; [discriminate|]);
      apply elem_of_nil in H.
  - intros c [= <-]. reflexivity.
  - intros c [= <-]. reflexivity.
  - intros c [= <-]. reflexivity.
  - split; [exact H2|exact H1].
Defined.

(** What follows a second decimal point is not looked at. *)
Example parseAmount_second_point :
  Client.parseAmount (Client.js "1.2.x") = Some 1200000 ∧
  Client.parseAmount (Client.js "1.2x") = None.
Proof. split; vm_compute; reflexivity. Qed.

(** ** The scenario, checked *)

Lemma demo_world :
  wf_fhe Demo.fhe0 ∧ wf_token Demo.fhe0 Demo.token0.
Proof.
  split; [split; [done|split]|split].
  - intros h v Hl. simpl in Hl.
    apply lookup_singleton_Some in Hl as [<- <-]. split; [done|].
    unfold is_uint64. rewrite uint64_max_val. lia.
  - intros h a Hin. by apply not_elem_of_empty in Hin.
  - intros a h Hl. simpl in Hl.
    apply lookup_singleton_Some in Hl as [<- <-]. done.
  - by vm_compute.
Qed.

Lemma demo_deployed_reachable :
  reachable Demo.vault Demo.cusdt Demo.deployed.
Proof.
  destruct demo_world as [Hf Ht].
  apply reachable_deploy; try done.
Qed.

Lemma demo_txs_wf :
  Forall (fun tx => wf_call Demo.vault tx.1 tx.2)
    [Demo.configure_tx; Demo.contribute_tx; Demo.close_tx].
Proof.
  pose proof uint64_max_val. pose proof uint256_max_pos.
  repeat constructor; simpl; unfold is_uint64; try done; lia.
Qed.

Lemma demo_configured_reachable :
  reachable Demo.vault Demo.cusdt Demo.configured.
Proof.
  apply run_reachable; [apply demo_deployed_reachable|].
  pose proof demo_txs_wf as H. by apply Forall_cons_1 in H as [? _]; constructor.
Qed.

Lemma demo_contributed_reachable :
  reachable Demo.vault Demo.cusdt Demo.contributed.
Proof.
  apply run_reachable; [apply demo_deployed_reachable|].
  pose proof demo_txs_wf as H.
  apply Forall_cons_1 in H as [H1 H]. apply Forall_cons_1 in H as [H2 _].
  by repeat constructor.
Qed.

Lemma contributions_accumulate_witness :
  reachable Demo.vault Demo.cusdt Demo.configured ∧
  wf_call Demo.vault Demo.contribute_tx.1 Demo.contribute_tx.2 ∧
  contribute Demo.vault Demo.cusdt (mkMsg Demo.alice 1001)
    (mkInput 1250000 true) Demo.configured = Ok (7%N, Demo.contributed) ∧
  (∃ transferred,
     decrypt (fhe Demo.contributed) 7%N =
       decrypt (fhe Demo.configured)
         (contribution Demo.configured (campaignId Demo.configured) Demo.alice) +
       decrypt (fhe Demo.contributed) transferred ∧
     decrypt (fhe Demo.contributed)
       (totalRaised (campaign Demo.contributed (campaignId Demo.configured))) =
       decrypt (fhe Demo.configured)
         (totalRaised (campaign Demo.configured (campaignId Demo.configured))) +
       decrypt (fhe Demo.contributed) transferred) ∧
  decrypt (fhe Demo.contributed) 7%N = 1250000 ∧
  sum_contributor Demo.contributed 1 Demo.alice = 1250000 ∧
  sum_campaign Demo.contributed 1 = 1250000.
Proof.
  pose proof demo_configured_reachable as R.
  pose proof demo_txs_wf as Hwf.
  apply Forall_cons_1 in Hwf as [_ Hwf]. apply Forall_cons_1 in Hwf as [Hwf _].
  assert (contribute Demo.vault Demo.cusdt (mkMsg Demo.alice 1001)
            (mkInput 1250000 true) Demo.configured = Ok (7%N, Demo.contributed))
    as Hc by (vm_compute; reflexivity).
  destruct (contributions_accumulate Demo.vault Demo.cusdt Demo.configured R)
    as (_ & _ & H & _).
  destruct (H _ _ _ _ Hwf Hc) as (tr & _ & _ & H1 & H2 & _).
  split; [exact R|]. split; [exact Hwf|]. split; [exact Hc|].
  split; [exists tr; split; [exact H1|exact H2]|].
  repeat split; vm_compute; reflexivity.
Defined.

Lemma configure_campaign_witness :
  reachable Demo.vault Demo.cusdt Demo.deployed ∧
  reachable Demo.vault Demo.cusdt Demo.contributed ∧
  (∃ s', configureCampaign (mkMsg Demo.fundraiser 1000) "Demo" 2000000 4600
           Demo.deployed = Ok (tt, s') ∧
         campaignId s' = campaignId Demo.deployed + 1) ∧
  (∃ s', configureCampaign (mkMsg Demo.fundraiser 1001) "Demo II" 3000000 9000
           Demo.contributed = Ok (tt, s') ∧
         campaignId s' = campaignId Demo.contributed ∧
         fhe s' = fhe Demo.contributed) ∧
  campaignId Demo.deployed = 0 ∧ campaignId Demo.contributed = 1.
Proof.
  split; [exact demo_deployed_reachable|].
  split; [exact demo_contributed_reachable|]. split; [|split].
  - destruct (configure_campaign Demo.vault Demo.cusdt Demo.deployed
                (mkMsg Demo.fundraiser 1000) "Demo" 2000000 4600
                demo_deployed_reachable) as (_ & _ & _ & H & _).
    destruct H as (s' & E & Hid & _).
    + reflexivity.
    + reflexivity.
    + left. reflexivity.
    + reflexivity.
    + exists s'. split; [exact E|exact Hid].
  - destruct (configure_campaign Demo.vault Demo.cusdt Demo.contributed
                (mkMsg Demo.fundraiser 1001) "Demo II" 3000000 9000
                demo_contributed_reachable) as (_ & _ & _ & _ & H & _).
    destruct H as (s' & E & Hid & _ & _ & _ & Hf & _).
    + vm_compute. reflexivity.
    + reflexivity.
    + by vm_compute.
    + vm_compute. reflexivity.
    + exists s'. split; [exact E|]. split; [exact Hid|exact Hf].
  - split; vm_compute; reflexivity.
Defined.

Lemma history_is_immutable_witness :
  reachable Demo.vault Demo.cusdt Demo.configured ∧
  wf_call Demo.vault Demo.contribute_tx.1 Demo.contribute_tx.2 ∧
  decrypt (fhe Demo.configured) (totalRaised (campaign Demo.configured 1)) <=
  decrypt
    (fhe (step Demo.vault Demo.cusdt Demo.contribute_tx.1 Demo.contribute_tx.2
            Demo.configured))
    (totalRaised
       (campaign
          (step Demo.vault Demo.cusdt Demo.contribute_tx.1 Demo.contribute_tx.2
             Demo.configured) 1)).
Proof.
  pose proof demo_configured_reachable as R.
  pose proof demo_txs_wf as Hwf.
  apply Forall_cons_1 in Hwf as [_ Hwf]. apply Forall_cons_1 in Hwf as [Hwf _].
  destruct (history_is_immutable Demo.vault Demo.cusdt Demo.configured
              _ _ R Hwf) as (_ & _ & H & _).
  split; [exact R|]. split; [exact Hwf|]. exact (H 1).
Defined.

Lemma close_has_no_deadline_witness :
  reachable Demo.vault Demo.cusdt Demo.contributed ∧
  1002 < endTimestamp (campaign Demo.contributed 1) ∧
  ∃ payout s',
    closeCampaign Demo.vault (mkMsg Demo.fundraiser 1002) Demo.contributed =
      Ok (payout, s') ∧
    finalized (campaign s' (campaignId Demo.contributed)) = true.
Proof.
  pose proof demo_contributed_reachable as R.
  destruct (close_has_no_deadline Demo.vault Demo.cusdt Demo.contributed
              (mkMsg Demo.fundraiser 1002) R) as [H _].
  destruct H as (payout & s' & E & _ & Hfin & _).
  - vm_compute. reflexivity.
  - by vm_compute.
  - vm_compute. reflexivity.
  - split; [exact R|]. split; [vm_compute; reflexivity|].
    exists payout, s'. split; [exact E|exact Hfin].
Defined.


(** C1 as stated fails: a successful [contribute] does not always add the
    plaintext amount the caller submitted. alice holds 5_000_000 and submits
    6_000_000 to the campaign just configured; the call succeeds, and her
    running total and the aggregate stay at zero. *)
Lemma contribute_underfunded_adds_nothing :
  ¬ (∀ this paymentToken s m i ret s',
       reachable this paymentToken s → wf_call this m (Contribute i) →
       contribute this paymentToken m i s = Ok (ret, s') →
       decrypt (fhe s') (contribution s' (campaignId s) (sender m)) =
         decrypt (fhe s) (contribution s (campaignId s) (sender m)) +
         plaintext i).
Proof.
  intros H.
  assert (wf_call Demo.vault Demo.underfunded_tx.1 Demo.underfunded_tx.2) as Hwf.
  { pose proof uint64_max_val. pose proof uint256_max_pos.
    repeat split; simpl; try done; lia. }
  destruct (contribute Demo.vault Demo.cusdt Demo.underfunded_tx.1
              (mkInput 6000000 true) Demo.configured) as [[ret s']|e] eqn:E;
    [|by vm_compute in E].
  specialize (H _ _ _ _ _ _ _ demo_configured_reachable Hwf E).
  vm_compute in E. injection E as <- <-. vm_compute in H. discriminate H.
Qed.

(** C5 as stated fails: [contribute] also fails outside the three cases. bob
    never approved the vault as his operator; his call to the active campaign
    reverts in the token. *)
Lemma contribute_fails_without_approval :
  ¬ (∀ this paymentToken s m i,
       reachable this paymentToken s → wf_call this m (Contribute i) →
       (succeeds (contribute this paymentToken m i s) = false ↔
        campaignId s = 0 ∨ finalized (campaign s (campaignId s)) = true ∨
        endTimestamp (campaign s (campaignId s)) <= timestamp m)).
Proof.
  intros H.
  assert (wf_call Demo.vault Demo.unapproved_tx.1 Demo.unapproved_tx.2) as Hwf.
  { pose proof uint64_max_val. pose proof uint256_max_pos.
    repeat split; simpl; try done; lia. }
  destruct (H Demo.vault Demo.cusdt Demo.configured Demo.unapproved_tx.1
              (mkInput 1000 true) demo_configured_reachable Hwf) as [Hfail _].
  assert (contribute Demo.vault Demo.cusdt Demo.unapproved_tx.1
            (mkInput 1000 true) Demo.configured =
          Revert TokenUnauthorizedSpender) as E by (vm_compute; reflexivity).
  rewrite E in Hfail. specialize (Hfail eq_refl).
  vm_compute in Hfail. destruct Hfail as [Hc|[Hc|Hc]]; try discriminate Hc.
  by apply Hc.
Qed.

(** ** The scenario, continued *)

Lemma demo_closed_reachable :
  reachable Demo.vault Demo.cusdt Demo.closed.
Proof.
  apply run_reachable; [apply demo_deployed_reachable|apply demo_txs_wf].
Qed.

Lemma demo_closed_events :
  events Demo.closed =
    [CampaignConfigured 1 "Demo" 2000000 4600;
     ContributionReceived 1 Demo.alice 5;
     CampaignClosed 1 Demo.fundraiser 10 1002].
Proof. vm_compute. reflexivity. Qed.

Lemma single_open_campaign_witness :
  reachable Demo.vault Demo.cusdt Demo.closed ∧
  1 <= 1 <= campaignId Demo.closed ∧
  is_Some (campaigns Demo.closed !! 1) ∧
  isInitialized (totalRaised (campaign Demo.closed 1)) = true ∧
  campaigns Demo.closed !! 2 = None.
Proof.
  pose proof demo_closed_reachable as R.
  assert (1 <= 1 <= campaignId Demo.closed) as H1 by (by vm_compute).
  assert (2 < 1 ∨ campaignId Demo.closed < 2) as H2 by (right; by vm_compute).
  destruct (single_open_campaign Demo.vault Demo.cusdt Demo.closed R)
    as (Hin & _ & Hout).
  destruct (Hin 1 H1) as [Hs Hi]. destruct (Hout 2 H2) as [Hn _].
  split; [exact R|]. split; [exact H1|]. split; [exact Hs|].
  split; [exact Hi|exact Hn].
Defined.

Lemma event_log_follows_lifecycle_witness :
  reachable Demo.vault Demo.cusdt Demo.closed ∧
  replay (events Demo.closed) =
    Some (campaignId Demo.closed,
          negb (campaignId Demo.closed =? 0) &&
          negb (finalized (campaign Demo.closed (campaignId Demo.closed)))) ∧
  replay (events Demo.closed) = Some (1, false).
Proof.
  pose proof demo_closed_reachable as R.
  split; [exact R|]. split.
  - exact (event_log_follows_lifecycle Demo.vault Demo.cusdt Demo.closed R).
  - vm_compute. reflexivity.
Defined.

Lemma closed_event_pays_contributions_witness :
  reachable Demo.vault Demo.cusdt Demo.closed ∧
  CampaignClosed 1 Demo.fundraiser 10 1002 ∈ events Demo.closed ∧
  Demo.fundraiser = owner Demo.closed ∧
  finalized (campaign Demo.closed 1) = true ∧
  decrypt (fhe Demo.closed) 10 = sum_campaign Demo.closed 1 ∧
  sum_campaign Demo.closed 1 = 1250000.
Proof.
  pose proof demo_closed_reachable as R.
  assert (CampaignClosed 1 Demo.fundraiser 10 1002 ∈ events Demo.closed) as Hin.
  { rewrite demo_closed_events. do 2 apply list_elem_of_further.
    apply list_elem_of_here. }
  destruct (closed_event_pays_contributions Demo.vault Demo.cusdt Demo.closed R)
    as [H _].
  destruct (H _ _ _ _ Hin) as (Ho & Hf & _ & _ & Hs).
  split; [exact R|]. split; [exact Hin|]. split; [exact Ho|].
  split; [exact Hf|]. split; [exact Hs|]. vm_compute. reflexivity.
Defined.

Lemma metadata_is_latest_configured_event_witness :
  reachable Demo.vault Demo.cusdt Demo.closed ∧
  campaigns Demo.closed !! 1 = Some (mkCampaign "Demo" 2000000 4600 true 8) ∧
  configuredAs (events Demo.closed) 1 = Some ("Demo", 2000000, 4600).
Proof.
  pose proof demo_closed_reachable as R.
  assert (campaigns Demo.closed !! 1 =
          Some (mkCampaign "Demo" 2000000 4600 true 8)) as Hc
    by (vm_compute; reflexivity).
  destruct (metadata_is_latest_configured_event Demo.vault Demo.cusdt
              Demo.closed R) as [H _].
  split; [exact R|]. split; [exact Hc|]. exact (H 1 _ Hc).
Defined.

Lemma grants_follow_contributions_witness :
  reachable Demo.vault Demo.cusdt Demo.closed ∧
  ContributionReceived 1 Demo.alice 5 ∈ events Demo.closed ∧
  isAllowed (fhe Demo.closed) (contribution Demo.closed 1 Demo.alice) Demo.alice ∧
  isAllowed (fhe Demo.closed) (totalRaised (campaign Demo.closed 1))
    (owner Demo.closed).
Proof.
  pose proof demo_closed_reachable as R.
  assert (ContributionReceived 1 Demo.alice 5 ∈ events Demo.closed) as Hin.
  { rewrite demo_closed_events. apply list_elem_of_further, list_elem_of_here. }
  destruct (grants_follow_contributions Demo.vault Demo.cusdt Demo.closed R)
    as [_ H].
  destruct (H _ _ _ Hin) as [H1 H2].
  split; [exact R|]. split; [exact Hin|]. split; [exact H1|exact H2].
Defined.

Lemma owner_can_always_open_round_witness :
  reachable Demo.vault Demo.cusdt Demo.contributed ∧
  wf_call Demo.vault Demo.close_tx.1 Close ∧
  ∃ s2,
    configureCampaign (mkMsg Demo.fundraiser 1003) "Round 2" 3000000 9000
      (step Demo.vault Demo.cusdt Demo.close_tx.1 Close Demo.contributed) =
      Ok (tt, s2) ∧
    campaignId s2 = campaignId Demo.contributed + 1 ∧
    isActive 1003 s2 = Ok true.
Proof.
  pose proof demo_contributed_reachable as R.
  assert (wf_call Demo.vault Demo.close_tx.1 Close) as Hwf.
  { pose proof demo_txs_wf as H.
    apply Forall_cons_1 in H as [_ H]. apply Forall_cons_1 in H as [_ H].
    by apply Forall_cons_1 in H as [H _]. }
  destruct (owner_can_always_open_round Demo.vault Demo.cusdt Demo.contributed
              Demo.close_tx.1 (mkMsg Demo.fundraiser 1003)
              "Round 2" 3000000 9000 R Hwf)
    as (s2 & E & Hid & Hact & _).
  - vm_compute. reflexivity.
  - vm_compute. reflexivity.
  - reflexivity.
  - by vm_compute.
  - split; [exact R|]. split; [exact Hwf|].
    exists s2. split; [exact E|]. split; [exact Hid|exact Hact].
Defined.

Lemma token_flow_witness :
  reachable Demo.vault Demo.cusdt Demo.configured ∧
  wf_call Demo.vault Demo.contribute_tx.1 Demo.contribute_tx.2 ∧
  operators
    (token (step Demo.vault Demo.cusdt Demo.contribute_tx.1 Demo.contribute_tx.2
              Demo.configured)) =
  operators (token Demo.configured).
Proof.
  pose proof demo_configured_reachable as R.
  pose proof demo_txs_wf as Hwf.
  apply Forall_cons_1 in Hwf as [_ Hwf]. apply Forall_cons_1 in Hwf as [Hwf _].
  destruct (token_flow Demo.vault Demo.cusdt Demo.configured _ _ R Hwf)
    as (H & _).
  split; [exact R|]. split; [exact Hwf|exact H].
Defined.

Lemma only_owner_governs_witness :
  reachable Demo.vault Demo.cusdt Demo.configured ∧
  wf_call Demo.vault Demo.contribute_tx.1 Demo.contribute_tx.2 ∧
  sender Demo.contribute_tx.1 ≠ owner Demo.configured ∧
  campaignId
    (step Demo.vault Demo.cusdt Demo.contribute_tx.1 Demo.contribute_tx.2
       Demo.configured) =
  campaignId Demo.configured.
Proof.
  pose proof demo_configured_reachable as R.
  pose proof demo_txs_wf as Hwf.
  apply Forall_cons_1 in Hwf as [_ Hwf]. apply Forall_cons_1 in Hwf as [Hwf _].
  assert (sender Demo.contribute_tx.1 ≠ owner Demo.configured) as Hno
    by (by vm_compute).
  destruct (only_owner_governs Demo.vault Demo.cusdt Demo.configured _ _ R Hwf Hno)
    as (_ & H & _).
  split; [exact R|]. split; [exact Hwf|]. split; [exact Hno|exact H].
Defined.

Lemma close_without_transfer_witness :
  reachable Demo.vault Demo.cusdt Demo.configured ∧
  (isInitialized (confidentialBalanceOf (token Demo.configured) Demo.vault) = true ↔
   ∃ id a h, ContributionReceived id a h ∈ events Demo.configured) ∧
  isInitialized (confidentialBalanceOf (token Demo.configured) Demo.vault) = false.
Proof.
  pose proof demo_configured_reachable as R.
  destruct (close_without_transfer Demo.vault Demo.cusdt Demo.configured R)
    as [H _].
  split; [exact R|]. split; [exact H|]. vm_compute. reflexivity.
Defined.

Lemma aggregate_is_sum_of_entries_witness :
  reachable Demo.vault Demo.cusdt Demo.closed ∧
  decrypt (fhe Demo.closed) (totalRaised (campaign Demo.closed 1)) =
    entries_sum (fhe Demo.closed) (contributions Demo.closed) 1 ∧
  entries_sum (fhe Demo.closed) (contributions Demo.closed) 1 = 1250000.
Proof.
  pose proof demo_closed_reachable as R.
  split; [exact R|]. split.
  - exact (aggregate_is_sum_of_entries Demo.vault Demo.cusdt Demo.closed R 1).
  - vm_compute. reflexivity.
Defined.

Lemma formatAmount_parseAmount_witness :
  0 <= 1234567 ∧
  Client.parseAmount (Client.formatAmount (Some 1234567)) =
    Some (1234567 - 1234567 mod 100) ∧
  Client.formatAmount (Some 1234567) = Client.js "1.2345".
Proof.
  assert (0 <= 1234567) as H by lia.
  destruct (formatAmount_parseAmount 1234567 H) as (E & _).
  split; [exact H|]. split; [exact E|]. vm_compute. reflexivity.
Defined.

Lemma parseAmount_formatAmount_witness :
  ∃ v, Client.parseAmount (Client.js "12" ++ Client.dot :: Client.js "5") = Some v ∧
       Client.formatAmount (Some v) = Client.js "12" ++ Client.dot :: Client.js "5".
Proof.
  apply (parseAmount_formatAmount (Client.js "12") (Client.js "5")).
  - reflexivity.
  - left. discriminate.
  - reflexivity.
  - simpl. lia.
  - left. discriminate.
Defined.

Lemma parseAmount_ignores_after_second_point_witness :
  Client.parseAmount
    ([] ++ (Client.js "1" ++ Client.dot :: Client.js "2" ++
            Client.dot :: Client.js "x") ++ []) =
  (if Client.allDigits1 (Client.js "1") && Client.allDigits0 (Client.js "2")
   then Some (Client.digitsValue (Client.js "1") * 10 ^ 6 +
              Client.digitsValue (take 6 (Client.js "2" ++ Client.zeros6)))
   else None).
Proof.
  destruct (parseAmount_ignores_after_second_point
              [] (Client.js "1") (Client.js "2") (Client.js "x") []) as [E _].
  - reflexivity.
  - reflexivity.
  - vm_compute. intros H.
    by repeat (apply elem_of_cons in H as [H|H]; [discriminate|]);
      apply elem_of_nil in H.
  - vm_compute. intros H.
    by repeat (apply elem_of_cons in H as [H|H]; [discriminate|]);
      apply elem_of_nil in H.
  - intros c [= <-]. reflexivity.
  - intros c [= <-]. reflexivity.
  - exact E.
Defined.

Lemma parseAmount_range_witness :
  Client.parseAmount (Client.js "1.5") = Some 1500000 ∧
  0 <= 1500000 < 10 ^ (Z.of_nat (length
    (default [] (Client.split Client.dot (Client.trim (Client.js "1.5")) !! 0%nat))) + 6).
Proof.
  assert (Client.parseAmount (Client.js "1.5") = Some 1500000) as E
    by (vm_compute; reflexivity).
  destruct (parseAmount_range _ _ E) as (H & _).
  split; [exact E|exact H].
Defined.

Lemma client_status_matches_contract_witness :
  getCampaign Demo.contributed = Ok ("Demo", 2000000, 4600, false, 1%N, 8%N) ∧
  (Client.isActive (Some (Client.mkDetails "Demo" 2000000 4600 false 1 8)) 1001500 =
     true ↔
   isActive (1001500 / 1000) Demo.contributed = Ok true) ∧
  Client.isActive (Some (Client.mkDetails "Demo" 2000000 4600 false 1 8)) 1001500 =
    true.
Proof.
  assert (getCampaign Demo.contributed =
          Ok ("Demo", 2000000, 4600, false, 1%N, 8%N)) as E
    by (vm_compute; reflexivity).
  destruct (client_status_matches_contract Demo.contributed 1001500
              _ _ _ _ _ _ E) as (H & _).
  - lia.
  - reflexivity.
  - split; [exact E|]. split; [exact H|]. vm_compute. reflexivity.
Defined.

Lemma countdown_shows_time_left_witness :
  0 <= 4600 < 2 ^ 53 ∧ 0 <= 1001500 < 2 ^ 53 ∧
  (Client.countdown (Some (Client.mkDetails "Demo" 2000000 4600 false 1 8))
     1001500 = Client.js "Ended" ↔
   4600 - 1001500 / 1000 <= 0) ∧
  Client.countdown (Some (Client.mkDetails "Demo" 2000000 4600 false 1 8))
    1001500 = Client.js "0d 0h 59m".
Proof.
  assert (0 <= 4600 < 2 ^ 53) as He by (split; [lia|reflexivity]).
  assert (0 <= 1001500 < 2 ^ 53) as Hn by (split; [lia|reflexivity]).
  destruct (countdown_shows_time_left "Demo" 2000000 4600 false 1%N 8%N
              1001500 He Hn) as (H & _).
  split; [exact He|]. split; [exact Hn|]. split; [exact H|].
  vm_compute. reflexivity.
Defined.

(** ** The scenario: payout, grants and accessors *)

Lemma demo_donated_world : wf_world Demo.vault Demo.donated.
Proof.
  pose proof (reachable_world Demo.vault Demo.cusdt _ demo_contributed_reachable)
    as W.
  unfold Demo.donated.
  destruct (fromExternal (mkInput 500000 true) (fhe Demo.contributed))
    as [[amount f]|] eqn:E1; [|exact W].
  destruct (confidentialTransfer Demo.alice Demo.vault amount f
              (token Demo.contributed)) as [[[tr f'] t']|] eqn:E2; [|exact W].
  eapply transfer_world; [exact W| |exact E1|exact E2].
  simpl. unfold is_uint64. rewrite uint64_max_val. lia.
Qed.

Lemma demo_donated_step :
  open_step Demo.vault Demo.cusdt Demo.contributed Demo.donated.
Proof.
  unfold Demo.donated.
  destruct (fromExternal (mkInput 500000 true) (fhe Demo.contributed))
    as [[amount f]|] eqn:E1; [|discriminate E1].
  destruct (confidentialTransfer Demo.alice Demo.vault amount f
              (token Demo.contributed)) as [[[tr f'] t']|] eqn:E2.
  - apply open_outside.
  - vm_compute in E1. injection E1 as <- <-. vm_compute in E2. discriminate E2.
Qed.

(** C2 as stated fails: the owner is paid the vault's balance, not the
    aggregate. alice's 500_000 sent straight to the vault are paid out with
    the 1_250_000 she contributed, so the owner's balance grows by 1_750_000
    while the aggregate of the campaign is 1_250_000. *)
Lemma close_pays_more_than_aggregate :
  open_step Demo.vault Demo.cusdt Demo.contributed Demo.donated ∧
  campaigns Demo.donated = campaigns Demo.contributed ∧
  decrypt (fhe Demo.donated)
    (totalRaised (campaign Demo.donated (campaignId Demo.donated))) = 1250000 ∧
  decrypt (fhe Demo.donated)
    (confidentialBalanceOf (token Demo.donated) Demo.fundraiser) = 0 ∧
  ∃ payout s',
    closeCampaign Demo.vault (mkMsg Demo.fundraiser 1002) Demo.donated =
      Ok (payout, s') ∧
    decrypt (fhe s') payout = 1750000 ∧
    decrypt (fhe s') (confidentialBalanceOf (token s') Demo.fundraiser) = 1750000.
Proof.
  split; [exact demo_donated_step|].
  split; [vm_compute; reflexivity|].
  split; [vm_compute; reflexivity|].
  split; [vm_compute; reflexivity|].
  eexists _, _. split; [vm_compute; reflexivity|].
  split; vm_compute; reflexivity.
Qed.

Lemma close_campaign_once_witness :
  wf_world Demo.vault Demo.donated ∧
  closeCampaign Demo.vault (mkMsg Demo.fundraiser 1002) Demo.donated =
    Ok (14%N, step Demo.vault Demo.cusdt (mkMsg Demo.fundraiser 1002) Close
                Demo.donated) ∧
  finalized (campaign (step Demo.vault Demo.cusdt (mkMsg Demo.fundraiser 1002)
                         Close Demo.donated) 1) = true ∧
  decrypt (fhe (step Demo.vault Demo.cusdt (mkMsg Demo.fundraiser 1002) Close
                  Demo.donated)) 14%N =
    decrypt (fhe Demo.donated)
      (confidentialBalanceOf (token Demo.donated) Demo.vault) ∧
  decrypt (fhe Demo.donated)
    (confidentialBalanceOf (token Demo.donated) Demo.vault) = 1750000 ∧
  succeeds (closeCampaign Demo.vault (mkMsg Demo.fundraiser 1003)
              (step Demo.vault Demo.cusdt (mkMsg Demo.fundraiser 1002) Close
                 Demo.donated)) = false ∧
  reachable Demo.vault Demo.cusdt Demo.contributed ∧
  decrypt (fhe Demo.contributed)
    (confidentialBalanceOf (token Demo.contributed) Demo.vault) =
  decrypt (fhe Demo.contributed)
    (totalRaised (campaign Demo.contributed (campaignId Demo.contributed))).
Proof.
  pose proof demo_donated_world as W.
  set (s' := step Demo.vault Demo.cusdt (mkMsg Demo.fundraiser 1002) Close
               Demo.donated).
  assert (closeCampaign Demo.vault (mkMsg Demo.fundraiser 1002) Demo.donated =
            Ok (14%N, s')) as Hc by (vm_compute; reflexivity).
  destruct (close_campaign_once Demo.vault Demo.cusdt Demo.donated
              (mkMsg Demo.fundraiser 1002) W) as (_ & _ & H).
  destruct (H _ _ Hc) as (_ & _ & _ & Hfin & Hpay & _ & _ & _ & _ & Honce).
  split; [exact W|]. split; [exact Hc|]. split; [exact Hfin|].
  split; [exact Hpay|]. split; [vm_compute; reflexivity|].
  split; [exact (Honce s' (mkMsg Demo.fundraiser 1003) (rtc_refl _ _) eq_refl)|].
  pose proof demo_contributed_reachable as R.
  assert (closeCampaign Demo.vault (mkMsg Demo.fundraiser 1002) Demo.contributed =
            Ok (10%N, Demo.closed)) as Hc' by (vm_compute; reflexivity).
  destruct (close_campaign_once Demo.vault Demo.cusdt Demo.contributed
              (mkMsg Demo.fundraiser 1002)
              (reachable_world Demo.vault Demo.cusdt _ R)) as (_ & _ & H').
  destruct (H' _ _ Hc') as (_ & _ & _ & _ & _ & _ & _ & _ & Hagg & _).
  split; [exact R|exact (Hagg R)].
Defined.



Lemma read_accessors_witness :
  campaignId Demo.contributed ≠ 0 ∧
  campaigns Demo.contributed !! campaignId Demo.contributed =
    Some (mkCampaign "Demo" 2000000 4600 false 8) ∧
  getCampaign Demo.contributed =
    Ok ("Demo"%string, 2000000, 4600, false, Demo.fundraiser, 8%N) ∧
  isActive 1001 Demo.contributed = Ok true ∧
  (isActive 4600 Demo.contributed = Ok false ↔ false = true ∨ 4600 <= 4600) ∧
  activeCampaignId Demo.contributed = Ok 1.
Proof.
  assert (campaignId Demo.contributed ≠ 0) as Hid by (vm_compute; discriminate).
  assert (campaigns Demo.contributed !! campaignId Demo.contributed =
            Some (mkCampaign "Demo" 2000000 4600 false 8)) as Hcur
    by (vm_compute; reflexivity).
  destruct (read_accessors Demo.vault Demo.cusdt Demo.contributed 1001 1
              Demo.alice) as (_ & H & _).
  destruct (H Hid) as [Hact Hrec].
  destruct (Hrec _ Hcur) as (Hget & Hia & _).
  destruct (read_accessors Demo.vault Demo.cusdt Demo.contributed 4600 1
              Demo.alice) as (_ & H' & _).
  destruct (H' Hid) as [_ Hrec'].
  destruct (Hrec' _ Hcur) as (_ & _ & _ & Hend).
  split; [exact Hid|]. split; [exact Hcur|]. split; [exact Hget|].
  split; [exact Hia|]. split; [exact Hend|exact Hact].
Defined.
